(** * MediQuery: the HPO ontology-to-graph pipeline

    A shallow embedding of the Python sources under [src/HPO]:
    - [phenotype.py], [graph.py]: the category classifier and the
      term-ingestion loop ([process_obo_file], [_process_batch]);
    - [disease.py]: the annotation-ingestion loop;
    - [graph_enhancer.py], [graph.py]: the association miner and the
      analytics passes, whose Cypher statements are embedded as functions
      on a property graph;
    - [knowledge_graph_builder.py]: the order in which [main] calls them;
    - [conn.py]: the in-memory index built on a networkx [DiGraph].

    Conventions.  A Python [str] is a [string] whose characters are code
    points below 256.  A raised exception is an [Err]/[Some] result.  A
    Cypher float quotient is the exact rational it rounds. *)

From Stdlib Require Import QArith Ascii String.
From stdpp Require Import gmap strings list fin_maps sorting.
Close Scope Q_scope.
Open Scope string_scope.
Open Scope list_scope.

(** ** Python values and exceptions *)

Inductive exn :=
  | TypeError | KeyError | IndexError | AttributeError | ValueError
  | StopIteration | NetworkXError | CypherSyntaxError.

Inductive res (A : Type) :=
  | Ok (a : A)
  | Err (e : exn).
Arguments Ok {A} a.
Arguments Err {A} e.

#[global] Instance res_bind : MBind res :=
  λ A B k r, match r with Ok a => k a | Err e => Err e end.
#[global] Instance res_ret : MRet res := λ A a, Ok a.

#[global] Instance exn_eq_dec : EqDecision exn.
Proof. solve_decision. Defined.

(** What one key of the [current_term] dict holds: the first occurrence of a
    key stores a [str], a second one promotes it to a [list]. *)
Inductive pyval :=
  | VS (s : string)
  | VL (l : list string).

#[global] Instance pyval_eq_dec : EqDecision pyval.
Proof. solve_decision. Defined.

(** ** The [str] methods the sources call *)
Module PyStr.

Definition dquote : ascii := "034"%char.
Definition colon : ascii := ":"%char.
Definition space : ascii := " "%char.
Definition tab : ascii := "009"%char.

(** [str.isspace] on code points below 256. *)
Definition isspace (c : ascii) : bool :=
  let n := nat_of_ascii c in
  (((9 <=? n) && (n <=? 13)) || ((28 <=? n) && (n <=? 32))
   || (n =? 133) || (n =? 160))%nat.

Fixpoint lstrip (s : string) : string :=
  match s with
  | String c s' => if isspace c then lstrip s' else s
  | EmptyString => EmptyString
  end.

Definition rstrip (s : string) : string := String.rev (lstrip (String.rev s)).

(** [s.strip()] *)
Definition strip (s : string) : string := rstrip (lstrip s).

(** [c in s] for a one-character [c] *)
Fixpoint contains (c : ascii) (s : string) : bool :=
  match s with
  | EmptyString => false
  | String d s' => if decide (c = d) then true else contains c s'
  end.

(** [s.split(c)] for a one-character separator: never empty. *)
Fixpoint split (c : ascii) (s : string) : list string :=
  match s with
  | EmptyString => [EmptyString]
  | String d s' =>
      if decide (c = d) then EmptyString :: split c s'
      else match split c s' with
           | w :: ws => String d w :: ws
           | [] => [String d EmptyString]
           end
  end.

(** [s.split(c, 1)] when [c in s]: the text before and after the first [c]. *)
Fixpoint split1 (c : ascii) (s : string) : string * string :=
  match s with
  | EmptyString => (EmptyString, EmptyString)
  | String d s' =>
      if decide (c = d) then (EmptyString, s')
      else let '(a, b) := split1 c s' in (String d a, b)
  end.

(** [s.split(sep)[0]] for a non-empty separator string: the text before the
    first occurrence of [sep], all of [s] when there is none. *)
Fixpoint before (sep : string) (s : string) : string :=
  if String.prefix sep s then EmptyString
  else match s with
       | EmptyString => EmptyString
       | String d s' => String d (before sep s')
       end.

(** [s[n:]] *)
Fixpoint drop (n : nat) (s : string) : string :=
  match n, s with
  | O, _ => s
  | S n', String _ s' => drop n' s'
  | S _, EmptyString => EmptyString
  end.

(** [s.startswith(p)] *)
Definition startswith (p s : string) : bool := String.prefix p s.

(** [l[i]] on a list: [IndexError] out of range. *)
Definition index {A} (l : list A) (i : nat) : res A :=
  match l !! i with Some x => Ok x | None => Err IndexError end.

(** The characters of a [str], as iterating over it yields them. *)
Fixpoint chars (s : string) : list string :=
  match s with
  | EmptyString => []
  | String c s' => String c EmptyString :: chars s'
  end.

Definition digit (c : ascii) : option Z :=
  let n := nat_of_ascii c in
  if ((48 <=? n) && (n <=? 57))%nat then Some (Z.of_nat (n - 48)) else None.

(** The digits of an [int] literal: decimal digits, single underscores
    allowed between two digits.  [acc] is the value read so far and
    [after_digit] tells whether the previous character was a digit. *)
Fixpoint int_digits (acc : Z) (after_digit : bool) (s : string) : option Z :=
  match s with
  | EmptyString => if after_digit then Some acc else None
  | String c s' =>
      match digit c with
      | Some d => int_digits (10 * acc + d) true s'
      | None =>
          if decide (c = "_"%char) then
            if after_digit then int_digits acc false s' else None
          else None
      end
  end.

(** The whitespace [int] skips around a literal.  It is not [str.isspace]:
    below code point 127 only the ASCII whitespace (tab, line feed,
    vertical tab, form feed, carriage return, space) is skipped, so the
    separators 28 to 31 make the literal invalid; above, the two spaces
    [U+0085] and [U+00A0] are read as a space. *)
Definition int_isspace (c : ascii) : bool :=
  let n := nat_of_ascii c in
  (((9 <=? n) && (n <=? 13)) || (n =? 32) || (n =? 133) || (n =? 160))%nat.

Fixpoint int_lstrip (s : string) : string :=
  match s with
  | String c s' => if int_isspace c then int_lstrip s' else s
  | EmptyString => EmptyString
  end.

Definition int_strip (s : string) : string :=
  String.rev (int_lstrip (String.rev (int_lstrip s))).

(** The optional sign of a literal and the text after it. *)
Definition int_sign (body : string) : bool * string :=
  match body with
  | String "-" r => (true, r)
  | String "+" r => (false, r)
  | _ => (false, body)
  end.

(** [sys.get_int_max_str_digits()], at its default (CPython 3.11 and
    later): a decimal literal with more digits is refused. *)
Definition int_max_str_digits : nat := 4300.

(** The number of digit characters of a literal, leading zeros counted and
    underscores not. *)
Fixpoint digit_count (s : string) : nat :=
  match s with
  | EmptyString => 0
  | String c s' =>
      (match digit c with Some _ => 1 | None => 0 end + digit_count s')%nat
  end.

(** [int(s)]: surrounding whitespace, an optional sign, digits;
    [ValueError] for anything else and for a literal of more than
    [int_max_str_digits] digits. *)
Definition int (s : string) : res Z :=
  let '(neg, ds) := int_sign (int_strip s) in
  match int_digits 0 false ds with
  | Some n =>
      if (int_max_str_digits <? digit_count ds)%nat then Err ValueError
      else Ok (if neg then (- n)%Z else n)
  | None => Err ValueError
  end.

End PyStr.

(** ** The graph sink

    The Neo4j store as a property graph: nodes and relationships in creation
    order, each with a property map.  [constraints.py] declares the [id] of a
    [Phenotype] and of a [Disease] unique, and every statement of the
    pipeline addresses a node by label and [id], so a relationship names its
    end points by that pair. *)
Module Sink.

Inductive label := Phenotype | Disease.
Inductive rtype := IS_A | HAS_PHENOTYPE | ASSOCIATED_WITH.

#[global] Instance label_eq_dec : EqDecision label.
Proof. solve_decision. Defined.
#[global] Instance rtype_eq_dec : EqDecision rtype.
Proof. solve_decision. Defined.
#[global] Instance label_countable : Countable label.
Proof.
  refine (inj_countable' (λ l, match l with Phenotype => true | Disease => false end)
            (λ b : bool, if b then Phenotype else Disease) _).
  by intros [].
Defined.

(** Property values.  [VRat] is a float that is the quotient of two
    integers; [VTime] is a [datetime()] reading. *)
Inductive value :=
  | VStr (s : string)
  | VList (l : list string)
  | VInt (z : Z)
  | VBool (b : bool)
  | VRat (q : Q)
  | VTime (t : nat).

#[global] Instance Q_eq_dec : EqDecision Q.
Proof. solve_decision. Defined.
#[global] Instance value_eq_dec : EqDecision value.
Proof. solve_decision. Defined.

(** The float [a / b], as the rational in lowest terms. *)
Definition ratio (a : Z) (b : positive) : value := VRat (Qred (a # b)).

Definition of_py (v : pyval) : value :=
  match v with VS s => VStr s | VL l => VList l end.

Abbreviation key := (label * string)%type.
Abbreviation props := (gmap string value).

Record node := { nlabel : label; nid : string; nprops : props }.
Record rel := { rty : rtype; rsrc : key; rdst : key; rprops : props }.
Record graph := { nodes : list node; rels : list rel }.

Definition nkey (n : node) : key := (nlabel n, nid n).
Definition rkey (r : rel) : rtype * key * key := (rty r, rsrc r, rdst r).

Definition empty : graph := {| nodes := []; rels := [] |}.

(** [SET x.a = v, x.b = w, ...]: the assignments [kvs] override [old]. *)
Definition set_props (kvs old : props) : props := kvs ∪ old.

(** [MERGE] on a list of entities: every entity the pattern matches is
    kept (and then [SET]); one is created only when none matches. *)
Definition upsert {A} (is_match : A → bool) (update : A → A) (fresh : A)
    (l : list A) : list A :=
  if existsb is_match l
  then map (λ x, if is_match x then update x else x) l
  else l ++ [fresh].

Definition is_node (k : key) (n : node) : bool := bool_decide (nkey n = k).
Definition is_rel (t : rtype) (a b : key) (r : rel) : bool :=
  bool_decide (rkey r = (t, a, b)).

Definition has_node (k : key) (g : graph) : bool := existsb (is_node k) (nodes g).
Definition has_rel (t : rtype) (a b : key) (g : graph) : bool :=
  existsb (is_rel t a b) (rels g).

(** The properties of the node [k] / of the relationship [a -[t]-> b]. *)
Definition node_props (k : key) (g : graph) : option props :=
  nprops <$> find (is_node k) (nodes g).
Definition rel_props (t : rtype) (a b : key) (g : graph) : option props :=
  rprops <$> find (is_rel t a b) (rels g).

Definition node_prop (k : key) (a : string) (g : graph) : option value :=
  ps ← node_props k g; ps !! a.
Definition rel_prop (t : rtype) (a b : key) (p : string) (g : graph) : option value :=
  ps ← rel_props t a b g; ps !! p.

(** [MERGE (n:L {id: i}) SET n.a = ...] *)
Definition merge_node (k : key) (kvs : props) (g : graph) : graph :=
  {| nodes := upsert (is_node k)
                (λ n, {| nlabel := nlabel n; nid := nid n;
                         nprops := set_props kvs (nprops n) |})
                {| nlabel := k.1; nid := k.2; nprops := set_props kvs ∅ |}
                (nodes g);
     rels := rels g |}.

(** [MERGE (a)-[r:T]->(b) SET r.p = ...] for bound nodes [a] and [b]. *)
Definition merge_rel_bound (t : rtype) (a b : key) (kvs : props) (g : graph) : graph :=
  {| nodes := nodes g;
     rels := upsert (is_rel t a b)
               (λ r, {| rty := rty r; rsrc := rsrc r; rdst := rdst r;
                        rprops := set_props kvs (rprops r) |})
               {| rty := t; rsrc := a; rdst := b; rprops := set_props kvs ∅ |}
               (rels g) |}.

(** [MATCH (a) MATCH (b) MERGE (a)-[r:T]->(b) SET r.p = ...]: without both
    end points the row is dropped and nothing is written. *)
Definition merge_rel (t : rtype) (a b : key) (kvs : props) (g : graph) : graph :=
  if has_node a g && has_node b g then merge_rel_bound t a b kvs g else g.

(** [SET n.a = ...] on an already bound node. *)
Definition set_node (k : key) (kvs : props) (g : graph) : graph :=
  {| nodes := map (λ n, if is_node k n
                        then {| nlabel := nlabel n; nid := nid n;
                                nprops := set_props kvs (nprops n) |}
                        else n) (nodes g);
     rels := rels g |}.

(** [SET n.a = e] where [e] may be null: setting null removes the property. *)
Definition assign (a : string) (v : option value) (ps : props) : props :=
  match v with Some v => <[a := v]> ps | None => delete a ps end.

Definition update_node (k : key) (f : props → props) (g : graph) : graph :=
  {| nodes := map (λ n, if is_node k n
                        then {| nlabel := nlabel n; nid := nid n; nprops := f (nprops n) |}
                        else n) (nodes g);
     rels := rels g |}.

(** The relationships with their identity (the position in the store). *)
Definition irels (g : graph) : list (nat * rel) := imap pair (rels g).

(** The rows of [(at)-[r:T]-(other)]: every relationship of type [t] at
    [at] not in [used], once, with its other end (a loop is matched
    once). *)
Definition und_steps (t : rtype) (g : graph) (used : list nat) (at_ : key)
    : list (nat * key) :=
  flat_map (λ '(i, r),
              if bool_decide (rty r = t ∧ (i ∉ used)) then
                if bool_decide (rsrc r = at_) then [(i, rdst r)]
                else if bool_decide (rdst r = at_) then [(i, rsrc r)] else []
              else [])
    (irels g).

(** The rows of [(at)-[r:T]->(other)]. *)
Definition out_steps (t : rtype) (g : graph) (used : list nat) (at_ : key)
    : list (nat * key) :=
  flat_map (λ '(i, r),
              if bool_decide (rty r = t ∧ (i ∉ used) ∧ rsrc r = at_)
              then [(i, rdst r)] else [])
    (irels g).

(** The relationships of [(at)<-[r:T]-()]. *)
Definition incoming (t : rtype) (g : graph) (at_ : key) : list rel :=
  filter (λ r, bool_decide (rty r = t ∧ rdst r = at_)) (rels g).

(** The keys of the [Phenotype] nodes, as [MATCH (p:Phenotype)] binds them. *)
Definition phenotypes (g : graph) : list key :=
  map nkey (filter (λ n, bool_decide (nlabel n = Phenotype)) (nodes g)).

(** A session: the store and the number of statements run so far; the
    [k]-th statement reads [datetime()] as [now k]. *)
Record session := { store : graph; tick : nat }.

Definition run (now : nat → nat) (stmt : nat → graph → graph) (s : session) : session :=
  {| store := stmt (now (tick s)) (store s); tick := S (tick s) |}.

End Sink.

(** ** [phenotype.py]: the classifier and the term-ingestion loop *)
Module PhenotypeProcessor.
Import Sink.

(** The rules: ordered, overlapping ranges of identifiers, compared as
    strings ([start <= hpo_id <= end] on [str] is lexicographic). *)
Definition categories : list (string * string * string) :=
  [ ("HP:0000005", "HP:0001999", "Inheritance");
    ("HP:0000118", "HP:0001416", "Morphology");
    ("HP:0000707", "HP:0001626", "Nervous System");
    ("HP:0001574", "HP:0001780", "Integument");
    ("HP:0000478", "HP:0000612", "Eye");
    ("HP:0000598", "HP:0000706", "Ear");
    ("HP:0000818", "HP:0000933", "Skeletal system");
    ("HP:0001197", "HP:0001574", "Connective Tissue");
    ("HP:0001507", "HP:0001573", "Growth");
    ("HP:0001574", "HP:0001780", "Constitutional Symptom");
    ("HP:0001781", "HP:0002060", "Limbs");
    ("HP:0002061", "HP:0003128", "Musculature");
    ("HP:0000152", "HP:0000589", "Head/Neck");
    ("HP:0001608", "HP:0001621", "Voice");
    ("HP:0001626", "HP:0001869", "Cardiovascular");
    ("HP:0001871", "HP:0002087", "Blood");
    ("HP:0002086", "HP:0002250", "Respiratory");
    ("HP:0002242", "HP:0003011", "Abdomen");
    ("HP:0000118", "HP:0000118", "Genitourinary system");
    ("HP:0001939", "HP:0001939", "Metabolism/Homeostasis");
    ("HP:0001871", "HP:0002597", "Endocrine");
    ("HP:0002715", "HP:0004431", "Immunology");
    ("HP:0004325", "HP:0004332", "Oncology");
    ("HP:0032223", "HP:0033127", "Multisystem Disorder") ].

(** [start <= hpo_id <= end] *)
Definition in_range (start end_ hpo_id : string) : bool :=
  String.leb start hpo_id && String.leb hpo_id end_.

(** The [for start, end, category in ...] loop with its [return]. *)
Fixpoint first_match (rules : list (string * string * string))
    (hpo_id : string) : string :=
  match rules with
  | [] => "Other"
  | (start, end_, category) :: rest =>
      if in_range start end_ hpo_id then category
      else first_match rest hpo_id
  end.

(** [_determine_category] on the value [process_obo_file] passes,
    [current_term.get('id', '')]: a [str], or a [list] when the block
    repeated its [id:] line, and then [start <= hpo_id] raises. *)
Definition _determine_category (hpo_id : pyval) : res string :=
  match hpo_id with
  | VS s => if decide (s = "") then Ok "Other" else Ok (first_match categories s)
  | VL [] => Ok "Other"
  | VL (_ :: _) =>
      match categories with [] => Ok "Other" | _ :: _ => Err TypeError end
  end.


(** A record of the batch: a node (no ['type'] key) or a relationship
    (['type': 'relationship']). *)
Inductive item :=
  | Node (id : string) (name : pyval) (definition : string) (synonyms : pyval)
      (category : string) (comment : pyval) (xrefs : pyval)
  | Relationship (child_id parent_id : string).

Definition is_node_item (it : item) : bool :=
  match it with Node _ _ _ _ _ _ _ => true | Relationship _ _ => false end.
Definition is_relationship (it : item) : bool := negb (is_node_item it).

(** [s.split(c)[0]] *)
Definition first_field (c : ascii) (s : string) : string :=
  match PyStr.split c s with w :: _ => w | [] => "" end.

(** What a [[Term]] line appends to the batch for the block read so far:
    the body of [if current_term and 'id' in current_term:]. *)
Definition term_records (current_term : gmap string pyval) : res (list item) :=
  if bool_decide (current_term ≠ ∅) && bool_decide (is_Some (current_term !! "id"))
  then
    let idv := default (VS "") (current_term !! "id") in
    category ← _determine_category idv;
    (* a non-empty [list] id never gets here: the classifier raised on it;
       the loop never stores an empty list *)
    id ← match idv with VS s => Ok s | VL _ => Err TypeError end;
    definition ←
      match current_term !! "def" with
      | None => Ok ""
      | Some (VS d) => PyStr.index (PyStr.split PyStr.dquote d) 1
      | Some (VL _) => Err AttributeError
      end;
    let node :=
      Node id (default (VS "") (current_term !! "name")) definition
        (default (VL []) (current_term !! "synonym")) category
        (default (VS "") (current_term !! "comment"))
        (default (VL []) (current_term !! "xref")) in
    (* [for parent in current_term['is_a']]: the elements of a list, the
       characters of a str *)
    let parents :=
      match current_term !! "is_a" with
      | None => []
      | Some (VS s) => PyStr.chars s
      | Some (VL l) => l
      end in
    Ok (node :: map (λ parent, Relationship id (first_field PyStr.space parent)) parents)
  else Ok [].

(** The [elif ':' in line:] branch. *)
Definition add_field (current_term : gmap string pyval) (line : string)
    : gmap string pyval :=
  let '(k, v) := PyStr.split1 PyStr.colon line in
  let key := PyStr.strip k in
  let value := PyStr.strip v in
  match current_term !! key with
  | Some (VL l) => <[key := VL (l ++ [value])]> current_term
  | Some (VS s) => <[key := VL [s; value]]> current_term
  | None => <[key := VS value]> current_term
  end.

Section Loop.
(** The loop only hands batches to the session; it is stated once for
    any session type [S] and any [_process_batch]. *)
Context {S : Type} (process_batch : S → list item → S) (batch_size : nat).

Record loop_state := {
  current_term : gmap string pyval;
  batch : list item;
  session : S;
  terms_processed : nat;
  relationships_created : nat }.

Definition step (st : loop_state) (raw : string) : res loop_state :=
  let line := PyStr.strip raw in
  if decide (line = "[Term]") then
    recs ← term_records (current_term st);
    let batch' := batch st ++ recs in
    let flush := (batch_size <=? length batch')%nat in
    Ok {| current_term := ∅;
          batch := if flush then [] else batch';
          session := if flush then process_batch (session st) batch' else session st;
          terms_processed := terms_processed st + length (filter is_node_item recs);
          relationships_created :=
            relationships_created st + length (filter is_relationship recs) |}
  else if PyStr.contains PyStr.colon line then
    Ok {| current_term := add_field (current_term st) line;
          batch := batch st; session := session st;
          terms_processed := terms_processed st;
          relationships_created := relationships_created st |}
  else Ok st.

(** [for line in file:]; an exception leaves the loop with the state
    reached. *)
Fixpoint loop (st : loop_state) (lines : list string) : loop_state * option exn :=
  match lines with
  | [] => (st, None)
  | l :: ls =>
      match step st l with
      | Ok st' => loop st' ls
      | Err e => (st, Some e)
      end
  end.

(** [process_obo_file]: the loop, then [if batch: _process_batch(...)].
    Returns the session, the two counters, and the exception re-raised. *)
Definition process_obo_file (s : S) (lines : list string) : S * (nat * nat) * option exn :=
  let init := {| current_term := ∅; batch := []; session := s;
                 terms_processed := 0; relationships_created := 0 |} in
  let '(st, e) := loop init lines in
  let counts := (terms_processed st, relationships_created st) in
  match e with
  | Some _ => (session st, counts, e)
  | None =>
      (match batch st with
       | [] => session st
       | _ :: _ => process_batch (session st) (batch st)
       end, counts, None)
  end.
End Loop.

Definition node_kvs (now : nat) (it : item) : props :=
  match it with
  | Node _ name definition synonyms category comment xrefs =>
      list_to_map
        [ ("name", of_py name); ("definition", VStr definition);
          ("synonyms", of_py synonyms); ("category", VStr category);
          ("comment", of_py comment); ("xrefs", of_py xrefs);
          ("created_at", VTime now); ("modified_at", VTime now) ]
  | Relationship _ _ => ∅
  end.

Definition rel_kvs (now : nat) : props :=
  list_to_map
    [ ("confidence_score", ratio 1 1); ("relationship_type", VStr "direct");
      ("created_at", VTime now) ].

(** [UNWIND $nodes AS node MERGE (p:Phenotype {id: node.id}) SET ...] *)
Definition merge_nodes (nodes : list item) (now : nat) (g : graph) : graph :=
  foldl (λ g it,
           match it with
           | Node id _ _ _ _ _ _ => merge_node (Phenotype, id) (node_kvs now it) g
           | Relationship _ _ => g
           end) g nodes.

(** [UNWIND $rels AS rel MATCH (child ...) MATCH (parent ...)
     MERGE (child)-[r:IS_A]->(parent) SET ...] *)
Definition merge_rels (rels : list item) (now : nat) (g : graph) : graph :=
  foldl (λ g it,
           match it with
           | Relationship child_id parent_id =>
               merge_rel IS_A (Phenotype, child_id) (Phenotype, parent_id) (rel_kvs now) g
           | Node _ _ _ _ _ _ _ => g
           end) g rels.

Definition _process_batch (now : nat → nat) (s : Sink.session) (batch : list item)
    : Sink.session :=
  let nodes := filter is_node_item batch in
  let relationships := filter is_relationship batch in
  let s1 := match nodes with [] => s | _ :: _ => run now (merge_nodes nodes) s end in
  match relationships with [] => s1 | _ :: _ => run now (merge_rels relationships) s1 end.

End PhenotypeProcessor.

(** ** [graph.py]: the classifier of the single-file builder

    Disjoint ranges over the number after the first colon. *)
Module GraphPy.

Definition categories : list (Z * Z * string) :=
  [ (0, 1999, "Morphology"); (2000, 2999, "Neurological");
    (3000, 3999, "Behavioral"); (4000, 4999, "Metabolic");
    (5000, 5999, "Cardiovascular"); (6000, 6999, "Respiratory");
    (7000, 7999, "Digestive"); (8000, 8999, "Musculoskeletal");
    (9000, 9999, "Immunological"); (10000, 10999, "Growth");
    (11000, 11999, "Cellular"); (12000, 12999, "Constitutional") ]%Z.

(** [int(hpo_id.split(':')[1]) if ':' in hpo_id else 0] *)
Definition id_num (hpo_id : pyval) : res Z :=
  match hpo_id with
  | VS s =>
      if PyStr.contains PyStr.colon s
      then x ← PyStr.index (PyStr.split PyStr.colon s) 1; PyStr.int x
      else Ok 0%Z
  | VL l =>
      if bool_decide (":" ∈ l) then Err AttributeError else Ok 0%Z
  end.

Fixpoint first_match (rules : list (Z * Z * string)) (n : Z) : string :=
  match rules with
  | [] => "Other"
  | (start, end_, category) :: rest =>
      if ((start <=? n) && (n <=? end_))%Z then category
      else first_match rest n
  end.

(** The whole body sits in [try: ... except Exception: return 'Other']. *)
Definition _determine_category (hpo_id : pyval) : res string :=
  match id_num hpo_id with
  | Ok n => Ok (first_match categories n)
  | Err _ => Ok "Other"
  end.

(** [add_phenotype_metrics]: the statement ends in
    [p.leaf_node = NOT EXISTS((:<-[:IS_A]-()))], where a label must follow
    the colon; the sink rejects the text and nothing is written. *)
Definition add_phenotype_metrics (now : nat → nat) (s : Sink.session)
    : Sink.session * option exn :=
  ({| Sink.store := Sink.store s; Sink.tick := S (Sink.tick s) |}, Some CypherSyntaxError).

End GraphPy.


(** ** [disease.py]: the annotation-ingestion loop *)
Module DiseaseProcessor.
Import Sink.

Record annotation := {
  disease_id : string; disease_name : string; phenotype_id : string;
  evidence : string; frequency : string; onset : string }.

(** [parts[i] if len(parts) > i else ''] *)
Definition field (parts : list string) (i : nat) : string := default "" (parts !! i).

(** One line of the table after the header: [None] for a comment line or
    a row with fewer than 4 fields. *)
Definition parse_line (line : string) : option annotation :=
  if PyStr.startswith "#" line then None
  else
    let parts := PyStr.split PyStr.tab (PyStr.strip line) in
    if (4 <=? length parts)%nat then
      Some {| disease_id := field parts 0; disease_name := field parts 1;
              phenotype_id := field parts 3; evidence := field parts 5;
              frequency := field parts 8; onset := field parts 9 |}
    else None.

Definition disease_kvs (now : nat) (a : annotation) : props :=
  list_to_map [ ("name", VStr (disease_name a)); ("modified_at", VTime now) ].

Definition has_phenotype_kvs (now : nat) (a : annotation) : props :=
  list_to_map
    [ ("evidence", VStr (evidence a)); ("frequency", VStr (frequency a));
      ("onset", VStr (onset a)); ("created_at", VTime now) ].

(** [UNWIND $annotations AS annotation MERGE (d:Disease ...) SET ...
     WITH d, annotation MATCH (p:Phenotype ...) MERGE (d)-[r:HAS_PHENOTYPE]->(p)
     SET ...], row by row. *)
Definition merge_annotations (batch : list annotation) (now : nat) (g : graph) : graph :=
  foldl (λ g a,
           merge_rel HAS_PHENOTYPE (Disease, disease_id a) (Phenotype, phenotype_id a)
             (has_phenotype_kvs now a)
             (merge_node (Disease, disease_id a) (disease_kvs now a) g))
    g batch.

Definition _process_annotation_batch (now : nat → nat) (s : session)
    (batch : list annotation) : session :=
  run now (merge_annotations batch) s.

Section Loop.
Context {S : Type} (process_batch : S → list annotation → S) (batch_size : nat).

(** The loop state: the batch, the session, the counter. *)
Definition step (st : list annotation * S * nat) (line : string)
    : list annotation * S * nat :=
  let '(batch, s, n) := st in
  match parse_line line with
  | None => st
  | Some a =>
      let batch' := batch ++ [a] in
      if (batch_size <=? length batch')%nat
      then ([], process_batch s batch', Datatypes.S n)
      else (batch', s, Datatypes.S n)
  end.

(** [next(file)] skips the header and raises on an empty file. *)
Definition process_phenotype_annotations (s : S) (lines : list string)
    : S * nat * option exn :=
  match lines with
  | [] => (s, 0, Some StopIteration)
  | _header :: rows =>
      let '(batch, s', n) := foldl step ([], s, 0) rows in
      (match batch with [] => s' | _ :: _ => process_batch s' batch end, n, None)
  end.
End Loop.

End DiseaseProcessor.

(** ** [conn.py]: the in-memory index *)

(** networkx's [DiGraph], as far as [conn.py] uses it: [add_node],
    [add_edge], [ancestors], [descendants]. *)
Module nx.

(** Nodes in insertion order with their [name] and [definition]
    attributes, and the directed edges. *)
Record DiGraph := {
  gnodes : list (string * (string * string));
  gedges : list (string * string) }.

Definition empty : DiGraph := {| gnodes := []; gedges := [] |}.

Definition has_node (G : DiGraph) (n : string) : bool :=
  bool_decide (n ∈ map fst (gnodes G)).

(** [G.add_node(n, name=..., definition=...)]: a known node keeps its
    place and takes the new attributes. *)
Definition add_node (n : string) (attrs : string * string) (G : DiGraph) : DiGraph :=
  {| gnodes := if has_node G n
               then map (λ x, if bool_decide (x.1 = n) then (n, attrs) else x) (gnodes G)
               else gnodes G ++ [(n, attrs)];
     gedges := gedges G |}.

(** [G.add_edge(u, v)] first adds the end points it does not know. *)
Definition add_edge (u v : string) (G : DiGraph) : DiGraph :=
  let add_missing n G :=
    if has_node G n then G
    else {| gnodes := gnodes G ++ [(n, ("", ""))]; gedges := gedges G |} in
  let G' := add_missing v (add_missing u G) in
  {| gnodes := gnodes G';
     gedges := if bool_decide ((u, v) ∈ gedges G') then gedges G'
               else gedges G' ++ [(u, v)] |}.

Definition successors (G : DiGraph) (n : string) : list string :=
  map snd (filter (λ e, bool_decide (e.1 = n)) (gedges G)).
Definition predecessors (G : DiGraph) (n : string) : list string :=
  map fst (filter (λ e, bool_decide (e.2 = n)) (gedges G)).

(** Breadth-first search from the [queue]: the nodes discovered, in order.
    [visited] holds the source and what was discovered so far.  Every
    node taken from the queue but the source was discovered along an edge
    of its own, so one more step than there are edges is enough. *)
Fixpoint bfs (next : string → list string) (fuel : nat) (visited queue : list string)
    : list string :=
  match fuel, queue with
  | O, _ | _, [] => []
  | Datatypes.S fuel', n :: rest =>
      let new := remove_dups (filter (λ m, bool_decide (m ∉ visited)) (next n)) in
      new ++ bfs next fuel' (visited ++ new) (rest ++ new)
  end.

(** [nx.descendants(G, source)]: the nodes other than [source] reachable
    from it; [NetworkXError] when [source] is not in [G]. *)
Definition descendants (G : DiGraph) (source : string) : res (list string) :=
  if has_node G source
  then Ok (bfs (successors G) (Datatypes.S (length (gedges G))) [source] [source])
  else Err NetworkXError.

(** [nx.ancestors(G, source)]: the nodes other than [source] that have a
    path to it (the search runs on the reversed edges). *)
Definition ancestors (G : DiGraph) (source : string) : res (list string) :=
  if has_node G source
  then Ok (bfs (predecessors G) (Datatypes.S (length (gedges G))) [source] [source])
  else Err NetworkXError.

End nx.

Module HPOParser.

(** The dict of one term: the keys [parse_obo] may set. *)
Record term := {
  t_id : option string; t_name : option string;
  t_definition : option string; t_is_a : option (list string) }.

Definition new_term : term :=
  {| t_id := None; t_name := None; t_definition := None; t_is_a := None |}.

(** Truth value of the dict: it has a key. *)
Definition nonempty (t : term) : bool :=
  bool_decide (is_Some (t_id t) ∨ is_Some (t_name t)
               ∨ is_Some (t_definition t) ∨ is_Some (t_is_a t)).

(** [self.terms[id] = t]: a known key keeps its place in the dict. *)
Definition store_term (id : string) (t : term) (terms : list (string * term))
    : list (string * term) :=
  if bool_decide (id ∈ map fst terms)
  then map (λ x, if bool_decide (x.1 = id) then (id, t) else x) terms
  else terms ++ [(id, t)].

(** [if current_term: self.terms[current_term['id']] = current_term];
    [None] is Python's [None], before the first [[Term]] line. *)
Definition flush (current_term : option term) (terms : list (string * term))
    : res (list (string * term)) :=
  match current_term with
  | None => Ok terms
  | Some t =>
      if nonempty t then
        match t_id t with
        | Some id => Ok (store_term id t terms)
        | None => Err KeyError
        end
      else Ok terms
  end.

(** One line of the [for line in file:] loop; the state is
    [(current_term, terms)]. *)
Definition step (st : option term * list (string * term)) (raw : string)
    : res (option term * list (string * term)) :=
  let '(current_term, terms) := st in
  let line := PyStr.strip raw in
  (* [current_term[...] = ...] and ['is_a' not in current_term] raise on [None] *)
  let assign (f : term → res term) :=
    match current_term with
    | None => Err TypeError
    | Some t => t' ← f t; Ok (Some t', terms)
    end in
  if decide (line = "[Term]") then
    terms' ← flush current_term terms; Ok (Some new_term, terms')
  else if PyStr.startswith "id: " line then
    assign (λ t, Ok {| t_id := Some (PyStr.drop 4 line); t_name := t_name t;
                       t_definition := t_definition t; t_is_a := t_is_a t |})
  else if PyStr.startswith "name: " line then
    assign (λ t, Ok {| t_id := t_id t; t_name := Some (PyStr.drop 6 line);
                       t_definition := t_definition t; t_is_a := t_is_a t |})
  else if PyStr.startswith "def: " line then
    (* the right-hand side is evaluated before the store into [current_term] *)
    d ← PyStr.index (PyStr.split PyStr.dquote (PyStr.drop 5 line)) 1;
    assign (λ t, Ok {| t_id := t_id t; t_name := t_name t;
                       t_definition := Some d; t_is_a := t_is_a t |})
  else if PyStr.startswith "is_a: " line then
    assign (λ t, Ok {| t_id := t_id t; t_name := t_name t;
                       t_definition := t_definition t;
                       t_is_a := Some (default [] (t_is_a t)
                                       ++ [PyStr.before " !" (PyStr.drop 6 line)]) |})
  else Ok st.

Fixpoint loop (st : option term * list (string * term)) (lines : list string)
    : res (option term * list (string * term)) :=
  match lines with
  | [] => Ok st
  | l :: ls => st' ← step st l; loop st' ls
  end.

(** [# Build the graph structure] *)
Definition build_graph (terms : list (string * term)) (G : nx.DiGraph) : nx.DiGraph :=
  foldl (λ G '(term_id, t),
           foldl (λ G parent, nx.add_edge term_id parent G)
             (nx.add_node term_id (default "" (t_name t), default "" (t_definition t)) G)
             (default [] (t_is_a t)))
    G terms.

Record parser := { graph : nx.DiGraph; terms : list (string * term) }.

Definition init : parser := {| graph := nx.empty; terms := [] |}.

(** [parse_obo]: the loop, [# Add the last term], the graph. *)
Definition parse_obo (self : parser) (lines : list string) : res parser :=
  '(current_term, terms1) ← loop (None, terms self) lines;
  terms2 ← flush current_term terms1;
  Ok {| graph := build_graph terms2 (graph self); terms := terms2 |}.

(** [try: return list(nx.ancestors(self.graph, term_id))
     except nx.NetworkXError: return []]; docstring: "Get all ancestors of
    a term (parent terms)". *)
Definition get_ancestors (self : parser) (term_id : string) : list string :=
  match nx.ancestors (graph self) term_id with Ok l => l | Err _ => [] end.

(** Docstring: "Get all descendants of a term (child terms)". *)
Definition get_descendants (self : parser) (term_id : string) : list string :=
  match nx.descendants (graph self) term_id with Ok l => l | Err _ => [] end.

End HPOParser.

(** [get_term_info]: [self.terms.get(term_id, {})]; the empty dict is the
    term without key. *)
Module HPOTerms.

Definition get_term_info (self : HPOParser.parser) (term_id : string) : HPOParser.term :=
  match find (λ x : string * HPOParser.term, bool_decide (x.1 = term_id))
          (HPOParser.terms self) with
  | Some (_, t) => t
  | None => HPOParser.new_term
  end.

End HPOTerms.

(** The annotation index of [HPOParser]: [parse_phenotype_annotations]
    and the queries on its two dicts. *)
Module HPOAnnotations.

(** The two [defaultdict(list)]. *)
Record index := {
  disease_symptoms : gmap string (list string);
  symptom_diseases : gmap string (list string) }.

Definition init : index := {| disease_symptoms := ∅; symptom_diseases := ∅ |}.

(** [d[k].append(v)] on a [defaultdict(list)] *)
Definition append (k v : string) (d : gmap string (list string))
    : gmap string (list string) :=
  <[k := default [] (d !! k) ++ [v]]> d.

(** The body of [for line in file:]. *)
Definition add_line (self : index) (line : string) : index :=
  if PyStr.startswith "#" line then self
  else
    let parts := PyStr.split PyStr.tab (PyStr.strip line) in
    if (4 <=? length parts)%nat then
      let disease_id := default "" (parts !! 0) in
      let hpo_id := default "" (parts !! 3) in
      {| disease_symptoms := append disease_id hpo_id (disease_symptoms self);
         symptom_diseases := append hpo_id disease_id (symptom_diseases self) |}
    else self.

(** [next(file)] skips the header and raises on an empty file. *)
Definition parse_phenotype_annotations (self : index) (lines : list string) : res index :=
  match lines with
  | [] => Err StopIteration
  | _header :: rows => Ok (foldl add_line self rows)
  end.

(** [self.symptom_diseases.get(symptom_id, [])] *)
Definition get_diseases_for_symptom (self : index) (symptom_id : string) : list string :=
  default [] (symptom_diseases self !! symptom_id).

Definition get_symptoms_for_disease (self : index) (disease_id : string) : list string :=
  default [] (disease_symptoms self !! disease_id).

(** [related[symptom] += 1] on a [defaultdict(int)] *)
Definition incr (k : string) (related : gmap string nat) : gmap string nat :=
  <[k := S (default 0 (related !! k))]> related.

Definition get_related_symptoms (self : index) (symptom_id : string) : gmap string nat :=
  foldl (λ related disease,
           foldl (λ related symptom,
                    if decide (symptom ≠ symptom_id) then incr symptom related else related)
             related (get_symptoms_for_disease self disease))
    ∅ (get_diseases_for_symptom self symptom_id).

End HPOAnnotations.

(** ** [graph_enhancer.py]: the association miner and the analytics passes *)
Module GraphEnhancer.
Import Sink.

(** *** [create_symptom_relationships] *)

(** The diseases [d] of [(p1)<-[:HAS_PHENOTYPE]-(d:Disease)], one per
    relationship. *)
Definition diseases_of (p1 : key) (g : graph) : list key :=
  map rsrc (filter (λ r, bool_decide ((rsrc r).1 = Disease)) (incoming HAS_PHENOTYPE g p1)).

(** The [p2] of [(d)-[:HAS_PHENOTYPE]->(p2:Phenotype)] with [p1 <> p2].
    The second relationship differs from the first since its target
    does. *)
Definition phenotypes_of (p1 d : key) (g : graph) : list key :=
  map rdst (filter (λ r, bool_decide (rty r = HAS_PHENOTYPE ∧ rsrc r = d
                                      ∧ (rdst r).1 = Phenotype ∧ rdst r ≠ p1))
              (rels g)).

(** One row per match of the two-relationship pattern at [p1]. *)
Definition partners (p1 : key) (g : graph) : list key :=
  flat_map (λ d, phenotypes_of p1 d g) (diseases_of p1 g).

Definition count_of (b : key) (l : list key) : nat :=
  length (filter (λ x, bool_decide (x = b)) l).

Definition COOCCURRENCE_THRESHOLD : nat := 5.
Definition PAGE_SIZE : nat := 100.

(** The rows that reach the [MERGE] for the anchor [p1]:
    [(p2, co_occurrences, total_occurrences)].  [WITH p1, p2, COUNT(d)]
    groups the matches by [p2]; [MATCH (p1)<-[r1:HAS_PHENOTYPE]-()] keeps a
    row only if [p1] has such a relationship. *)
Definition mined_rows (p1 : key) (g : graph) : list (key * nat * nat) :=
  let ps := partners p1 g in
  let total_occurrences := length (incoming HAS_PHENOTYPE g p1) in
  omap (λ p2, let co_occurrences := count_of p2 ps in
              if (COOCCURRENCE_THRESHOLD <=? co_occurrences)%nat
                 && (1 <=? total_occurrences)%nat
              then Some (p2, co_occurrences, total_occurrences) else None)
    (remove_dups ps).

Definition association_kvs (now : nat) (co total : nat) : props :=
  list_to_map
    [ ("co_occurrence_count", VInt (Z.of_nat co));
      ("correlation_strength", ratio (Z.of_nat co) (Pos.of_nat total));
      ("created_at", VTime now) ].

(** The rows of one page, [UNWIND $phenotype_ids as pid1
    MATCH (p1:Phenotype {id: pid1}) ...]. *)
Definition page_rows (page : list string) (g : graph) : list (key * (key * nat * nat)) :=
  flat_map (λ pid1,
              if has_node (Phenotype, pid1) g
              then map (pair (Phenotype, pid1)) (mined_rows (Phenotype, pid1) g)
              else [])
    page.

(** The statement of one page: the rows are read from the store the
    statement starts on, then merged.  (It reads [HAS_PHENOTYPE] and writes
    [ASSOCIATED_WITH], so no row sees another row's write.) *)
Definition mine_page (page : list string) (now : nat) (g : graph) : graph :=
  foldl (λ g '(p1, (p2, co, total)),
           merge_rel_bound ASSOCIATED_WITH p1 p2 (association_kvs now co total) g)
    g (page_rows page g).

(** [phenotypes[i:i + batch_size] for i in range(0, total, batch_size)] *)
Fixpoint pages {A} (fuel size : nat) (l : list A) : list (list A) :=
  match fuel, l with
  | O, _ | _, [] => []
  | S fuel', _ :: _ => take size l :: pages fuel' size (drop size l)
  end.

(** [MATCH (p:Phenotype) RETURN p.id as id ORDER BY p.id] *)
Definition sorted_phenotype_ids (g : graph) : list string :=
  merge_sort String.le (map snd (phenotypes g)).

(** Returns the session and [relationships_created]. *)
Definition create_symptom_relationships (now : nat → nat) (s : session) : session * nat :=
  let s0 := run now (λ _ g, g) s in
  let ids := sorted_phenotype_ids (store s0) in
  foldl (λ '(s, created) page,
           (run now (mine_page page) s, created + length (page_rows page (store s))))
    (s0, 0) (pages (length ids) PAGE_SIZE ids).


(** *** [create_symptom_clusters] *)

Definition as_int (v : option value) : option Z :=
  match v with Some (VInt z) => Some z | _ => None end.

(** [a * 1.0 / b] for a positive [b]. *)
Definition quotient (a b : Z) : option value :=
  if (0 <? b)%Z then Some (ratio a (Z.to_pos b)) else None.

(** [MATCH (p:Phenotype) WITH p.category as category, COLLECT(p) as symptoms
     ... SET symptom.cluster_id = category, symptom.cluster_size = cluster_size]:
    the groups are read from the store the statement starts on. *)
Definition assign_clusters (_ : nat) (g : graph) : graph :=
  foldl (λ g' p,
           let category := node_prop p "category" g in
           let cluster_size :=
             length (filter (λ q, bool_decide (node_prop q "category" g = category))
                       (phenotypes g)) in
           update_node p (λ ps, assign "cluster_size" (Some (VInt (Z.of_nat cluster_size)))
                                  (assign "cluster_id" category ps)) g')
    g (phenotypes g).

(** [MATCH (p1:Phenotype)-[r:ASSOCIATED_WITH]->(p2:Phenotype)
     WHERE p1.cluster_id <> p2.cluster_id SET r.cross_cluster = true, ...]:
    a null [cluster_id] makes the comparison null and drops the row. *)
Definition cross_cluster_strength (_ : nat) (g : graph) : graph :=
  {| nodes := nodes g;
     rels :=
       map (λ r,
              let c1 := node_prop (rsrc r) "cluster_id" g in
              let c2 := node_prop (rdst r) "cluster_id" g in
              if bool_decide (rty r = ASSOCIATED_WITH ∧ (rsrc r).1 = Phenotype
                              ∧ (rdst r).1 = Phenotype
                              ∧ is_Some c1 ∧ is_Some c2 ∧ c1 ≠ c2)
              then
                let strength :=
                  co ← as_int (rprops r !! "co_occurrence_count");
                  s1 ← as_int (node_prop (rsrc r) "cluster_size" g);
                  s2 ← as_int (node_prop (rdst r) "cluster_size" g);
                  quotient co (s1 + s2) in
                {| rty := rty r; rsrc := rsrc r; rdst := rdst r;
                   rprops := assign "cluster_connection_strength" strength
                               (assign "cross_cluster" (Some (VBool true)) (rprops r)) |}
              else r)
         (rels g) |}.

Definition create_symptom_clusters (now : nat → nat) (s : session) : session :=
  run now cross_cluster_strength (run now assign_clusters s).

(** *** [apply_graph_algorithms] *)

(** [CALL apoc.periodic.iterate('MATCH (p:Phenotype) RETURN p', inner,
     {parallel: false})]: [inner] runs for each [p] in turn. *)
Definition iterate (inner : key → graph → graph) (_ : nat) (g : graph) : graph :=
  foldl (λ g p, inner p g) g (phenotypes g).

(** ['MATCH (p)<-[r:HAS_PHENOTYPE]-() WITH p, COUNT(r) as degree
      SET p.degree_centrality = degree'] *)
Definition degree_centrality (p : key) (g : graph) : graph :=
  match incoming HAS_PHENOTYPE g p with
  | [] => g
  | rs => update_node p (assign "degree_centrality" (Some (VInt (Z.of_nat (length rs))))) g
  end.

(** The end nodes of the paths [(at)-[:ASSOCIATED_WITH*..n]-(other)]: a
    path never takes a relationship twice. *)
Fixpoint path_ends (n : nat) (g : graph) (used : list nat) (at_ : key) : list key :=
  match n with
  | O => []
  | S n' =>
      flat_map (λ '(i, other), other :: path_ends n' g (i :: used) other)
        (und_steps ASSOCIATED_WITH g used at_)
  end.

(** ['OPTIONAL MATCH path=(p)-[:ASSOCIATED_WITH*..3]-(other:Phenotype)
      WITH p, COUNT(DISTINCT other) as reach SET p.betweenness_score = reach'] *)
Definition betweenness_score (p : key) (g : graph) : graph :=
  let others := filter (λ k : key, bool_decide (k.1 = Phenotype)) (path_ends 3 g [] p) in
  update_node p (assign "betweenness_score"
                   (Some (VInt (Z.of_nat (length (remove_dups others)))))) g.

Definition HUB_THRESHOLD : nat := 10.

(** The number of rows of [(p)-[r:ASSOCIATED_WITH]-()]. *)
Definition connections (p : key) (g : graph) : nat :=
  length (und_steps ASSOCIATED_WITH g [] p).

(** ['MATCH (p)-[r:ASSOCIATED_WITH]-() WITH p, COUNT(r) as connections
      SET p.is_hub = CASE WHEN connections > 10 THEN true ELSE false END']:
    a [p] without such a relationship yields no row and nothing is set. *)
Definition identify_hub (p : key) (g : graph) : graph :=
  match connections p g with
  | O => g
  | S _ as n => update_node p (assign "is_hub" (Some (VBool (HUB_THRESHOLD <? n)%nat))) g
  end.

(** The rows of [(n1:Phenotype)-[:ASSOCIATED_WITH]-(n2:Phenotype)]: each
    relationship in both directions. *)
Definition und_rows (g : graph) : list (key * key) :=
  flat_map (λ r,
              if bool_decide (rty r = ASSOCIATED_WITH ∧ (rsrc r).1 = Phenotype
                              ∧ (rdst r).1 = Phenotype)
              then if bool_decide (rsrc r = rdst r) then [(rsrc r, rdst r)]
                   else [(rsrc r, rdst r); (rdst r, rsrc r)]
              else [])
    (rels g).

(** [COLLECT(neighbor)] of [(p)-[:ASSOCIATED_WITH]-(neighbor)]. *)
Definition neighbors (p : key) (g : graph) : list key :=
  map snd (und_steps ASSOCIATED_WITH g [] p).

(** [COUNT( * )] over the rows with
    [n1 IN neighbors AND n2 IN neighbors AND n1 <> n2]. *)
Definition triangles (p : key) (g : graph) : nat :=
  let ns := neighbors p g in
  length (filter (λ '(n1, n2), bool_decide (n1 ∈ ns ∧ n2 ∈ ns ∧ n1 ≠ n2)) (und_rows g)).

(** ['MATCH (p)-[:ASSOCIATED_WITH]-(neighbor)
      WITH p, COLLECT(neighbor) as neighbors, COUNT(neighbor) as degree
      MATCH (n1:Phenotype)-[:ASSOCIATED_WITH]-(n2:Phenotype)
      WHERE n1 IN neighbors AND n2 IN neighbors AND n1 <> n2
      WITH p, degree, COUNT( * ) as triangles
      SET p.cluster_coefficient = CASE WHEN degree <= 1 THEN 0
        ELSE (2.0 * triangles) / (degree * (degree - 1)) END']:
    each [MATCH] without a row ends the statement for this [p]. *)
Definition cluster_coefficient (p : key) (g : graph) : graph :=
  match neighbors p g, triangles p g with
  | [], _ | _, O => g
  | (_ :: _) as ns, S _ as t =>
      let degree := length ns in
      let c := if (degree <=? 1)%nat then VInt 0
               else ratio (2 * Z.of_nat t) (Pos.of_nat (degree * (degree - 1))) in
      update_node p (assign "cluster_coefficient" (Some c)) g
  end.

Definition apply_graph_algorithms (now : nat → nat) (s : session) : session :=
  run now (iterate cluster_coefficient)
    (run now (iterate identify_hub)
       (run now (iterate betweenness_score)
          (run now (iterate degree_centrality) s))).

End GraphEnhancer.

(** *** [add_phenotype_metrics]

    In [graph_enhancer.py] this [def] starts in the first column, after the
    class body: it is a function of the module, not a method of
    [GraphEnhancer]. *)
Module graph_enhancer.
Import Sink.

(** The number of paths [(at)-[ia:IS_A*]->()], that is of distinct
    relationship lists [ia]. *)
Fixpoint is_a_paths (fuel : nat) (g : graph) (used : list nat) (at_ : key) : nat :=
  match fuel with
  | O => 0
  | S fuel' =>
      sum_list (map (λ '(i, other), S (is_a_paths fuel' g (i :: used) other))
                  (out_steps IS_A g used at_))
  end.

(** The row the [MATCH ... WITH] clauses leave for [p]: the two [MATCH]es
    need a row each, the [OPTIONAL MATCH] does not.  The last component is
    [NOT EXISTS((p)<-[:IS_A]-())]. *)
Definition metrics_row (p : key) (g : graph) : option (nat * nat * nat * bool) :=
  match incoming HAS_PHENOTYPE g p, und_steps ASSOCIATED_WITH g [] p with
  | [], _ | _, [] => None
  | (_ :: _) as hp, (_ :: _) as aw =>
      Some (length hp, length aw, is_a_paths (length (rels g)) g [] p,
            bool_decide (incoming IS_A g p = []))
  end.

(** The [SET] clause. *)
Definition set_metrics (prevalence connectivity hierarchical_level : nat) (leaf_node : bool)
    (ps : props) : props :=
  let specificity :=
    if (0 <? prevalence)%nat then ratio 1 (Pos.of_nat prevalence) else VInt 0 in
  assign "leaf_node" (Some (VBool leaf_node))
    (assign "hierarchical_level" (Some (VInt (Z.of_nat hierarchical_level)))
       (assign "specificity" (Some specificity)
          (assign "connectivity" (Some (VInt (Z.of_nat connectivity)))
             (assign "prevalence" (Some (VInt (Z.of_nat prevalence))) ps)))).

(** The inner statement. *)
Definition phenotype_metrics (p : key) (g : graph) : graph :=
  match metrics_row p g with
  | None => g
  | Some (prevalence, connectivity, hierarchical_level, leaf_node) =>
      update_node p (set_metrics prevalence connectivity hierarchical_level leaf_node) g
  end.

Definition add_phenotype_metrics (now : nat → nat) (s : session) : session :=
  run now (GraphEnhancer.iterate phenotype_metrics) s.

(** The attributes of an instance of [GraphEnhancer]: the methods of the
    class body.  Each returns the session and the exception it raised. *)
Definition GraphEnhancer_methods
    : list (string * ((nat → nat) → session → session * option exn)) :=
  [ ("create_symptom_relationships",
      λ now s, ((GraphEnhancer.create_symptom_relationships now s).1, None));
    ("create_symptom_clusters", λ now s, (GraphEnhancer.create_symptom_clusters now s, None));
    ("apply_graph_algorithms", λ now s, (GraphEnhancer.apply_graph_algorithms now s, None)) ].

(** [graph_enhancer.<name>()] on an instance: [AttributeError] when the
    class has no such attribute. *)
Definition call_method (name : string) (now : nat → nat) (s : session)
    : session * option exn :=
  match list_find (λ m, m.1 = name) GraphEnhancer_methods with
  | Some (_, (_, body)) => body now s
  | None => (s, Some AttributeError)
  end.

End graph_enhancer.

(** ** [knowledge_graph_builder.py]: [main] *)
Module KnowledgeGraphBuilder.
Import Sink.

(** [MATCH (n) DETACH DELETE n] *)
Definition clear_database (now : nat → nat) (s : session) : session :=
  run now (λ _ _, Sink.empty) s.

(** [create_constraints] and [create_indexes]: seven statements that
    change no node and no relationship. *)
Definition create_schema (now : nat → nat) (s : session) : session :=
  Nat.iter 7 (run now (λ _ g, g)) s.

(** The two ingestion calls of [main], up to the first exception.
    [batch_size] is [Config.BATCH_SIZE]; the two files are given as their
    lines. *)
Definition ingest (now : nat → nat) (batch_size : nat) (hp_obo phenotype_hpoa : list string)
    (s : session) : session * option exn :=
  let '(s, _, e) :=
    PhenotypeProcessor.process_obo_file (PhenotypeProcessor._process_batch now)
      batch_size s hp_obo in
  match e with
  | Some _ => (s, e)
  | None =>
      let '(s, _, e) :=
        DiseaseProcessor.process_phenotype_annotations
          (DiseaseProcessor._process_annotation_batch now) batch_size s phenotype_hpoa in
      (s, e)
  end.

(** The body of [main]'s [try:], up to the first exception. *)
Definition main (now : nat → nat) (batch_size : nat) (hp_obo phenotype_hpoa : list string)
    (s : session) : session * option exn :=
  let s := create_schema now (clear_database now s) in
  let '(s, e) := ingest now batch_size hp_obo phenotype_hpoa s in
  match e with
  | Some _ => (s, e)
  | None =>
  let '(s, e) := graph_enhancer.call_method "create_symptom_relationships" now s in
  match e with
  | Some _ => (s, e)
  | None =>
  let '(s, e) := graph_enhancer.call_method "create_symptom_clusters" now s in
  match e with
  | Some _ => (s, e)
  | None =>
  let '(s, e) := graph_enhancer.call_method "apply_graph_algorithms" now s in
  match e with
  | Some _ => (s, e)
  | None => graph_enhancer.call_method "add_phenotype_metrics" now s
  end end end end.

End KnowledgeGraphBuilder.

(** ** The upserts of a run, as data

    Every statement of the ingestion is a sequence of node and relationship
    merges; listing them separates what is written from when. *)
Module Ops.
Import Sink.

Inductive op :=
  | MergeNode (k : key) (kvs : props)
  | MergeRel (t : rtype) (a b : key) (kvs : props).

Definition apply_op (o : op) (g : graph) : graph :=
  match o with
  | MergeNode k kvs => merge_node k kvs g
  | MergeRel t a b kvs => merge_rel t a b kvs g
  end.

Definition run_ops (O : list op) (g : graph) : graph := foldl (λ g o, apply_op o g) g O.

Definition op_kvs (o : op) : props :=
  match o with MergeNode _ kvs => kvs | MergeRel _ _ _ kvs => kvs end.

(** The property names each kind of merge of the ingestion assigns. *)
Definition schema (o : op) : gset string :=
  match o with
  | MergeNode (Phenotype, _) _ =>
      list_to_set ["name"; "definition"; "synonyms"; "category"; "comment"; "xrefs";
                   "created_at"; "modified_at"]
  | MergeNode (Disease, _) _ => list_to_set ["name"; "modified_at"]
  | MergeRel IS_A _ _ _ => list_to_set ["confidence_score"; "relationship_type"; "created_at"]
  | MergeRel HAS_PHENOTYPE _ _ _ =>
      list_to_set ["evidence"; "frequency"; "onset"; "created_at"]
  | MergeRel ASSOCIATED_WITH _ _ _ => ∅
  end.

Definition well_schemed (o : op) : Prop := dom (op_kvs o) = schema o.

(** The last assignments to the node [k] / the relationship [e] in [O]. *)
Definition last_node_kvs (k : key) (O : list op) : option props :=
  foldl (λ acc o, match o with
                  | MergeNode k' kvs => if decide (k' = k) then Some kvs else acc
                  | MergeRel _ _ _ _ => acc
                  end) None O.
Definition last_rel_kvs (e : rtype * key * key) (O : list op) : option props :=
  foldl (λ acc o, match o with
                  | MergeRel t a b kvs => if decide ((t, a, b) = e) then Some kvs else acc
                  | MergeNode _ _ => acc
                  end) None O.

(** Equal up to the values of the two timestamps. *)
Definition is_timestamp (a : string) : Prop := a = "created_at" ∨ a = "modified_at".
Definition props_sim (p q : props) : Prop :=
  dom p = dom q ∧ ∀ a, ¬ is_timestamp a → p !! a = q !! a.
Definition op_sim (o o' : op) : Prop :=
  match o, o' with
  | MergeNode k kvs, MergeNode k' kvs' => k = k' ∧ props_sim kvs kvs'
  | MergeRel t a b kvs, MergeRel t' a' b' kvs' =>
      t = t' ∧ a = a' ∧ b = b' ∧ props_sim kvs kvs'
  | _, _ => False
  end.

(** The merges of the statements of [_process_batch]. *)
Definition node_ops (now : nat) (it : PhenotypeProcessor.item) : list op :=
  match it with
  | PhenotypeProcessor.Node id _ _ _ _ _ _ =>
      [MergeNode (Phenotype, id) (PhenotypeProcessor.node_kvs now it)]
  | PhenotypeProcessor.Relationship _ _ => []
  end.
Definition rel_ops (now : nat) (it : PhenotypeProcessor.item) : list op :=
  match it with
  | PhenotypeProcessor.Relationship child_id parent_id =>
      [MergeRel IS_A (Phenotype, child_id) (Phenotype, parent_id)
         (PhenotypeProcessor.rel_kvs now)]
  | PhenotypeProcessor.Node _ _ _ _ _ _ _ => []
  end.

(** The number of statements a batch takes, and its merges when its first
    statement is the [t]-th of the run. *)
Definition batch_ticks (batch : list PhenotypeProcessor.item) : nat :=
  (match filter PhenotypeProcessor.is_node_item batch with [] => 0 | _ :: _ => 1 end)
  + (match filter PhenotypeProcessor.is_relationship batch with [] => 0 | _ :: _ => 1 end).
Definition batch_ops (now : nat → nat) (t : nat) (batch : list PhenotypeProcessor.item)
    : list op :=
  let nodes := filter PhenotypeProcessor.is_node_item batch in
  flat_map (node_ops (now t)) nodes
  ++ flat_map (rel_ops (now (match nodes with [] => t | _ :: _ => S t end)))
       (filter PhenotypeProcessor.is_relationship batch).
Fixpoint batches_ops (now : nat → nat) (t : nat) (B : list (list PhenotypeProcessor.item))
    : list op :=
  match B with
  | [] => []
  | b :: B' => batch_ops now t b ++ batches_ops now (t + batch_ticks b) B'
  end.

(** The merges of the statement of [_process_annotation_batch]. *)
Definition annotation_ops (now : nat) (a : DiseaseProcessor.annotation) : list op :=
  [ MergeNode (Disease, DiseaseProcessor.disease_id a) (DiseaseProcessor.disease_kvs now a);
    MergeRel HAS_PHENOTYPE (Disease, DiseaseProcessor.disease_id a)
      (Phenotype, DiseaseProcessor.phenotype_id a) (DiseaseProcessor.has_phenotype_kvs now a) ].
Fixpoint annotation_batches_ops (now : nat → nat) (t : nat)
    (B : list (list DiseaseProcessor.annotation)) : list op :=
  match B with
  | [] => []
  | b :: B' => flat_map (annotation_ops (now t)) b ++ annotation_batches_ops now (S t) B'
  end.

(** The batches the two loops hand over for given files: a function of the
    input alone. *)
Definition term_batches (batch_size : nat) (hp_obo : list string)
    : list (list PhenotypeProcessor.item) * option exn :=
  let '(B, _, e) :=
    PhenotypeProcessor.process_obo_file (λ sent batch, sent ++ [batch]) batch_size [] hp_obo in
  (B, e).
Definition annotation_batches (batch_size : nat) (phenotype_hpoa : list string)
    : list (list DiseaseProcessor.annotation) * option exn :=
  let '(B, _, e) :=
    DiseaseProcessor.process_phenotype_annotations (λ sent batch, sent ++ [batch])
      batch_size [] phenotype_hpoa in
  (B, e).

(** All the merges of one ingestion whose first statement is the [t]-th. *)
Definition ingest_ops (now : nat → nat) (t : nat) (batch_size : nat)
    (hp_obo phenotype_hpoa : list string) : list op :=
  let '(B, e) := term_batches batch_size hp_obo in
  batches_ops now t B
  ++ match e with
     | Some _ => []
     | None =>
         annotation_batches_ops now (t + sum_list (map batch_ticks B))
           (annotation_batches batch_size phenotype_hpoa).1
     end.

(** The exception an ingestion ends with: a function of the input alone. *)
Definition ingest_exn (batch_size : nat) (hp_obo phenotype_hpoa : list string) : option exn :=
  match (term_batches batch_size hp_obo).2 with
  | Some e => Some e
  | None => (annotation_batches batch_size phenotype_hpoa).2
  end.

End Ops.

(** ** The notions the claims are stated with *)
Module Spec.
Import Sink.

(** The diseases that exhibit the phenotype [p]: the [Disease] sources of
    the [HAS_PHENOTYPE] relationships into [p], as a set. *)
Definition diseases_with (g : graph) (p : key) : gset key :=
  list_to_set (GraphEnhancer.diseases_of p g).

(** The number of diseases that exhibit both [p1] and [p2]. *)
Definition shared_diseases (g : graph) (p1 p2 : key) : nat :=
  size (diseases_with g p1 ∩ diseases_with g p2).

(** The number of [HAS_PHENOTYPE] relationships at [p]. *)
Definition total_occurrences (g : graph) (p : key) : nat :=
  length (incoming HAS_PHENOTYPE g p).

(** No two nodes with one label and [id] (what [constraints.py] asks of the
    sink), no two relationships of one type between the same two nodes. *)
Definition unique_nodes (g : graph) : Prop := NoDup (map nkey (nodes g)).
Definition unique_rels (g : graph) : Prop := NoDup (map rkey (rels g)).

(** The same nodes and relationships, in the same order, with the same
    properties but for the values of the timestamps. *)
Definition same_up_to_timestamps (g h : graph) : Prop :=
  map nkey (nodes g) = map nkey (nodes h)
  ∧ map rkey (rels g) = map rkey (rels h)
  ∧ (∀ k, option_Forall2 Ops.props_sim (node_props k g) (node_props k h))
  ∧ (∀ t a b, option_Forall2 Ops.props_sim (rel_props t a b g) (rel_props t a b h)).

(** Every relationship of the store joins two nodes of the store. *)
Definition joined (g : graph) : Prop :=
  ∀ r, r ∈ rels g → has_node (rsrc r) g = true ∧ has_node (rdst r) g = true.

End Spec.

(** ** Identifier shape and example inputs *)
Module Inputs.
Import Sink.

Fixpoint all_digits (s : string) : bool :=
  match s with
  | EmptyString => true
  | String c s' => bool_decide (is_Some (PyStr.digit c)) && all_digits s'
  end.

(** An identifier [PREFIX:digits]: it has the separator and the text after
    the first one is a non-empty run of digits.  A malformed identifier
    is one that is not of this shape (missing separator, non-numeric
    suffix). *)
Definition well_formed (hpo_id : string) : bool :=
  PyStr.contains PyStr.colon hpo_id
  && (let suffix := (PyStr.split1 PyStr.colon hpo_id).2 in
      negb (bool_decide (suffix = "")) && all_digits suffix).

Definition malformed (hpo_id : string) : Prop := well_formed hpo_id = false.

(** An ontology file with a single term. *)
Definition one_term : list string :=
  [ "format-version: 1.2"; ""; "[Term]"; "id: HP:0000001"; "name: All" ].

(** The scenario of the spec: [HP:0000001] without parent, [HP:0000002]
    with [is_a: HP:0000001]. *)
Definition two_terms : list string :=
  [ "[Term]"; "id: HP:0000001"; "name: All"; "";
    "[Term]"; "id: HP:0000002"; "name: Abnormality of body height";
    "is_a: HP:0000001 ! All" ].

(** The same two terms followed by a third block, so that the loop meets
    a [[Term]] line after the second term. *)
Definition two_terms_closed : list string :=
  two_terms ++ [ ""; "[Term]"; "id: HP:0000003"; "name: Multicystic kidney dysplasia" ].

(** A term with two parents that the file lists after it. *)
Definition forward_refs : list string :=
  [ "[Term]"; "id: HP:0000003"; "name: Child";
    "is_a: HP:0000001 ! First parent"; "is_a: HP:0000002 ! Second parent";
    "[Term]"; "id: HP:0000001"; "name: First parent";
    "[Term]"; "id: HP:0000002"; "name: Second parent";
    "[Term]" ].

(** A row of the annotation table. *)
Definition row (fields : list string) : string :=
  String.concat (String PyStr.tab EmptyString) fields.

Definition one_annotation : list string :=
  [ row ["database_id"; "disease_name"; "qualifier"; "hpo_id"];
    row ["OMIM:100"; "First disease"; ""; "HP:0000001"; "ref"; "TAS"] ].

Definition fresh : session := {| store := Sink.empty; tick := 0 |}.

(** A clock that reads the statement number. *)
Definition clock : nat → nat := λ k, k.

(** The batches the term loop hands over, recorded instead of sent. *)
Definition record_batch {A} (sent : list (list A)) (batch : list A) : list (list A) :=
  sent ++ [batch].

Definition phenotype (id : string) : node :=
  {| nlabel := Phenotype; nid := id; nprops := ∅ |}.
Definition disease (id : string) : node :=
  {| nlabel := Disease; nid := id; nprops := ∅ |}.
Definition associated (a b : string) : rel :=
  {| rty := ASSOCIATED_WITH; rsrc := (Phenotype, a); rdst := (Phenotype, b); rprops := ∅ |}.
Definition has_phenotype (d p : string) : rel :=
  {| rty := HAS_PHENOTYPE; rsrc := (Disease, d); rdst := (Phenotype, p); rprops := ∅ |}.

(** [P] with the two neighbours [A] and [B], themselves connected; one
    relationship per pair. *)
Definition triangle : graph :=
  {| nodes := map phenotype ["P"; "A"; "B"];
     rels := [associated "P" "A"; associated "P" "B"; associated "A" "B"] |}.

(** The same triangle as the miner writes it: both directions of each
    pair. *)
Definition triangle_sym : graph :=
  {| nodes := map phenotype ["P"; "A"; "B"];
     rels := [associated "P" "A"; associated "A" "P"; associated "P" "B";
              associated "B" "P"; associated "A" "B"; associated "B" "A"] |}.

(** [P] with the single neighbour [A]; [Q] with none. *)
Definition pendant : graph :=
  {| nodes := map phenotype ["P"; "A"; "Q"]; rels := [associated "P" "A"] |}.

(** Diseases [D1..D6] with phenotypes [A] and [B], [D7] with [A] and [C]. *)
Definition seven_diseases : graph :=
  {| nodes := map phenotype ["A"; "B"; "C"]
              ++ map disease ["D1"; "D2"; "D3"; "D4"; "D5"; "D6"; "D7"];
     rels := flat_map (λ d, [has_phenotype d "A"; has_phenotype d "B"])
               ["D1"; "D2"; "D3"; "D4"; "D5"; "D6"]
             ++ [has_phenotype "D7" "A"; has_phenotype "D7" "C"] |}.

(** [A] with one disease and one associated term; [B] with no disease. *)
Definition annotated_pair : graph :=
  {| nodes := map phenotype ["A"; "B"] ++ [disease "D1"];
     rels := [has_phenotype "D1" "A"; associated "A" "B"] |}.

(** A centre [H] with [n] neighbours [N1..Nn], one relationship each. *)
Definition star (n : nat) : graph :=
  let names := map (λ i, "N" ++ String (ascii_of_nat (65 + i)) "")%string (seq 0 n) in
  {| nodes := map phenotype ("H" :: names);
     rels := map (associated "H") names |}.

End Inputs.

(** * Vocabulary of the proofs

    Predicates and flattened forms of the loops that the statements and
    their lemmas are phrased with. *)
Module Aux.
Import Sink.
Import Ops.

(** A character a decimal [int] literal may hold: a digit, an underscore,
    a sign, or whitespace that [int] skips. *)
Definition literal_char (c : ascii) : bool :=
  bool_decide (is_Some (PyStr.digit c)) || bool_decide (c = "_"%char)
  || bool_decide (c = "+"%char) || bool_decide (c = "-"%char) || PyStr.int_isspace c.

(** A pass that writes one node property [a] and nothing else. *)
Definition writes_only (a : string) (f : graph → graph) : Prop :=
  ∀ g, rels (f g) = rels g
       ∧ phenotypes (f g) = phenotypes g
       ∧ map nkey (nodes (f g)) = map nkey (nodes g)
       ∧ ∀ q b, b ≠ a → node_prop q b (f g) = node_prop q b g.

(** The [HAS_PHENOTYPE] relationships: all the miner reads. *)
Definition hp_rels (g : graph) : list rel :=
  filter (λ r, bool_decide (rty r = HAS_PHENOTYPE)) (rels g).

(** The record a row of the miner is merged with. *)
Definition merged_row (now : nat) (row : key * (key * nat * nat)) : key * key * props :=
  (row.1, row.2.1.1, GraphEnhancer.association_kvs now row.2.1.2 row.2.2).

(** All the records the miner merges, page after page; the page at position
    [i] is merged by statement [t + i]. *)
Fixpoint all_rows (now : nat → nat) (t : nat) (P : list (list string)) (g0 : graph)
    : list (key * key * props) :=
  match P with
  | [] => []
  | page :: P' =>
      map (merged_row (now t)) (GraphEnhancer.page_rows page g0) ++ all_rows now (S t) P' g0
  end.

(** The term loop run against a session and run against a recorder of the
    batches: the same loop state, the session being the recorded batches
    processed in order. *)
Definition loop_rel {S} (pb : S → list PhenotypeProcessor.item → S) (s0 : S)
    (st : @PhenotypeProcessor.loop_state S)
    (st' : @PhenotypeProcessor.loop_state (list (list PhenotypeProcessor.item))) : Prop :=
  PhenotypeProcessor.current_term st = PhenotypeProcessor.current_term st'
  ∧ PhenotypeProcessor.batch st = PhenotypeProcessor.batch st'
  ∧ PhenotypeProcessor.terms_processed st = PhenotypeProcessor.terms_processed st'
  ∧ PhenotypeProcessor.relationships_created st
    = PhenotypeProcessor.relationships_created st'
  ∧ PhenotypeProcessor.session st = foldl pb s0 (PhenotypeProcessor.session st').

(** Two stores with the same nodes and relationships in the same order,
    their properties equal up to the timestamps. *)
Definition node_sim (n m : node) : Prop :=
  nkey n = nkey m ∧ props_sim (nprops n) (nprops m).

Definition rel_sim (r q : rel) : Prop :=
  rkey r = rkey q ∧ props_sim (rprops r) (rprops q).

Definition graph_sim (g h : graph) : Prop :=
  Forall2 node_sim (nodes g) (nodes h) ∧ Forall2 rel_sim (rels g) (rels h).

(** The search of [nx.bfs]: [y] is one step from [x]. *)
Definition bfs_step (next : string → list string) (x y : string) : Prop := y ∈ next x.

(** Every node discovered and no longer queued has all its steps
    discovered. *)
Definition bfs_closed (next : string → list string) (visited queue : list string) : Prop :=
  ∀ x, x ∈ visited → x ∉ queue → ∀ y, y ∈ next x → y ∈ visited.

(** How many of the nodes of [univ] are not discovered yet. *)
Definition bfs_unseen (univ visited : list string) : nat :=
  size ((list_to_set univ : gset string) ∖ list_to_set visited).

(** The edges of a [DiGraph] as a relation. *)
Definition edge (G : nx.DiGraph) (u v : string) : Prop := (u, v) ∈ nx.gedges G.

(** The identifier a record of a batch upserts a node for. *)
Definition node_id (it : PhenotypeProcessor.item) : option string :=
  match it with
  | PhenotypeProcessor.Node id _ _ _ _ _ _ => Some id
  | PhenotypeProcessor.Relationship _ _ => None
  end.

(** What the term loop keeps true of its state when the batches are
    recorded: the counters count the records queued so far, and (for a
    batch size of at least 1) every batch sent is full and the pending one
    is not. *)
Definition batches_inv (batch_size : nat)
    (st : @PhenotypeProcessor.loop_state (list (list PhenotypeProcessor.item))) : Prop :=
  let queued := concat (PhenotypeProcessor.session st) ++ PhenotypeProcessor.batch st in
  PhenotypeProcessor.terms_processed st
  = length (filter PhenotypeProcessor.is_node_item queued)
  ∧ PhenotypeProcessor.relationships_created st
    = length (filter PhenotypeProcessor.is_relationship queued)
  ∧ ((1 ≤ batch_size)%nat →
     Forall (λ b, (batch_size ≤ length b)%nat) (PhenotypeProcessor.session st)
     ∧ (length (PhenotypeProcessor.batch st) < batch_size)%nat).

(** Two states of the term loop, run with different batch sizes, that
    queued the same records. *)
Definition same_records
    (st st' : @PhenotypeProcessor.loop_state (list (list PhenotypeProcessor.item))) : Prop :=
  PhenotypeProcessor.current_term st = PhenotypeProcessor.current_term st'
  ∧ PhenotypeProcessor.terms_processed st = PhenotypeProcessor.terms_processed st'
  ∧ PhenotypeProcessor.relationships_created st
    = PhenotypeProcessor.relationships_created st'
  ∧ concat (PhenotypeProcessor.session st) ++ PhenotypeProcessor.batch st
    = concat (PhenotypeProcessor.session st') ++ PhenotypeProcessor.batch st'.

(** How often [x] stands in the list [l]. *)
Definition occurrences (x : string) (l : list string) : nat :=
  length (filter (λ y, bool_decide (y = x)) l).

(** How often the symptom [b] is listed with a disease of the symptom
    [a], over the diseases listed for [a]. *)
Definition co_listed (idx : HPOAnnotations.index) (a b : string) : nat :=
  sum_list (map (λ d, occurrences b (HPOAnnotations.get_symptoms_for_disease idx d))
              (HPOAnnotations.get_diseases_for_symptom idx a)).

(** The two dicts list the same pairs, as often. *)
Definition index_consistent (idx : HPOAnnotations.index) : Prop :=
  ∀ d h, occurrences h (HPOAnnotations.get_symptoms_for_disease idx d)
         = occurrences d (HPOAnnotations.get_diseases_for_symptom idx h).

(** [n] increments of an entry of a [defaultdict(int)]. *)
Definition bump (n : nat) (o : option nat) : option nat :=
  match n with O => o | S _ => Some (default 0 o + n) end.

(** The number of phenotype terms of the store with the category of [p]
    (terms without category count as one category). *)
Definition category_size (g : graph) (p : key) : nat :=
  length (filter (λ q, bool_decide (node_prop q "category" g = node_prop p "category" g))
            (phenotypes g)).

(** The dict of terms: no key twice, every term under its own [id]. *)
Definition terms_inv (terms : list (string * HPOParser.term)) : Prop :=
  NoDup (map fst terms) ∧ Forall (λ x, HPOParser.t_id x.2 = Some x.1) terms.

End Aux.

(** * Theorems *)

Import Sink.
Import Aux.

(** ** Helper lemmas: strings and the classifier *)

Lemma ascii_compare_refl c : Ascii.compare c c = Eq.
Proof. unfold Ascii.compare. apply N.compare_refl. Qed.

Lemma string_compare_cons c s t :
  String.compare (String c s) (String c t) = String.compare s t.
Proof. simpl. by rewrite ascii_compare_refl. Qed.

Lemma string_leb_refl s : String.leb s s = true.
Proof. by destruct (String.leb_total s s). Qed.

Lemma in_range_cons c s e x :
  PhenotypeProcessor.in_range (String c s) (String c e) (String c x)
  = PhenotypeProcessor.in_range s e x.
Proof.
  unfold PhenotypeProcessor.in_range, String.leb. by rewrite !string_compare_cons.
Qed.

Lemma in_range_head c d s e x :
  c ≠ d → PhenotypeProcessor.in_range (String c s) (String c e) (String d x) = false.
Proof.
  intros Hne. unfold PhenotypeProcessor.in_range, String.leb. simpl.
  rewrite (Ascii.compare_antisym d c).
  destruct (Ascii.compare c d) eqn:Hc; simpl; try done.
  by apply Ascii.compare_eq_iff in Hc.
Qed.

(** A string that does not start with the prefix shared by both bounds lies
    outside the range. *)
Lemma in_range_prefix p : ∀ s e x,
  String.prefix p s = true → String.prefix p e = true → String.prefix p x = false →
  PhenotypeProcessor.in_range s e x = false.
Proof.
  induction p as [|c p IH]; intros s e x Hs He Hx.
  - by destruct x.
  - destruct s as [|cs s]; [done|]. destruct e as [|ce e]; [done|].
    simpl in Hs, He.
    destruct (ascii_dec c cs) as [<-|]; [|done].
    destruct (ascii_dec c ce) as [<-|]; [|done].
    destruct x as [|d x]; [done|]. simpl in Hx.
    destruct (ascii_dec c d) as [<-|Hne].
    + rewrite in_range_cons. by apply IH.
    + by apply in_range_head.
Qed.

Lemma split_nonempty c s : PyStr.split c s ≠ [].
Proof.
  destruct s as [|d s]; simpl; [done|]. destruct (decide (c = d)); [done|].
  by destruct (PyStr.split c s).
Qed.

(** [s.split(c)] has a second element exactly when [c in s]. *)
Lemma split_second c s : is_Some (PyStr.split c s !! 1) ↔ PyStr.contains c s = true.
Proof.
  induction s as [|d s IH]; simpl.
  - split; [by intros [? ?]|done].
  - destruct (decide (c = d)) as [->|Hne].
    + split; [done|]. intros _. pose proof (split_nonempty d s) as Hs.
      destruct (PyStr.split d s); [done|]. by eexists.
    + rewrite <- IH. pose proof (split_nonempty c s) as Hs.
      by destruct (PyStr.split c s).
Qed.

(** ** Helper lemmas: [int] literals *)

Lemma contains_rev_app c : ∀ s t,
  PyStr.contains c (String.rev_app s t) = PyStr.contains c s || PyStr.contains c t.
Proof.
  induction s as [|d s IH]; intros t; [done|]. simpl. rewrite IH. simpl.
  destruct (decide (c = d)); [by rewrite orb_true_r|done].
Qed.

Lemma contains_rev c s : PyStr.contains c (String.rev s) = PyStr.contains c s.
Proof. unfold String.rev. by rewrite contains_rev_app, orb_false_r. Qed.

Lemma contains_int_lstrip c s :
  PyStr.int_isspace c = false →
  PyStr.contains c (PyStr.int_lstrip s) = PyStr.contains c s.
Proof.
  intros Hc. induction s as [|d s IH]; [done|]. simpl.
  destruct (PyStr.int_isspace d) eqn:Hd; [|done].
  rewrite IH. destruct (decide (c = d)) as [->|]; [congruence|done].
Qed.

Lemma contains_int_strip c s :
  PyStr.int_isspace c = false →
  PyStr.contains c (PyStr.int_strip s) = PyStr.contains c s.
Proof.
  intros Hc. unfold PyStr.int_strip.
  by rewrite contains_rev, contains_int_lstrip, contains_rev, contains_int_lstrip.
Qed.

Lemma contains_int_sign c body :
  c ≠ "+"%char → c ≠ "-"%char →
  PyStr.contains c (PyStr.int_sign body).2 = PyStr.contains c body.
Proof.
  intros Hp Hm. destruct body as [|d r]; [done|].
  destruct (decide (d = "-"%char)) as [->|Hd1].
  { simpl. by rewrite decide_False. }
  destruct (decide (d = "+"%char)) as [->|Hd2].
  { simpl. by rewrite decide_False. }
  replace (PyStr.int_sign (String d r)) with (false, String d r); [done|].
  destruct d as [[] [] [] [] [] [] [] []]; done.
Qed.

Lemma int_digits_bad c : ∀ s acc b,
  PyStr.contains c s = true → PyStr.digit c = None → c ≠ "_"%char →
  PyStr.int_digits acc b s = None.
Proof.
  induction s as [|d s IH]; intros acc b Hc Hd Hu; [done|]. simpl in *.
  destruct (decide (c = d)) as [<-|Hne].
  - rewrite Hd. by rewrite decide_False.
  - destruct (PyStr.digit d); [by apply IH|].
    destruct (decide (d = "_"%char)); [|done]. destruct b; [by apply IH|done].
Qed.

(** A text with a character that no literal holds is no [int] literal. *)
Lemma int_bad_char x c :
  PyStr.contains c x = true → literal_char c = false → PyStr.int x = Err ValueError.
Proof.
  unfold literal_char. rewrite !orb_false_iff, !bool_decide_eq_false.
  intros Hc ((((Hd & Hu) & Hp) & Hm) & Hs). unfold PyStr.int.
  pose proof (contains_int_sign c (PyStr.int_strip x) Hp Hm) as Hsign.
  rewrite contains_int_strip, Hc in Hsign by done.
  destruct (PyStr.int_sign (PyStr.int_strip x)) as [neg ds]. simpl in Hsign.
  rewrite (int_digits_bad c ds 0 false Hsign); [done| |done].
  destruct (PyStr.digit c); [|done]. destruct Hd. by eexists.
Qed.

(** What [int] accepts and what it refuses. *)
Lemma int_literals :
  PyStr.int " 42 " = Ok 42%Z ∧ PyStr.int "-7" = Ok (-7)%Z
  ∧ PyStr.int "+1_000" = Ok 1000%Z ∧ PyStr.int "0002500" = Ok 2500%Z
  ∧ PyStr.int (String "031" "2000") = Err ValueError
  ∧ PyStr.int "12x4" = Err ValueError ∧ PyStr.int "1__0" = Err ValueError
  ∧ PyStr.int "- 7" = Err ValueError ∧ PyStr.int "" = Err ValueError.
Proof. repeat split. Qed.

Lemma first_match_none rules x :
  Forall (λ r, PhenotypeProcessor.in_range r.1.1 r.1.2 x = false) rules →
  PhenotypeProcessor.first_match rules x = "Other".
Proof.
  induction 1 as [|[[s e] c] rules Hr _ IH]; [done|]. simpl in *. by rewrite Hr.
Qed.

(** The loop returns the category of the first rule, in list order, whose
    range contains the identifier. *)
Lemma first_match_unshadowed rules : ∀ i s e c x,
  rules !! i = Some (s, e, c) →
  PhenotypeProcessor.in_range s e x = true →
  (∀ j r, j < i → rules !! j = Some r → PhenotypeProcessor.in_range r.1.1 r.1.2 x = false) →
  PhenotypeProcessor.first_match rules x = c.
Proof.
  induction rules as [|[[s0 e0] c0] rules IH]; intros i s e c x Hi Hin Hbefore; [done|].
  destruct i as [|i]; simpl in *.
  - injection Hi as -> -> ->. by rewrite Hin.
  - pose proof (Hbefore 0 (s0, e0, c0) ltac:(lia) eq_refl) as H0. simpl in H0.
    rewrite H0. apply (IH i s e c x Hi Hin). intros j r Hj Hr. apply (Hbefore (S j) r); [lia|done].
Qed.

(** A rule whose range contains the identifier is preceded by a first one
    that does, and the loop returns the category of that one. *)
Lemma first_match_first rules : ∀ i s e c x,
  rules !! i = Some (s, e, c) →
  PhenotypeProcessor.in_range s e x = true →
  ∃ j s' e' c',
    (j ≤ i)%nat ∧ rules !! j = Some (s', e', c')
    ∧ PhenotypeProcessor.in_range s' e' x = true
    ∧ (∀ k r, (k < j)%nat → rules !! k = Some r →
              PhenotypeProcessor.in_range r.1.1 r.1.2 x = false)
    ∧ PhenotypeProcessor.first_match rules x = c'.
Proof.
  induction rules as [|[[s0 e0] c0] rules IH]; intros i s e c x Hi Hin; [done|].
  destruct (PhenotypeProcessor.in_range s0 e0 x) eqn:H0.
  - exists 0, s0, e0, c0. split_and!; [lia|done|done| |by simpl; rewrite H0].
    intros k r Hk. lia.
  - destruct i as [|i]; [injection Hi as -> -> ->; congruence|].
    destruct (IH i s e c x Hi Hin) as (j & s' & e' & c' & Hj & Hl & Hr & Hb & Hf).
    exists (S j), s', e', c'. split_and!; [lia|done|done| |by simpl; rewrite H0].
    intros [|k] r Hk Hr'; [by injection Hr' as <-|].
    apply (Hb k r); [lia|done].
Qed.

(** What the loop returns, for any table: the category of the first rule
    whose range contains the identifier, the fallback when there is none. *)
Lemma first_match_spec rules x :
  (∃ i s e c,
     rules !! i = Some (s, e, c)
     ∧ PhenotypeProcessor.in_range s e x = true
     ∧ (∀ k r, (k < i)%nat → rules !! k = Some r →
               PhenotypeProcessor.in_range r.1.1 r.1.2 x = false)
     ∧ PhenotypeProcessor.first_match rules x = c)
  ∨ ((∀ r, r ∈ rules → PhenotypeProcessor.in_range r.1.1 r.1.2 x = false)
     ∧ PhenotypeProcessor.first_match rules x = "Other").
Proof.
  induction rules as [|[[s0 e0] c0] rules IH].
  - right. split; [|done]. intros r Hr. by apply elem_of_nil in Hr.
  - destruct (PhenotypeProcessor.in_range s0 e0 x) eqn:H0.
    + left. exists 0, s0, e0, c0. split_and!; [done|done| |by simpl; rewrite H0].
      intros k r Hk. lia.
    + destruct IH as [(i & s & e & c & Hi & Hin & Hb & Hf)|[Hnone Hf]].
      * left. exists (S i), s, e, c. split_and!; [done|done| |by simpl; rewrite H0].
        intros [|k] r Hk Hr; [by injection Hr as <-|]. apply (Hb k r); [lia|done].
      * right. split; [|by simpl; rewrite H0].
        intros r [-> |Hr]%elem_of_cons; [done|by apply Hnone].
Qed.

Lemma categories_distinct : NoDup (PhenotypeProcessor.categories.*2).
Proof. compute_done. Qed.

Lemma categories_same_rule i j s e s' e' c :
  PhenotypeProcessor.categories !! i = Some (s, e, c) →
  PhenotypeProcessor.categories !! j = Some (s', e', c) → i = j.
Proof.
  intros Hi Hj. apply (NoDup_lookup _ i j c categories_distinct).
  - by rewrite list_lookup_fmap, Hi.
  - by rewrite list_lookup_fmap, Hj.
Qed.

Lemma first_match_sound rules s :
  PhenotypeProcessor.first_match rules s = "Other"
  ∨ ∃ start end_, (start, end_, PhenotypeProcessor.first_match rules s) ∈ rules
                  ∧ String.leb start s = true ∧ String.leb s end_ = true.
Proof.
  induction rules as [|[[s0 e0] c0] rules IH]; [by left|]. simpl.
  destruct (PhenotypeProcessor.in_range s0 e0 s) eqn:Hin.
  - right. exists s0, e0. unfold PhenotypeProcessor.in_range in Hin.
    apply andb_true_iff in Hin as [? ?]. split_and!; [by left|done..].
  - destruct IH as [IH|(start & end_ & ? & ? & ?)]; [by left|].
    right. exists start, end_. split_and!; [by right|done..].
Qed.

Lemma no_colon_no_prefix x :
  PyStr.contains PyStr.colon x = false → String.prefix "HP:" x = false.
Proof.
  destruct x as [|c1 [|c2 [|c3 x]]]; simpl; try done;
    repeat (case_match; try done); intros; subst; try done.
Qed.

Lemma categories_well_formed :
  Forall (λ r, r.1.1 ≠ "" ∧ r.1.2 ≠ "" ∧ String.leb r.1.1 r.1.2 = true
               ∧ String.prefix "HP:" r.1.1 = true ∧ String.prefix "HP:" r.1.2 = true
               ∧ String.leb "HP:0000005" r.1.1 = true)
    PhenotypeProcessor.categories.
Proof. repeat constructor; done. Qed.

(** ** The claims *)

(** C7, as stated, fails for [phenotype.py]: a boundary identifier of a
    rule need not get that rule's category.  The rule
    [('HP:0000118', 'HP:0001416', 'Morphology')] is in the table, and both
    of its boundaries lie in the range of the rule before it: they are
    mapped to ['Inheritance']. *)
Lemma C7_boundary_shadowed :
  ¬ (∀ start end_ category,
       (start, end_, category) ∈ PhenotypeProcessor.categories →
       PhenotypeProcessor._determine_category (VS start) = Ok category
       ∧ PhenotypeProcessor._determine_category (VS end_) = Ok category)
  ∧ ("HP:0000118", "HP:0001416", "Morphology") ∈ PhenotypeProcessor.categories
  ∧ PhenotypeProcessor._determine_category (VS "HP:0000118") = Ok "Inheritance"
  ∧ PhenotypeProcessor._determine_category (VS "HP:0001416") = Ok "Inheritance".
Proof.
  assert (("HP:0000118", "HP:0001416", "Morphology") ∈ PhenotypeProcessor.categories)
    as Hin by (right; left).
  split_and!; [|done..].
  intros H. by destruct (H _ _ _ Hin) as [H1 _].
Qed.

(** C7, amended.  For every rule [(start, end, category)] of the table of
    [phenotype.py], the identifier equal to [start] and the one equal to
    [end] are mapped to the category of the first rule, in table order,
    whose range contains them; that is the category of the rule itself
    exactly when no earlier rule's range contains the boundary, which is so
    for the starts of three rules and the ends of five and for no other
    boundary.  In [graph.py], whose ranges are disjoint, an identifier
    whose number is the start or the end of a rule is mapped to the
    category of that rule.  The identifier one unit below the lowest range
    start is mapped to the fallback ['Other'] ([phenotype.py]: lowest start
    [HP:0000005], one below [HP:0000004]; [graph.py]: lowest start 0, one
    below -1). *)
Theorem C7_boundaries_first_rule :
  (∀ i start end_ category b,
     PhenotypeProcessor.categories !! i = Some (start, end_, category) →
     b = start ∨ b = end_ →
     ∃ j start' end' category',
       (j ≤ i)%nat
       ∧ PhenotypeProcessor.categories !! j = Some (start', end', category')
       ∧ PhenotypeProcessor.in_range start' end' b = true
       ∧ (∀ k r, (k < j)%nat → PhenotypeProcessor.categories !! k = Some r →
                 PhenotypeProcessor.in_range r.1.1 r.1.2 b = false)
       ∧ PhenotypeProcessor._determine_category (VS b) = Ok category')
  ∧ (∀ i start end_ category b,
       PhenotypeProcessor.categories !! i = Some (start, end_, category) →
       b = start ∨ b = end_ →
       (PhenotypeProcessor._determine_category (VS b) = Ok category
        ↔ ∀ j r, (j < i)%nat → PhenotypeProcessor.categories !! j = Some r →
                 PhenotypeProcessor.in_range r.1.1 r.1.2 b = false))
  ∧ (∀ start end_ category,
       (start, end_, category) ∈ PhenotypeProcessor.categories →
       (PhenotypeProcessor._determine_category (VS start) = Ok category
        ↔ category ∈ ["Inheritance"; "Musculature"; "Multisystem Disorder"])
       ∧ (PhenotypeProcessor._determine_category (VS end_) = Ok category
          ↔ category ∈ ["Inheritance"; "Limbs"; "Musculature"; "Immunology";
                        "Multisystem Disorder"]))
  ∧ (∀ r, r ∈ PhenotypeProcessor.categories → String.leb "HP:0000005" r.1.1 = true)
  ∧ GraphPy.id_num (VS "HP:0000005") = Ok 5%Z
  ∧ GraphPy.id_num (VS "HP:0000004") = Ok 4%Z
  ∧ PhenotypeProcessor._determine_category (VS "HP:0000004") = Ok "Other"
  ∧ (∀ start end_ category hpo_id,
       (start, end_, category) ∈ GraphPy.categories →
       GraphPy.id_num hpo_id = Ok start ∨ GraphPy.id_num hpo_id = Ok end_ →
       GraphPy._determine_category hpo_id = Ok category)
  ∧ (∀ r, r ∈ GraphPy.categories → (0 ≤ r.1.1)%Z)
  ∧ (∀ hpo_id, GraphPy.id_num hpo_id = Ok (-1)%Z →
               GraphPy._determine_category hpo_id = Ok "Other").
Proof.
  pose proof categories_well_formed as Hwf. rewrite Forall_forall in Hwf.
  assert (∀ i start end_ category b,
            PhenotypeProcessor.categories !! i = Some (start, end_, category) →
            b = start ∨ b = end_ →
            b ≠ "" ∧ PhenotypeProcessor.in_range start end_ b = true) as Hboundary.
  { intros i start end_ category b Hi Hb.
    destruct (Hwf (start, end_, category)) as (Hs & He & Hle & _).
    { by eapply list_elem_of_lookup_2. }
    simpl in Hs, He, Hle. split; [by destruct Hb as [-> | ->]|].
    unfold PhenotypeProcessor.in_range.
    destruct Hb as [-> | ->]; rewrite string_leb_refl, ?Hle; done. }
  assert (∀ i start end_ category b,
     PhenotypeProcessor.categories !! i = Some (start, end_, category) →
     b = start ∨ b = end_ →
     ∃ j start' end' category',
       (j ≤ i)%nat
       ∧ PhenotypeProcessor.categories !! j = Some (start', end', category')
       ∧ PhenotypeProcessor.in_range start' end' b = true
       ∧ (∀ k r, (k < j)%nat → PhenotypeProcessor.categories !! k = Some r →
                 PhenotypeProcessor.in_range r.1.1 r.1.2 b = false)
       ∧ PhenotypeProcessor._determine_category (VS b) = Ok category') as Hfirst.
  { intros i start end_ category b Hi Hb.
    destruct (Hboundary i start end_ category b Hi Hb) as [Hne Hin].
    destruct (first_match_first _ i start end_ category b Hi Hin)
      as (j & s' & e' & c' & Hj & Hl & Hr & Hbefore & Hf).
    exists j, s', e', c'. split_and!; [done..|].
    unfold PhenotypeProcessor._determine_category.
    destruct (decide (b = "")) as [|_]; [done|]. by rewrite Hf. }
  split_and!; try done.
  - intros i start end_ category b Hi Hb.
    destruct (Hboundary i start end_ category b Hi Hb) as [Hne Hin]. split.
    + intros Hcat.
      destruct (Hfirst i start end_ category b Hi Hb)
        as (j & s' & e' & c' & Hj & Hl & Hr & Hbefore & Hf).
      assert (c' = category) as -> by congruence.
      by rewrite (categories_same_rule i j _ _ _ _ _ Hi Hl).
    + intros Hbefore. unfold PhenotypeProcessor._determine_category.
      destruct (decide (b = "")) as [|_]; [done|].
      f_equal. exact (first_match_unshadowed _ i start end_ category b Hi Hin Hbefore).
  - intros start end_ category Hin. unfold PhenotypeProcessor.categories in Hin.
    repeat (apply elem_of_cons in Hin as [[= -> -> ->]|Hin];
            [split; (split; [intros H; (discriminate H || compute_done)
                            |intros H; (reflexivity || (exfalso; revert H; compute_done))])|]).
    by apply elem_of_nil in Hin.
  - intros r Hr. by destruct (Hwf r Hr) as (_ & _ & _ & _ & _ & H).
  - intros start end_ category hpo_id Hin Hnum.
    unfold GraphPy._determine_category.
    unfold GraphPy.categories in Hin.
    repeat (apply elem_of_cons in Hin as [Hin|Hin];
            [injection Hin as -> -> ->; by destruct Hnum as [-> | ->]|]).
    by apply elem_of_nil in Hin.
  - intros r Hr. unfold GraphPy.categories in Hr.
    repeat (apply elem_of_cons in Hr as [-> |Hr]; [simpl; lia|]).
    by apply elem_of_nil in Hr.
  - intros hpo_id Hnum. unfold GraphPy._determine_category. by rewrite Hnum.
Qed.

(** C7 amended, at the second rule of [phenotype.py]: its start
    [HP:0000118] is in the range of the first rule and is an
    ['Inheritance']; at the first rule of [graph.py]: [HP:0001999] is a
    ['Morphology']; and one below the lowest start of [graph.py]. *)
Lemma C7_boundaries_first_rule_witness :
  PhenotypeProcessor._determine_category (VS "HP:0000118") = Ok "Inheritance"
  ∧ GraphPy._determine_category (VS "HP:0001999") = Ok "Morphology"
  ∧ GraphPy._determine_category (VS "HP:-1") = Ok "Other".
Proof.
  destruct C7_boundaries_first_rule as (H1 & _ & _ & _ & _ & _ & _ & H2 & _ & H3).
  split_and!.
  - destruct (H1 1 "HP:0000118" "HP:0001416" "Morphology" "HP:0000118" eq_refl
                (or_introl eq_refl))
      as (j & start' & end' & category' & Hj & Hl & Hin & Hbefore & Hcat).
    destruct j as [|j].
    + injection Hl as <- <- <-. exact Hcat.
    + exfalso. by specialize (Hbefore 0 _ ltac:(lia) eq_refl).
  - apply (H2 0%Z 1999%Z "Morphology" (VS "HP:0001999")); [by left|by right].
  - apply H3. reflexivity.
Defined.

(** C10, as stated, fails: a malformed identifier need not get the fallback
    label.  [phenotype.py] compares strings, so [HP:00001xx] (non-numeric
    suffix) lies in the first range; [graph.py] reads an identifier without
    separator as the number 0, so [HP0000118] is ['Morphology']. *)
Lemma C10_malformed_not_fallback :
  ¬ (∀ s, Inputs.malformed s → PhenotypeProcessor._determine_category (VS s) = Ok "Other")
  ∧ ¬ (∀ s, Inputs.malformed s → GraphPy._determine_category (VS s) = Ok "Other").
Proof.
  split; intros H.
  - by specialize (H "HP:00001xx" eq_refl).
  - by specialize (H "HP0000118" eq_refl).
Qed.

(** C10, amended.  On every input string both classifiers return a label
    and never raise.  In [phenotype.py] the empty identifier and every
    identifier without the separator get the fallback; any other identifier
    gets the label of the first range, in table order, that contains it as
    a string, and the fallback when no range does: [HP:00001xx] is an
    ['Inheritance'].  In [graph.py] an identifier without the separator is read as
    number 0 and gets ['Morphology'], and one whose text after the separator
    is not an integer literal gets the fallback; it is none as soon as it
    holds a character other than a digit, an underscore, a sign and the
    whitespace [int] skips. *)
Theorem C10_classifier_total :
  (∀ s, ∃ label, PhenotypeProcessor._determine_category (VS s) = Ok label)
  ∧ (∀ v, ∃ label, GraphPy._determine_category v = Ok label)
  ∧ PhenotypeProcessor._determine_category (VS "") = Ok "Other"
  ∧ (∀ s, PyStr.contains PyStr.colon s = false →
          PhenotypeProcessor._determine_category (VS s) = Ok "Other")
  ∧ (∀ s, s ≠ "" →
          (∃ i start end_ label,
             PhenotypeProcessor.categories !! i = Some (start, end_, label)
             ∧ PhenotypeProcessor.in_range start end_ s = true
             ∧ (∀ k r, (k < i)%nat → PhenotypeProcessor.categories !! k = Some r →
                       PhenotypeProcessor.in_range r.1.1 r.1.2 s = false)
             ∧ PhenotypeProcessor._determine_category (VS s) = Ok label)
          ∨ ((∀ r, r ∈ PhenotypeProcessor.categories →
                   PhenotypeProcessor.in_range r.1.1 r.1.2 s = false)
             ∧ PhenotypeProcessor._determine_category (VS s) = Ok "Other"))
  ∧ PhenotypeProcessor._determine_category (VS "HP:00001xx") = Ok "Inheritance"
  ∧ (∀ s, PyStr.contains PyStr.colon s = false →
          GraphPy._determine_category (VS s) = Ok "Morphology")
  ∧ (∀ s e, PyStr.contains PyStr.colon s = true → GraphPy.id_num (VS s) = Err e →
            GraphPy._determine_category (VS s) = Ok "Other")
  ∧ (∀ s x c, PyStr.split PyStr.colon s !! 1 = Some x →
              PyStr.contains c x = true → literal_char c = false →
              GraphPy._determine_category (VS s) = Ok "Other").
Proof.
  split_and!.
  - intros s. unfold PhenotypeProcessor._determine_category. case_decide; eauto.
  - intros v. unfold GraphPy._determine_category. destruct (GraphPy.id_num v); eauto.
  - reflexivity.
  - intros s Hs. unfold PhenotypeProcessor._determine_category.
    case_decide; [done|]. f_equal. apply first_match_none.
    pose proof categories_well_formed as Hwf.
    eapply Forall_impl; [exact Hwf|]. intros r (_ & _ & _ & H1 & H2 & _).
    apply (in_range_prefix "HP:"); [done..|]. by apply no_colon_no_prefix.
  - intros s Hne. unfold PhenotypeProcessor._determine_category.
    case_decide; [done|].
    destruct (first_match_spec PhenotypeProcessor.categories s)
      as [(i & start & end_ & label & Hi & Hin & Hbefore & ->)|[Hnone ->]].
    + left. by exists i, start, end_, label.
    + by right.
  - reflexivity.
  - intros s Hs. unfold GraphPy._determine_category, GraphPy.id_num. by rewrite Hs.
  - intros s e _ He. unfold GraphPy._determine_category. by rewrite He.
  - intros s x c Hx Hc Hlit. unfold GraphPy._determine_category, GraphPy.id_num.
    rewrite (proj1 (split_second PyStr.colon s)) by (by rewrite Hx).
    unfold PyStr.index. rewrite Hx. simpl. by rewrite (int_bad_char x c).
Qed.

(** C10 amended, at [Abnormal] (no separator), at [HP:00001xx], whose
    first range in [phenotype.py] is the one of ['Inheritance'] and whose
    suffix is no number for [graph.py], and at [HP:12x4]. *)
Lemma C10_classifier_total_witness :
  PhenotypeProcessor._determine_category (VS "Abnormal") = Ok "Other"
  ∧ PhenotypeProcessor._determine_category (VS "HP:00001xx") = Ok "Inheritance"
  ∧ GraphPy._determine_category (VS "Abnormal") = Ok "Morphology"
  ∧ GraphPy._determine_category (VS "HP:12x4") = Ok "Other"
  ∧ GraphPy._determine_category (VS "HP:00001xx") = Ok "Other".
Proof.
  destruct C10_classifier_total as (_ & _ & _ & H1 & Hfirst & _ & H2 & H3 & H4).
  split_and!.
  - apply H1. reflexivity.
  - destruct (Hfirst "HP:00001xx" ltac:(discriminate))
      as [(i & start & end_ & label & Hi & Hin & Hbefore & Hcat)|[Hnone _]].
    + destruct i as [|i].
      * injection Hi as <- <- <-. exact Hcat.
      * exfalso. by specialize (Hbefore 0 _ ltac:(lia) eq_refl).
    + exfalso.
      by specialize (Hnone ("HP:0000005", "HP:0001999", "Inheritance") ltac:(left)).
  - apply H2. reflexivity.
  - apply (H3 "HP:12x4" ValueError); reflexivity.
  - apply (H4 "HP:00001xx" "00001xx" "x"%char); reflexivity.
Defined.

(** C1: the code does not do this.  [process_obo_file] appends a term to
    the batch only when it reads the next [[Term]] line, so the block that
    ends the file is never sent: for the one-term file no batch is handed
    over, no term is counted and the store stays empty, whatever the batch
    size.  [conn.py]'s [parse_obo] ("# Add the last term") keeps that term. *)
Theorem C1_final_term_dropped :
  (∀ batch_size,
     PhenotypeProcessor.process_obo_file Inputs.record_batch batch_size [] Inputs.one_term
     = ([], (0, 0), None) ∨
     PhenotypeProcessor.process_obo_file Inputs.record_batch batch_size [] Inputs.one_term
     = ([[]], (0, 0), None))
  ∧ (∀ batch_size,
       store (PhenotypeProcessor.process_obo_file
                (PhenotypeProcessor._process_batch Inputs.clock) batch_size
                Inputs.fresh Inputs.one_term).1.1 = Sink.empty)
  ∧ ∃ p, HPOParser.parse_obo HPOParser.init Inputs.one_term = Ok p
         ∧ map fst (HPOParser.terms p) = ["HP:0000001"].
Proof.
  split_and!.
  - intros [|n]; [right|left]; reflexivity.
  - intros [|n]; reflexivity.
  - eexists. split; reflexivity.
Qed.

(** C2: the code does the opposite.  The graph holds an edge from each
    term to its [is_a] parent, and networkx's [ancestors] follows edges
    backwards: for [HP:0000002 is_a HP:0000001], [get_ancestors] of the
    child is empty and that of the parent is the child, while
    [get_descendants] of the child is the parent. *)
Theorem C2_ancestors_descendants_swapped :
  ∃ p, HPOParser.parse_obo HPOParser.init Inputs.two_terms = Ok p
       ∧ nx.gedges (HPOParser.graph p) = [("HP:0000002", "HP:0000001")]
       ∧ HPOParser.get_ancestors p "HP:0000002" = []
       ∧ HPOParser.get_descendants p "HP:0000002" = ["HP:0000001"]
       ∧ HPOParser.get_ancestors p "HP:0000001" = ["HP:0000002"]
       ∧ HPOParser.get_descendants p "HP:0000001" = [].
Proof. eexists. split_and!; reflexivity. Qed.

(** C8: the code does not create the edge of the scenario.  A block with a
    single [is_a:] line stores the parent as a [str], and
    [for parent in current_term['is_a']] then walks its characters: the
    batch holds sixteen relationship records from [HP:0000002] to one
    character each, none of which names a node, and no [IS_A] relationship
    is written.  (Without a [[Term]] line after it, the second term is not
    even sent.) *)
Theorem C8_single_parent_edge_missing :
  let run_on lines :=
    PhenotypeProcessor.process_obo_file
      (PhenotypeProcessor._process_batch Inputs.clock) 1000 Inputs.fresh lines in
  (* the scenario as it stands: only the first term arrives *)
  map nkey (nodes (store (run_on Inputs.two_terms).1.1)) = [(Phenotype, "HP:0000001")]
  ∧ rels (store (run_on Inputs.two_terms).1.1) = []
  (* with a further block after it: both nodes in one batch, still no edge *)
  ∧ (PhenotypeProcessor.process_obo_file Inputs.record_batch 1000 [] Inputs.two_terms_closed).1.1
    = [ PhenotypeProcessor.Node "HP:0000001" (VS "All") "" (VL []) "Other" (VS "") (VL [])
        :: PhenotypeProcessor.Node "HP:0000002" (VS "Abnormality of body height") ""
             (VL []) "Other" (VS "") (VL [])
        :: map (PhenotypeProcessor.Relationship "HP:0000002")
             ["H"; "P"; ":"; "0"; "0"; "0"; "0"; "0"; "0"; "1"; ""; "!"; ""; "A"; "l"; "l"] ]
  ∧ map nkey (nodes (store (run_on Inputs.two_terms_closed).1.1))
    = [(Phenotype, "HP:0000001"); (Phenotype, "HP:0000002")]
  ∧ rels (store (run_on Inputs.two_terms_closed).1.1) = []
  ∧ has_rel IS_A (Phenotype, "HP:0000002") (Phenotype, "HP:0000001")
      (store (run_on Inputs.two_terms_closed).1.1) = false
  ∧ (run_on Inputs.two_terms_closed).1.2 = (2, 16).
Proof. split_and!; reflexivity. Qed.

(** C3: the code does not compute this.  The statement counts every
    connected pair of neighbours once per direction and then doubles the
    count, and a term whose neighbours give no row gets no value at all:
    with two connected neighbours the coefficient is 2, not 1 (2/3 when the
    relationships exist in both directions, as the miner writes them); with
    one neighbour or none the property is not set, not 0. *)
Theorem C3_cluster_coefficient_double_counts :
  let after g :=
    store (GraphEnhancer.apply_graph_algorithms Inputs.clock {| store := g; tick := 0 |}) in
  GraphEnhancer.neighbors (Phenotype, "P") Inputs.triangle = [(Phenotype, "A"); (Phenotype, "B")]
  ∧ has_rel ASSOCIATED_WITH (Phenotype, "A") (Phenotype, "B") Inputs.triangle = true
  ∧ node_prop (Phenotype, "P") "cluster_coefficient" (after Inputs.triangle) = Some (VRat 2)
  ∧ node_prop (Phenotype, "P") "cluster_coefficient" (after Inputs.triangle_sym)
    = Some (VRat (2 # 3))
  ∧ GraphEnhancer.neighbors (Phenotype, "P") Inputs.pendant = [(Phenotype, "A")]
  ∧ node_prop (Phenotype, "P") "cluster_coefficient" (after Inputs.pendant) = None
  ∧ GraphEnhancer.neighbors (Phenotype, "Q") Inputs.pendant = []
  ∧ node_prop (Phenotype, "Q") "cluster_coefficient" (after Inputs.pendant) = None.
Proof. split_and!; reflexivity. Qed.

(** C4: the pass does not run.  In [graph_enhancer.py]
    [add_phenotype_metrics] is defined outside the class, so [main]'s call
    [graph_enhancer.add_phenotype_metrics()] raises [AttributeError] and
    [main] never ends normally; [graph.py]'s statement is rejected by the
    sink.  Called directly, the statement sets nothing for a term without
    [HAS_PHENOTYPE] or without [ASSOCIATED_WITH] relationship: [P] (no
    disease) gets no specificity instead of 0, and [A] (seven diseases, no
    association yet) gets no prevalence. *)
Theorem C4_metrics_pass_never_runs :
  let after g :=
    store (graph_enhancer.add_phenotype_metrics Inputs.clock {| store := g; tick := 0 |}) in
  (∀ now s, graph_enhancer.call_method "add_phenotype_metrics" now s = (s, Some AttributeError))
  ∧ (∀ now batch_size hp_obo phenotype_hpoa s,
       (KnowledgeGraphBuilder.main now batch_size hp_obo phenotype_hpoa s).2 ≠ None)
  ∧ (∀ now s, (GraphPy.add_phenotype_metrics now s).2 = Some CypherSyntaxError
              ∧ store (GraphPy.add_phenotype_metrics now s).1 = store s)
  ∧ incoming HAS_PHENOTYPE Inputs.pendant (Phenotype, "P") = []
  ∧ node_prop (Phenotype, "P") "specificity" (after Inputs.pendant) = None
  ∧ node_prop (Phenotype, "P") "prevalence" (after Inputs.pendant) = None
  ∧ node_prop (Phenotype, "P") "connectivity" (after Inputs.pendant) = None
  ∧ length (incoming HAS_PHENOTYPE Inputs.seven_diseases (Phenotype, "A")) = 7
  ∧ node_prop (Phenotype, "A") "prevalence" (after Inputs.seven_diseases) = None.
Proof.
  split_and!; try reflexivity.
  - intros now batch_size hp_obo phenotype_hpoa s. unfold KnowledgeGraphBuilder.main.
    repeat case_match; by simplify_eq.
  - done.
Qed.

(** ** Helper lemmas: the sink *)

Section Upsert.
Context {A K : Type} `{EqDecision K} (key : A → K).

Let matches (k : K) (x : A) : bool := bool_decide (key x = k).

Lemma find_map_keep (P : A → bool) (h : A → A) (l : list A) :
  (∀ x, P (h x) = P x) → find P (map h l) = h <$> find P l.
Proof.
  intros Hh. induction l as [|x l IH]; [done|]. simpl. rewrite Hh.
  by destruct (P x).
Qed.

Lemma find_app (P : A → bool) (l1 l2 : list A) :
  find P (l1 ++ l2) = match find P l1 with Some x => Some x | None => find P l2 end.
Proof. induction l1 as [|x l1 IH]; [done|]. simpl. by destruct (P x). Qed.

Lemma existsb_find (P : A → bool) (l : list A) :
  existsb P l = bool_decide (is_Some (find P l)).
Proof.
  induction l as [|x l IH]; [done|]. simpl. by destruct (P x).
Qed.

Lemma find_matches_key k l x : find (matches k) l = Some x → key x = k.
Proof.
  intros Hf. apply find_some in Hf as [_ Hm]. by apply bool_decide_eq_true in Hm.
Qed.

(** After an upsert at [k], the entity found at [k] is the stored one
    updated, or the fresh one; other keys find what they found. *)
Lemma find_upsert k q (upd : A → A) (fresh : A) (l : list A) :
  (∀ x, key (upd x) = key x) → key fresh = k →
  find (matches q) (upsert (matches k) upd fresh l)
  = if decide (k = q)
    then Some (match find (matches k) l with Some x => upd x | None => fresh end)
    else find (matches q) l.
Proof.
  intros Hupd Hfresh. unfold upsert. rewrite existsb_find.
  destruct (find (matches k) l) as [x|] eqn:Hk.
  - rewrite bool_decide_eq_true_2 by eauto.
    rewrite find_map_keep.
    + destruct (decide (k = q)) as [<-|Hne].
      * rewrite Hk. simpl. by rewrite (proj2 (find_some _ _ Hk)).
      * destruct (find (matches q) l) as [y|] eqn:Hq; [|done]. simpl.
        assert (matches k y = false) as ->; [|done].
        apply bool_decide_eq_false. apply find_matches_key in Hq. congruence.
    + intros y. unfold matches. destruct (bool_decide (key y = k)); [|done].
      by rewrite Hupd.
  - rewrite bool_decide_eq_false_2 by (by intros [? ?]).
    rewrite find_app. destruct (decide (k = q)) as [<-|Hne].
    + rewrite Hk. simpl. unfold matches. by rewrite bool_decide_eq_true_2.
    + destruct (find (matches q) l); [done|]. simpl.
      unfold matches. by rewrite bool_decide_eq_false_2 by congruence.
Qed.

(** An upsert appends the key when it is new and changes no key otherwise. *)
Lemma map_key_upsert k (upd : A → A) (fresh : A) (l : list A) :
  (∀ x, key (upd x) = key x) → key fresh = k →
  map key (upsert (matches k) upd fresh l)
  = if existsb (matches k) l then map key l else map key l ++ [k].
Proof.
  intros Hupd Hfresh. unfold upsert. destruct (existsb (matches k) l).
  - rewrite map_map. apply map_ext. intros x. by destruct (matches k x).
  - by rewrite map_app, <- Hfresh.
Qed.

Lemma existsb_matches k l : existsb (matches k) l = bool_decide (k ∈ map key l).
Proof.
  induction l as [|x l IH]; [done|]. simpl. rewrite IH. unfold matches.
  destruct (decide (key x = k)) as [<-|Hne].
  - rewrite bool_decide_eq_true_2 by done. simpl. symmetry.
    apply bool_decide_eq_true. by left.
  - rewrite bool_decide_eq_false_2 by done. simpl.
    apply bool_decide_ext. rewrite elem_of_cons. split; [by right|by intros [?|?]].
Qed.

End Upsert.

Lemma has_node_elem k g : has_node k g = bool_decide (k ∈ map nkey (nodes g)).
Proof. apply (existsb_matches nkey). Qed.

Lemma has_node_props k g : has_node k g = bool_decide (is_Some (node_props k g)).
Proof.
  unfold has_node, node_props. rewrite existsb_find. apply bool_decide_ext.
  by rewrite fmap_is_Some.
Qed.

Lemma node_props_update_node k q f g :
  node_props q (update_node k f g)
  = if decide (k = q) then f <$> node_props q g else node_props q g.
Proof.
  unfold node_props, update_node. simpl.
  rewrite find_map_keep by (intros n; by destruct (is_node k n)).
  destruct (find (is_node q) (nodes g)) as [n|] eqn:Hn; simpl; [|by case_decide].
  pose proof (find_matches_key nkey _ _ _ Hn) as Hkey.
  unfold is_node. destruct (decide (k = q)) as [<-|Hne].
  - by rewrite bool_decide_eq_true_2.
  - by rewrite bool_decide_eq_false_2 by congruence.
Qed.

Lemma nodes_keys_update_node k f g :
  map nkey (nodes (update_node k f g)) = map nkey (nodes g).
Proof.
  unfold update_node. simpl. rewrite map_map. apply map_ext.
  intros n. by destruct (is_node k n).
Qed.

Lemma phenotypes_update_node k f g : phenotypes (update_node k f g) = phenotypes g.
Proof.
  unfold phenotypes, update_node. simpl.
  induction (nodes g) as [|n l IH]; [done|]. simpl.
  destruct (is_node k n); rewrite !filter_cons; simpl;
    case_decide; simpl; by rewrite IH.
Qed.

Lemma elem_of_phenotypes k g : k ∈ phenotypes g → is_Some (node_props k g).
Proof.
  unfold phenotypes. intros Hk. apply list_elem_of_fmap in Hk as (n & -> & Hn).
  apply list_elem_of_filter in Hn as [_ Hn].
  pose proof (has_node_props (nkey n) g) as Hp. rewrite has_node_elem in Hp.
  rewrite bool_decide_eq_true_2 in Hp by (by apply list_elem_of_fmap_2).
  symmetry in Hp. by apply bool_decide_eq_true in Hp.
Qed.

(** ** Helper lemmas: the hub pass *)

Lemma connections_ext p g g' :
  rels g = rels g' → GraphEnhancer.connections p g = GraphEnhancer.connections p g'.
Proof. unfold GraphEnhancer.connections, und_steps, irels. by intros ->. Qed.

Lemma identify_hub_rels p g : rels (GraphEnhancer.identify_hub p g) = rels g.
Proof. unfold GraphEnhancer.identify_hub. by destruct (GraphEnhancer.connections p g). Qed.

Lemma identify_hub_phenotypes p g :
  phenotypes (GraphEnhancer.identify_hub p g) = phenotypes g.
Proof.
  unfold GraphEnhancer.identify_hub. destruct (GraphEnhancer.connections p g); [done|].
  apply phenotypes_update_node.
Qed.

Lemma identify_hub_props p q g :
  node_props q (GraphEnhancer.identify_hub p g)
  = if decide (p = q ∧ GraphEnhancer.connections p g ≠ 0)
    then assign "is_hub"
           (Some (VBool (GraphEnhancer.HUB_THRESHOLD <? GraphEnhancer.connections p g)%nat))
         <$> node_props q g
    else node_props q g.
Proof.
  unfold GraphEnhancer.identify_hub.
  destruct (GraphEnhancer.connections p g) as [|n] eqn:Hc.
  - case_decide as H; [|done]. by destruct H.
  - rewrite node_props_update_node.
    destruct (decide (p = q)) as [->|Hne]; case_decide as H; naive_solver.
Qed.

(** What the pass leaves in [is_hub]: the comparison for a listed node with
    a relationship, the old value for any other. *)
Lemma identify_hubs_fold L : ∀ g q,
  node_prop q "is_hub" (foldl (λ g p, GraphEnhancer.identify_hub p g) g L)
  = if decide (q ∈ L ∧ GraphEnhancer.connections q g ≠ 0 ∧ is_Some (node_props q g))
    then Some (VBool (GraphEnhancer.HUB_THRESHOLD <? GraphEnhancer.connections q g)%nat)
    else node_prop q "is_hub" g.
Proof.
  induction L as [|p L IH]; intros g q; simpl.
  - done.
  - rewrite IH.
    rewrite (connections_ext q _ g) by apply identify_hub_rels.
    unfold node_prop. rewrite identify_hub_props.
    destruct (decide (p = q ∧ GraphEnhancer.connections p g ≠ 0)) as [[-> Hc]|Hn].
    + destruct (node_props q g) as [ps|] eqn:Hps; simpl.
      * unfold assign.
        repeat case_decide; try done; try (by rewrite lookup_insert_eq);
          exfalso; match goal with H : ¬ _ |- _ => apply H end;
          split_and!; first [done | by left | by eexists].
      * repeat case_decide; try done; exfalso;
          match goal with H : _ ∧ _ ∧ is_Some None |- _ => destruct H as (_ & _ & [? ?]) end;
          done.
    + repeat case_decide; try done; exfalso;
        repeat match goal with H : _ ∧ _ |- _ => destruct H end;
        match goal with
        | H : ¬ _, Hin : q ∈ p :: L |- _ =>
            apply elem_of_cons in Hin as [->|Hin]; [apply Hn; by split|apply H; by split_and!]
        | H : ¬ _ |- _ => apply H; split_and!; first [done | by right]
        end.
Qed.

Lemma writes_only_id a : writes_only a (λ g, g).
Proof. by intros g. Qed.

Lemma writes_only_update_node a p v :
  writes_only a (update_node p (assign a v)).
Proof.
  intros g. split_and!; [done|apply phenotypes_update_node|apply nodes_keys_update_node|].
  intros q b Hb. unfold node_prop. rewrite node_props_update_node.
  case_decide; [|done]. destruct (node_props q g) as [ps|]; [|done]. simpl.
  unfold assign. destruct v; by rewrite ?lookup_insert_ne, ?lookup_delete_ne.
Qed.

Lemma writes_only_compose a f1 f2 :
  writes_only a f1 → writes_only a f2 → writes_only a (λ g, f2 (f1 g)).
Proof.
  intros H1 H2 g. destruct (H1 g) as (? & ? & ? & E1), (H2 (f1 g)) as (? & ? & ? & E2).
  split_and!; [congruence..|]. intros q b Hb. rewrite E2, E1; done.
Qed.

Lemma writes_only_foldl {B} a (inner : B → graph → graph) (L : list B) :
  (∀ p, writes_only a (inner p)) → writes_only a (λ g, foldl (λ g p, inner p g) g L).
Proof.
  intros Hinner. induction L as [|p L IH]; [apply writes_only_id|]. simpl.
  apply (writes_only_compose a (inner p) (λ g, foldl (λ g p, inner p g) g L)); auto.
Qed.

Lemma writes_only_iterate a inner n :
  (∀ p, writes_only a (inner p)) → writes_only a (GraphEnhancer.iterate inner n).
Proof.
  intros Hinner g. unfold GraphEnhancer.iterate.
  apply (writes_only_foldl a inner (phenotypes g) Hinner g).
Qed.

Lemma writes_only_degree_centrality p :
  writes_only "degree_centrality" (GraphEnhancer.degree_centrality p).
Proof.
  intros g. unfold GraphEnhancer.degree_centrality.
  destruct (incoming HAS_PHENOTYPE g p); [done|]. apply writes_only_update_node.
Qed.

Lemma writes_only_betweenness_score p :
  writes_only "betweenness_score" (GraphEnhancer.betweenness_score p).
Proof. intros g. apply writes_only_update_node. Qed.

Lemma writes_only_cluster_coefficient p :
  writes_only "cluster_coefficient" (GraphEnhancer.cluster_coefficient p).
Proof.
  intros g. unfold GraphEnhancer.cluster_coefficient.
  destruct (GraphEnhancer.neighbors p g); [done|].
  destruct (GraphEnhancer.triangles p g); [done|]. apply writes_only_update_node.
Qed.

Lemma writes_only_identify_hub p : writes_only "is_hub" (GraphEnhancer.identify_hub p).
Proof.
  intros g. unfold GraphEnhancer.identify_hub.
  destruct (GraphEnhancer.connections p g); [done|]. apply writes_only_update_node.
Qed.

(** The hub statement on its own. *)
Lemma identify_hubs_spec n g p :
  p ∈ phenotypes g →
  (node_prop p "is_hub" g = Some (VBool true) →
   GraphEnhancer.HUB_THRESHOLD < GraphEnhancer.connections p g) →
  node_prop p "is_hub" (GraphEnhancer.iterate GraphEnhancer.identify_hub n g) = Some (VBool true)
  ↔ GraphEnhancer.HUB_THRESHOLD < GraphEnhancer.connections p g.
Proof.
  intros Hp Hstale. unfold GraphEnhancer.iterate. rewrite identify_hubs_fold.
  case_decide as Hd.
  - split.
    + intros [= Hlt]. by apply Nat.ltb_lt in Hlt.
    + intros Hlt. apply Nat.ltb_lt in Hlt. by rewrite Hlt.
  - split; [done|]. intros Hlt. exfalso. apply Hd. split_and!; [done| |].
    + unfold GraphEnhancer.HUB_THRESHOLD in Hlt. lia.
    + by apply elem_of_phenotypes.
Qed.

(** C9.  After the hub statement, and after the whole of
    [apply_graph_algorithms], [is_hub] of a phenotype term is [true] exactly
    when the term has more than 10 [ASSOCIATED_WITH] relationships (in
    either direction).  The statement writes nothing for a term without
    such a relationship, so the store it starts on must not hold a stale
    [true] for one: the pipeline's store never does, since only this pass
    writes [is_hub] and associations are never removed.  [graph.py] sends
    the same statement with [MATCH (p:Phenotype)] inlined. *)
Theorem C9_hub_iff_more_than_10 now s p :
  p ∈ phenotypes (store s) →
  (node_prop p "is_hub" (store s) = Some (VBool true) →
   10 < GraphEnhancer.connections p (store s)) →
  let hubs := store (run now (GraphEnhancer.iterate GraphEnhancer.identify_hub) s) in
  let all := store (GraphEnhancer.apply_graph_algorithms now s) in
  (node_prop p "is_hub" hubs = Some (VBool true) ↔ 10 < GraphEnhancer.connections p hubs)
  ∧ (node_prop p "is_hub" all = Some (VBool true) ↔ 10 < GraphEnhancer.connections p all).
Proof.
  intros Hp Hstale hubs all. split.
  - subst hubs. simpl.
    rewrite (connections_ext p _ (store s)).
    + by apply identify_hubs_spec.
    + apply (writes_only_iterate "is_hub" _ _ writes_only_identify_hub).
  - subst all. unfold GraphEnhancer.apply_graph_algorithms. simpl.
    set (g1 := GraphEnhancer.iterate GraphEnhancer.degree_centrality _ (store s)).
    set (g2 := GraphEnhancer.iterate GraphEnhancer.betweenness_score _ g1).
    set (g3 := GraphEnhancer.iterate GraphEnhancer.identify_hub _ g2).
    set (g4 := GraphEnhancer.iterate GraphEnhancer.cluster_coefficient _ g3).
    destruct (writes_only_iterate _ _ (now (tick s)) writes_only_degree_centrality (store s))
      as (R1 & P1 & _ & E1). fold g1 in R1, P1, E1.
    destruct (writes_only_iterate _ _ (now (S (tick s))) writes_only_betweenness_score g1)
      as (R2 & P2 & _ & E2). fold g2 in R2, P2, E2.
    destruct (writes_only_iterate _ _ (now (S (S (tick s)))) writes_only_identify_hub g2)
      as (R3 & P3 & _ & _). fold g3 in R3, P3.
    destruct (writes_only_iterate _ _ (now (S (S (S (tick s))))) writes_only_cluster_coefficient g3)
      as (R4 & P4 & _ & E4). fold g4 in R4, P4, E4.
    rewrite E4 by done.
    rewrite (connections_ext p g4 g2) by congruence.
    apply identify_hubs_spec.
    + by rewrite P2, P1.
    + rewrite E2, E1 by done. rewrite (connections_ext p g2 (store s)) by congruence.
      exact Hstale.
Qed.

(** C9 on a centre with 11 neighbours (a hub) and one with 10 (not a hub),
    starting from stores that hold no [is_hub] at all. *)
Lemma C9_hub_iff_more_than_10_witness :
  let after n :=
    store (GraphEnhancer.apply_graph_algorithms Inputs.clock
             {| store := Inputs.star n; tick := 0 |}) in
  GraphEnhancer.connections (Phenotype, "H") (Inputs.star 11) = 11
  ∧ node_prop (Phenotype, "H") "is_hub" (after 11) = Some (VBool true)
  ∧ GraphEnhancer.connections (Phenotype, "H") (Inputs.star 10) = 10
  ∧ node_prop (Phenotype, "H") "is_hub" (after 10) ≠ Some (VBool true).
Proof.
  intros after. split_and!.
  - reflexivity.
  - apply (C9_hub_iff_more_than_10 Inputs.clock {| store := Inputs.star 11; tick := 0 |}
             (Phenotype, "H")).
    + compute_done.
    + intros H. vm_compute in H. discriminate H.
    + vm_compute. lia.
  - reflexivity.
  - intros H.
    apply (C9_hub_iff_more_than_10 Inputs.clock {| store := Inputs.star 10; tick := 0 |}
             (Phenotype, "H")) in H.
    + vm_compute in H. lia.
    + compute_done.
    + intros H'. vm_compute in H'. discriminate H'.
Defined.

(** ** Helper lemmas: relationships *)

Lemma has_rel_props t a b g : has_rel t a b g = bool_decide (is_Some (rel_props t a b g)).
Proof.
  unfold has_rel, rel_props. rewrite existsb_find. apply bool_decide_ext.
  by rewrite fmap_is_Some.
Qed.

(** A merge at one relationship key: that key holds the assignments over
    what it held, every other key holds what it held. *)
Lemma rel_props_merge_rel_bound t a b kvs t' a' b' g :
  rel_props t' a' b' (merge_rel_bound t a b kvs g)
  = if decide ((t, a, b) = (t', a', b'))
    then Some (set_props kvs (default ∅ (rel_props t a b g)))
    else rel_props t' a' b' g.
Proof.
  unfold rel_props, merge_rel_bound, is_rel. simpl.
  rewrite (find_upsert rkey (t, a, b) (t', a', b')) by done.
  case_decide as Heq; [|done]. simpl.
  by destruct (find _ (rels g)).
Qed.

Lemma rel_keys_merge_rel_bound t a b kvs g :
  map rkey (rels (merge_rel_bound t a b kvs g))
  = if has_rel t a b g then map rkey (rels g) else map rkey (rels g) ++ [(t, a, b)].
Proof. unfold merge_rel_bound, has_rel, is_rel. simpl. by apply (map_key_upsert rkey). Qed.

Lemma nodes_merge_rel_bound t a b kvs g : nodes (merge_rel_bound t a b kvs g) = nodes g.
Proof. done. Qed.

(** Relationships of another type are left as they are. *)
Lemma filter_type_merge_rel_bound t a b kvs t' g :
  t ≠ t' →
  filter (λ r, bool_decide (rty r = t')) (rels (merge_rel_bound t a b kvs g))
  = filter (λ r, bool_decide (rty r = t')) (rels g).
Proof.
  intros Hne. unfold merge_rel_bound, upsert. simpl.
  destruct (existsb (is_rel t a b) (rels g)).
  - induction (rels g) as [|r l IH]; [done|]. simpl.
    destruct (is_rel t a b r) eqn:Hr.
    + apply bool_decide_eq_true in Hr. unfold rkey in Hr. injection Hr as Ht _ _.
      rewrite !filter_cons. simpl. rewrite !decide_False, IH; try done.
      all: intros H%Is_true_true%bool_decide_eq_true; congruence.
    + rewrite !filter_cons. by rewrite IH.
  - rewrite filter_app. rewrite (filter_cons _ _ []). simpl.
    rewrite decide_False; [by rewrite filter_nil, app_nil_r|].
    intros H%Is_true_true%bool_decide_eq_true. congruence.
Qed.

(** Folding merges of one type over rows: a key some row names holds the
    value [v] that all its rows assign to [attr]; any other key holds what
    it held. *)
Lemma rel_prop_foldl_merge t attr a b v (R : list (key * key * props)) : ∀ g,
  (∀ a' b' kvs, (a', b', kvs) ∈ R → a' = a → b' = b → kvs !! attr = Some v) →
  rel_prop t a b attr
    (foldl (λ g '(a', b', kvs), merge_rel_bound t a' b' kvs g) g R)
  = if decide ((a, b) ∈ map fst R) then Some v else rel_prop t a b attr g.
Proof.
  induction R as [|[[a0 b0] kvs0] R IH] using rev_ind; intros g Hv.
  - done.
  - rewrite foldl_app. simpl. unfold rel_prop at 1.
    rewrite rel_props_merge_rel_bound. fold (rel_prop t a b attr).
    destruct (decide ((t, a0, b0) = (t, a, b))) as [[= -> ->]|Hne].
    + simpl. unfold set_props. rewrite lookup_union.
      rewrite (Hv a b kvs0); [|apply elem_of_app; right; by left|done..].
      rewrite union_Some_l. rewrite decide_True; [done|].
      rewrite map_app. apply elem_of_app. right. by left.
    + unfold rel_prop in IH. rewrite IH.
      * apply decide_ext. rewrite map_app, elem_of_app. simpl.
        rewrite list_elem_of_singleton. split; [by left|]. intros [?|?]; [done|congruence].
      * intros a' b' kvs Hin. apply Hv. apply elem_of_app. by left.
Qed.

(** ** Helper lemmas: counting co-occurrences *)

Lemma filter_cons_bool {A} (P : A → bool) (x : A) (l : list A) :
  filter P (x :: l) = if P x then x :: filter P l else filter P l.
Proof. rewrite filter_cons. by destruct (P x). Qed.

Lemma count_of_app b l1 l2 :
  GraphEnhancer.count_of b (l1 ++ l2)
  = GraphEnhancer.count_of b l1 + GraphEnhancer.count_of b l2.
Proof. unfold GraphEnhancer.count_of. by rewrite filter_app, length_app. Qed.

Lemma count_of_cons b x l :
  GraphEnhancer.count_of b (x :: l)
  = (if decide (x = b) then 1 else 0) + GraphEnhancer.count_of b l.
Proof.
  unfold GraphEnhancer.count_of. rewrite filter_cons.
  destruct (decide (x = b)) as [->|Hne].
  - by rewrite bool_decide_eq_true_2.
  - by rewrite bool_decide_eq_false_2.
Qed.

Lemma count_of_pos b l : 0 < GraphEnhancer.count_of b l ↔ b ∈ l.
Proof.
  induction l as [|x l IH].
  - split; [inversion 1|by intros ?%elem_of_nil].
  - rewrite count_of_cons, elem_of_cons. destruct (decide (x = b)) as [->|Hne].
    + split; [by left|lia].
    + simpl. rewrite IH. split; [by right|]. by intros [?|?].
Qed.

(** Among relationships with distinct keys, a key is met once or never. *)
Lemma count_key_unique k (l : list rel) :
  NoDup (map rkey l) →
  length (filter (λ r, bool_decide (rkey r = k)) l)
  = if decide (k ∈ map rkey l) then 1 else 0.
Proof.
  induction l as [|r l IH]; intros Hnd; [done|].
  simpl in Hnd. apply NoDup_cons in Hnd as [Hr Hl]. specialize (IH Hl).
  rewrite filter_cons. simpl. destruct (decide (rkey r = k)) as [<-|Hne].
  - rewrite bool_decide_eq_true_2 by done. simpl. rewrite IH.
    rewrite decide_False by done. rewrite decide_True; [done|by left].
  - rewrite bool_decide_eq_false_2 by done. simpl. rewrite IH.
    apply decide_ext. rewrite elem_of_cons. split; [by right|]. by intros [?|?].
Qed.

Lemma elem_of_diseases_of d a g :
  d ∈ GraphEnhancer.diseases_of a g
  ↔ (HAS_PHENOTYPE, d, a) ∈ map rkey (rels g) ∧ d.1 = Disease.
Proof.
  unfold GraphEnhancer.diseases_of, incoming. split.
  - intros (r & -> & Hr)%list_elem_of_fmap.
    apply list_elem_of_filter in Hr as [Hd%bool_decide_unpack Hr].
    apply list_elem_of_filter in Hr as [[Ht Ha]%bool_decide_unpack Hr].
    split; [|done]. apply list_elem_of_fmap. exists r. split; [|done].
    unfold rkey. by rewrite Ht, Ha.
  - intros [(r & Hk & Hr)%list_elem_of_fmap Hd]. unfold rkey in Hk. injection Hk as Ht Hs Ha.
    apply list_elem_of_fmap. exists r. split; [done|].
    apply list_elem_of_filter. split; [apply bool_decide_pack; congruence|].
    apply list_elem_of_filter. split; [by apply bool_decide_pack|done].
Qed.

Lemma NoDup_diseases_of a g : Spec.unique_rels g → NoDup (GraphEnhancer.diseases_of a g).
Proof.
  unfold Spec.unique_rels, GraphEnhancer.diseases_of, incoming.
  induction (rels g) as [|r l IH]; intros Hnd; [constructor|].
  simpl in Hnd. apply NoDup_cons in Hnd as [Hr Hl]. specialize (IH Hl).
  rewrite filter_cons.
  destruct (decide (Is_true (bool_decide (rty r = HAS_PHENOTYPE ∧ rdst r = a))))
    as [H1|H1]; [|done].
  rewrite filter_cons.
  destruct (decide (Is_true (bool_decide ((rsrc r).1 = Disease)))) as [H2|H2]; [|done].
  simpl. apply NoDup_cons. split; [|done].
  intros (r' & Hs & Hr')%list_elem_of_fmap.
  apply list_elem_of_filter in Hr' as [_ Hr'].
  apply list_elem_of_filter in Hr' as [[Ht' Ha']%bool_decide_unpack Hr'].
  apply bool_decide_unpack in H1 as [Ht Ha].
  apply Hr. apply list_elem_of_fmap. exists r'. split; [|done].
  unfold rkey. congruence.
Qed.

(** The rows of [(d)-[:HAS_PHENOTYPE]->(p2)] that bind [p2] to [b]. *)
Lemma count_phenotypes_of a d b g :
  b.1 = Phenotype → b ≠ a →
  GraphEnhancer.count_of b (GraphEnhancer.phenotypes_of a d g)
  = length (filter (λ r, bool_decide (rkey r = (HAS_PHENOTYPE, d, b))) (rels g)).
Proof.
  intros Hb Hne. unfold GraphEnhancer.phenotypes_of, GraphEnhancer.count_of.
  induction (rels g) as [|r l IH]; [done|].
  rewrite !filter_cons_bool.
  destruct (decide (rkey r = (HAS_PHENOTYPE, d, b))) as [Hk|Hk].
  - rewrite (bool_decide_eq_true_2 (rkey r = _)) by done.
    unfold rkey in Hk. injection Hk as Ht Hs Hd.
    rewrite bool_decide_eq_true_2 by (split_and!; congruence).
    simpl. rewrite filter_cons_bool. rewrite bool_decide_eq_true_2 by done. simpl.
    by rewrite IH.
  - rewrite (bool_decide_eq_false_2 (rkey r = _)) by done.
    destruct (bool_decide (rty r = HAS_PHENOTYPE ∧ _)) eqn:Hq; [|done].
    simpl. rewrite filter_cons_bool.
    destruct (bool_decide (rdst r = b)) eqn:Hq'; [|done]. exfalso.
    apply bool_decide_eq_true in Hq as (Ht & Hs & _ & _).
    apply bool_decide_eq_true in Hq'. apply Hk. unfold rkey. congruence.
Qed.

Lemma count_of_flat_map {B} b (f : B → list key) (D : list B) :
  GraphEnhancer.count_of b (flat_map f D)
  = sum_list (map (λ d, GraphEnhancer.count_of b (f d)) D).
Proof.
  induction D as [|d D IH]; [done|]. simpl. by rewrite count_of_app, IH.
Qed.

Lemma size_singleton_intersection (d : key) (X : gset key) :
  size ({[d]} ∩ X) = if decide (d ∈ X) then 1 else 0.
Proof.
  case_decide as Hd.
  - assert ({[d]} ∩ X = {[d]}) as -> by set_solver. apply size_singleton.
  - assert ({[d]} ∩ X = ∅) as -> by set_solver. apply size_empty.
Qed.

Lemma size_union_disjoint (X Y : gset key) : X ## Y → size (X ∪ Y) = size X + size Y.
Proof. apply size_union. Qed.

(** The miner's count for the pair [(a, b)] is the number of diseases that
    exhibit both. *)
Lemma count_partners_shared a b g :
  Spec.unique_rels g → b.1 = Phenotype → b ≠ a →
  GraphEnhancer.count_of b (GraphEnhancer.partners a g) = Spec.shared_diseases g a b.
Proof.
  intros Hnd Hb Hne. unfold GraphEnhancer.partners. rewrite count_of_flat_map.
  unfold Spec.shared_diseases, Spec.diseases_with.
  pose proof (NoDup_diseases_of a g Hnd) as HD.
  assert (Forall (λ d : key, d.1 = Disease) (GraphEnhancer.diseases_of a g)) as HF.
  { apply Forall_forall. by intros d [_ ?]%elem_of_diseases_of. }
  revert HD HF. generalize (GraphEnhancer.diseases_of a g) as D.
  induction D as [|d D IH]; intros HD HF.
  - simpl. by rewrite intersection_empty_l_L, size_empty.
  - apply NoDup_cons in HD as [Hd HD]. apply Forall_cons in HF as [Hl HF].
    simpl. rewrite (IH HD HF).
    rewrite count_phenotypes_of, count_key_unique by done.
    rewrite intersection_union_r_L.
    rewrite size_union_disjoint.
    + f_equal. rewrite size_singleton_intersection. apply decide_ext.
      rewrite elem_of_list_to_set, elem_of_diseases_of. by intuition.
    + apply elem_of_disjoint. intros x [Hx1 _]%elem_of_intersection [Hx2 _]%elem_of_intersection.
      apply elem_of_singleton in Hx1 as ->. by apply elem_of_list_to_set in Hx2.
Qed.

(** ** Helper lemmas: the association miner *)

Lemma association_kvs_count now co total :
  GraphEnhancer.association_kvs now co total !! "co_occurrence_count"
  = Some (VInt (Z.of_nat co)).
Proof. reflexivity. Qed.


Lemma elem_of_partners_incoming a b g :
  b ∈ GraphEnhancer.partners a g → incoming HAS_PHENOTYPE g a ≠ [].
Proof.
  unfold GraphEnhancer.partners. intros Hb. apply list_elem_of_In, in_flat_map in Hb.
  destruct Hb as (d & Hd%list_elem_of_In & _).
  unfold GraphEnhancer.diseases_of in Hd.
  apply list_elem_of_fmap in Hd as (r & _ & Hr). apply list_elem_of_filter in Hr as [_ Hr].
  intros Heq. rewrite Heq in Hr. by apply elem_of_nil in Hr.
Qed.

Lemma elem_of_partners a b g :
  b ∈ GraphEnhancer.partners a g → b.1 = Phenotype ∧ b ≠ a.
Proof.
  unfold GraphEnhancer.partners. intros Hb. apply list_elem_of_In, in_flat_map in Hb.
  destruct Hb as (d & _ & Hb%list_elem_of_In).
  unfold GraphEnhancer.phenotypes_of in Hb.
  apply list_elem_of_fmap in Hb as (r & -> & Hr). apply list_elem_of_filter in Hr as [Hr _].
  apply bool_decide_unpack in Hr. tauto.
Qed.

(** The rows of an anchor: one for each partner met at least five times. *)
Lemma elem_of_mined_rows a g b co total :
  (b, co, total) ∈ GraphEnhancer.mined_rows a g
  ↔ co = GraphEnhancer.count_of b (GraphEnhancer.partners a g)
    ∧ total = length (incoming HAS_PHENOTYPE g a)
    ∧ (GraphEnhancer.COOCCURRENCE_THRESHOLD ≤ co)%nat.
Proof.
  unfold GraphEnhancer.mined_rows. rewrite list_elem_of_omap. split.
  - intros (p2 & _ & Hrow).
    destruct (_ <=? _)%nat eqn:Hco; [|done]. simpl in Hrow.
    destruct (length (incoming HAS_PHENOTYPE g a)) eqn:Htot; [done|].
    injection Hrow as -> <- <-. apply Nat.leb_le in Hco. done.
  - intros (-> & -> & Hco). exists b.
    assert (b ∈ GraphEnhancer.partners a g) as Hb.
    { apply count_of_pos. unfold GraphEnhancer.COOCCURRENCE_THRESHOLD in Hco. lia. }
    split; [by apply elem_of_remove_dups|].
    rewrite (proj2 (Nat.leb_le _ _) Hco). simpl.
    apply elem_of_partners_incoming in Hb.
    destruct (incoming HAS_PHENOTYPE g a); done.
Qed.

Lemma elem_of_page_rows page g a b co total :
  (a, (b, co, total)) ∈ GraphEnhancer.page_rows page g
  ↔ a.1 = Phenotype ∧ a.2 ∈ page ∧ has_node a g = true
    ∧ (b, co, total) ∈ GraphEnhancer.mined_rows a g.
Proof.
  unfold GraphEnhancer.page_rows. rewrite list_elem_of_In, in_flat_map. split.
  - intros (pid1 & Hp%list_elem_of_In & Hrow%list_elem_of_In).
    destruct (has_node (Phenotype, pid1) g) eqn:Hn; [|by apply elem_of_nil in Hrow].
    apply list_elem_of_fmap in Hrow as (row & [= -> ->] & Hrow). done.
  - intros (Hl & Hp & Hn & Hrow). destruct a as [l pid1]. simpl in *. subst l.
    exists pid1. split; [by apply list_elem_of_In|]. rewrite Hn.
    apply list_elem_of_In, list_elem_of_fmap. by exists (b, co, total).
Qed.

Lemma page_rows_app p1 p2 g :
  GraphEnhancer.page_rows (p1 ++ p2) g
  = GraphEnhancer.page_rows p1 g ++ GraphEnhancer.page_rows p2 g.
Proof. unfold GraphEnhancer.page_rows. apply flat_map_app. Qed.

Lemma filter_filter_sub {A} (P T : A → bool) (l : list A) :
  (∀ x, P x = true → T x = true) → filter P (filter T l) = filter P l.
Proof.
  intros HPT. induction l as [|x l IH]; [done|]. rewrite !filter_cons_bool.
  destruct (P x) eqn:HP.
  - rewrite (HPT x HP), filter_cons_bool, HP. by rewrite IH.
  - destruct (T x); [|done]. by rewrite filter_cons_bool, HP.
Qed.

Lemma incoming_ext g g' a :
  hp_rels g = hp_rels g' → incoming HAS_PHENOTYPE g a = incoming HAS_PHENOTYPE g' a.
Proof.
  intros Heq. unfold incoming.
  rewrite <- (filter_filter_sub _ (λ r, bool_decide (rty r = HAS_PHENOTYPE)) (rels g)),
          <- (filter_filter_sub _ (λ r, bool_decide (rty r = HAS_PHENOTYPE)) (rels g')).
  - by fold (hp_rels g) (hp_rels g'); rewrite Heq.
  - intros r [Ht _]%bool_decide_eq_true. by apply bool_decide_eq_true.
  - intros r [Ht _]%bool_decide_eq_true. by apply bool_decide_eq_true.
Qed.

Lemma phenotypes_of_ext g g' a d :
  hp_rels g = hp_rels g' →
  GraphEnhancer.phenotypes_of a d g = GraphEnhancer.phenotypes_of a d g'.
Proof.
  intros Heq. unfold GraphEnhancer.phenotypes_of. f_equal.
  rewrite <- (filter_filter_sub _ (λ r, bool_decide (rty r = HAS_PHENOTYPE)) (rels g)),
          <- (filter_filter_sub _ (λ r, bool_decide (rty r = HAS_PHENOTYPE)) (rels g')).
  - by fold (hp_rels g) (hp_rels g'); rewrite Heq.
  - intros r [Ht _]%bool_decide_eq_true. by apply bool_decide_eq_true.
  - intros r [Ht _]%bool_decide_eq_true. by apply bool_decide_eq_true.
Qed.

Lemma mined_rows_ext g g' a :
  hp_rels g = hp_rels g' → GraphEnhancer.mined_rows a g = GraphEnhancer.mined_rows a g'.
Proof.
  intros Heq. unfold GraphEnhancer.mined_rows, GraphEnhancer.partners,
    GraphEnhancer.diseases_of.
  rewrite (incoming_ext g g' a Heq).
  by rewrite (flat_map_ext _ _ (λ d, phenotypes_of_ext g g' a d Heq)).
Qed.

Lemma page_rows_ext page g g' :
  nodes g = nodes g' → hp_rels g = hp_rels g' →
  GraphEnhancer.page_rows page g = GraphEnhancer.page_rows page g'.
Proof.
  intros Hn Hr. unfold GraphEnhancer.page_rows. apply flat_map_ext. intros pid1.
  unfold has_node. rewrite Hn. by rewrite (mined_rows_ext g g' _ Hr).
Qed.

Lemma hp_rels_merge_association a b kvs g :
  hp_rels (merge_rel_bound ASSOCIATED_WITH a b kvs g) = hp_rels g.
Proof. by apply filter_type_merge_rel_bound. Qed.

Lemma mine_page_fold page now g :
  GraphEnhancer.mine_page page now g
  = foldl (λ g '(a, b, kvs), merge_rel_bound ASSOCIATED_WITH a b kvs g) g
      (map (merged_row now) (GraphEnhancer.page_rows page g)).
Proof.
  unfold GraphEnhancer.mine_page.
  generalize (GraphEnhancer.page_rows page g) as R. intros R. revert g.
  induction R as [|[p1 [[p2 co] total]] R IH]; intros g; [done|]. simpl. apply IH.
Qed.

Lemma foldl_merge_association_inv (R : list (key * key * props)) : ∀ g,
  let g' := foldl (λ g '(a, b, kvs), merge_rel_bound ASSOCIATED_WITH a b kvs g) g R in
  nodes g' = nodes g ∧ hp_rels g' = hp_rels g.
Proof.
  induction R as [|[[a b] kvs] R IH]; intros g; [done|]. simpl.
  destruct (IH (merge_rel_bound ASSOCIATED_WITH a b kvs g)) as [-> ->].
  split; [done|]. apply hp_rels_merge_association.
Qed.

(** The page loop merges [all_rows] into the store: every page reads the
    same rows, since merging associations changes neither the nodes nor the
    [HAS_PHENOTYPE] relationships. *)
Lemma miner_flatten now g0 P : ∀ s c,
  nodes (store s) = nodes g0 → hp_rels (store s) = hp_rels g0 →
  store (foldl (λ '(s, created) page,
                  (run now (GraphEnhancer.mine_page page) s,
                   created + length (GraphEnhancer.page_rows page (store s))))
           (s, c) P).1
  = foldl (λ g '(a, b, kvs), merge_rel_bound ASSOCIATED_WITH a b kvs g) (store s)
      (all_rows now (tick s) P g0).
Proof.
  induction P as [|page P IH]; intros s c Hn Hr; [done|]. simpl.
  rewrite foldl_app. rewrite IH; simpl.
  - by rewrite mine_page_fold, (page_rows_ext page (store s) g0 Hn Hr).
  - rewrite mine_page_fold.
    destruct (foldl_merge_association_inv
                (map (merged_row (now (tick s)))
                   (GraphEnhancer.page_rows page (store s))) (store s)) as [-> _]. done.
  - rewrite mine_page_fold.
    destruct (foldl_merge_association_inv
                (map (merged_row (now (tick s)))
                   (GraphEnhancer.page_rows page (store s))) (store s)) as [_ ->]. done.
Qed.

Lemma all_rows_keys now P g0 : ∀ t,
  map fst (all_rows now t P g0)
  = map (λ row, (row.1, row.2.1.1)) (GraphEnhancer.page_rows (concat P) g0).
Proof.
  induction P as [|page P IH]; intros t; [done|]. simpl.
  rewrite page_rows_app, !map_app, IH. f_equal. by rewrite map_map.
Qed.

Lemma elem_of_all_rows now P g0 a b kvs : ∀ t,
  (a, b, kvs) ∈ all_rows now t P g0 →
  ∃ now' co total, kvs = GraphEnhancer.association_kvs now' co total
                   ∧ (a, (b, co, total)) ∈ GraphEnhancer.page_rows (concat P) g0.
Proof.
  induction P as [|page P IH]; intros t Hin; [by apply elem_of_nil in Hin|].
  simpl in Hin. apply elem_of_app in Hin as [Hin|Hin].
  - apply list_elem_of_fmap in Hin as ([p1 [[p2 co] total]] & Heq & Hin).
    unfold merged_row in Heq. simpl in Heq. injection Heq as -> -> ->.
    exists (now t), co, total. split; [done|]. simpl.
    rewrite page_rows_app. apply elem_of_app. by left.
  - destruct (IH _ Hin) as (now' & co & total & -> & Hrow).
    exists now', co, total. split; [done|]. simpl.
    rewrite page_rows_app. apply elem_of_app. by right.
Qed.


Lemma pages_concat {A} (size : nat) : ∀ (fuel : nat) (l : list A),
  (0 < size)%nat → (length l ≤ fuel)%nat → concat (GraphEnhancer.pages fuel size l) = l.
Proof.
  induction fuel as [|fuel IH]; intros l Hs Hl.
  - destruct l; [done|simpl in Hl; lia].
  - destruct l as [|x l]; [done|]. cbn [GraphEnhancer.pages concat].
    rewrite IH; [apply take_drop|done|].
    rewrite length_drop. simpl in *. lia.
Qed.

Lemma has_node_sorted_ids p1 g :
  has_node (Phenotype, p1) g = true → p1 ∈ GraphEnhancer.sorted_phenotype_ids g.
Proof.
  rewrite has_node_elem. intros (n & Hk & Hn)%bool_decide_eq_true%list_elem_of_fmap.
  unfold GraphEnhancer.sorted_phenotype_ids. rewrite merge_sort_Permutation.
  apply list_elem_of_fmap. exists (Phenotype, p1). split; [done|].
  unfold phenotypes. apply list_elem_of_fmap. exists n. split; [done|].
  apply list_elem_of_filter. split; [|done]. apply bool_decide_pack.
  unfold nkey in Hk. congruence.
Qed.

Lemma miner_store now s :
  store (GraphEnhancer.create_symptom_relationships now s).1
  = foldl (λ g '(a, b, kvs), merge_rel_bound ASSOCIATED_WITH a b kvs g) (store s)
      (all_rows now (S (tick s))
         (GraphEnhancer.pages (length (GraphEnhancer.sorted_phenotype_ids (store s)))
            GraphEnhancer.PAGE_SIZE (GraphEnhancer.sorted_phenotype_ids (store s)))
         (store s)).
Proof.
  unfold GraphEnhancer.create_symptom_relationships.
  by rewrite (miner_flatten now (store s)).
Qed.

(** The pairs the miner has a row for. *)
Lemma miner_row_iff ids g a b :
  (a, b) ∈ map (λ row : key * (key * nat * nat), (row.1, row.2.1.1))
             (GraphEnhancer.page_rows ids g)
  ↔ a.1 = Phenotype ∧ a.2 ∈ ids ∧ has_node a g = true
    ∧ (GraphEnhancer.COOCCURRENCE_THRESHOLD
       ≤ GraphEnhancer.count_of b (GraphEnhancer.partners a g))%nat.
Proof.
  rewrite list_elem_of_fmap. split.
  - intros ([p1 [[p2 co] total]] & [= -> ->] & Hrow).
    apply elem_of_page_rows in Hrow as (Hl & Hp & Hn & Hrow).
    apply elem_of_mined_rows in Hrow as (-> & _ & Hco). done.
  - intros (Hl & Hp & Hn & Hco).
    exists (a, (b, GraphEnhancer.count_of b (GraphEnhancer.partners a g),
                length (incoming HAS_PHENOTYPE g a))).
    split; [done|]. apply elem_of_page_rows. split_and!; try done.
    by apply elem_of_mined_rows.
Qed.



(** ** Helper lemmas: sequences of merges *)

Import Ops.

Lemma node_props_merge_node k kvs q g :
  node_props q (merge_node k kvs g)
  = if decide (k = q)
    then Some (set_props kvs (default ∅ (node_props k g)))
    else node_props q g.
Proof.
  unfold node_props, merge_node, is_node. simpl.
  rewrite (find_upsert nkey k q); [|done|by destruct k].
  case_decide as Heq; [|done]. simpl.
  by destruct (find _ (nodes g)).
Qed.

Lemma node_keys_merge_node k kvs g :
  map nkey (nodes (merge_node k kvs g))
  = if has_node k g then map nkey (nodes g) else map nkey (nodes g) ++ [k].
Proof.
  unfold merge_node, has_node, is_node. simpl.
  apply (map_key_upsert nkey); [done|by destruct k].
Qed.

Lemma has_node_merge_node k kvs q g :
  has_node q (merge_node k kvs g) = bool_decide (k = q) || has_node q g.
Proof.
  rewrite !has_node_props, node_props_merge_node.
  destruct (decide (k = q)) as [->|Hne].
  - by rewrite (bool_decide_eq_true_2 (q = q)).
  - by rewrite (bool_decide_eq_false_2 (k = q)).
Qed.

Lemma has_node_apply_op o q g :
  has_node q g = true → has_node q (apply_op o g) = true.
Proof.
  intros Hq. destruct o as [k kvs|t a b kvs]; simpl.
  - rewrite has_node_merge_node, Hq. apply orb_true_r.
  - unfold merge_rel. by destruct (has_node a g && has_node b g).
Qed.

Lemma has_node_run_ops O : ∀ q g, has_node q g = true → has_node q (run_ops O g) = true.
Proof.
  induction O as [|o O IH]; intros q g Hq; [done|]. simpl.
  apply IH. by apply has_node_apply_op.
Qed.

Lemma rel_props_apply_op o e g :
  rel_props e.1.1 e.1.2 e.2 (apply_op o g)
  = match o with
    | MergeRel t a b kvs =>
        if decide ((t, a, b) = e ∧ has_node a g = true ∧ has_node b g = true)
        then Some (set_props kvs (default ∅ (rel_props t a b g)))
        else rel_props e.1.1 e.1.2 e.2 g
    | MergeNode _ _ => rel_props e.1.1 e.1.2 e.2 g
    end.
Proof.
  destruct e as [[t' a'] b']. destruct o as [k kvs|t a b kvs]; simpl; [done|].
  unfold merge_rel.
  destruct (has_node a g) eqn:Ha, (has_node b g) eqn:Hb; simpl;
    try (case_decide as H; [by destruct H as (_ & ? & ?)|done]).
  rewrite rel_props_merge_rel_bound.
  destruct (decide ((t, a, b) = (t', a', b'))) as [Heq|Hne].
  - by rewrite decide_True.
  - rewrite decide_False; [done|]. by intros [? _].
Qed.

Lemma rel_keys_apply_op o g :
  ∃ new, map rkey (rels (apply_op o g)) = map rkey (rels g) ++ new
         ∧ (∀ e, e ∈ new → e ∉ map rkey (rels g))
         ∧ NoDup new
         ∧ (∀ e, e ∈ new → has_node e.1.2 g = true ∧ has_node e.2 g = true).
Proof.
  destruct o as [k kvs|t a b kvs]; simpl.
  - exists []. rewrite app_nil_r. split_and!; [done| |constructor|]; by intros ? ?%elem_of_nil.
  - unfold merge_rel. destruct (has_node a g) eqn:Ha, (has_node b g) eqn:Hb; simpl;
      try (exists []; rewrite app_nil_r;
           split_and!; [done| |constructor|]; by intros ? ?%elem_of_nil).
    pose proof (rel_keys_merge_rel_bound t a b kvs g) as Hk.
    destruct (has_rel t a b g) eqn:Hr.
    + exists []. rewrite app_nil_r. split_and!; [done| |constructor|]; by intros ? ?%elem_of_nil.
    + exists [(t, a, b)]. split_and!; [done| |apply NoDup_singleton|].
      * intros e ->%list_elem_of_singleton Hin.
        unfold has_rel, is_rel in Hr. rewrite (existsb_matches rkey) in Hr.
        by rewrite bool_decide_eq_true_2 in Hr.
      * by intros e ->%list_elem_of_singleton.
Qed.

Lemma node_keys_apply_op o g :
  ∃ new, map nkey (nodes (apply_op o g)) = map nkey (nodes g) ++ new
         ∧ (∀ k, k ∈ new → k ∉ map nkey (nodes g)) ∧ NoDup new.
Proof.
  destruct o as [k kvs|t a b kvs]; simpl.
  - pose proof (node_keys_merge_node k kvs g) as Hkeys. destruct (has_node k g) eqn:Hk.
    + exists []. rewrite app_nil_r. split_and!; [done| |constructor]. by intros ? ?%elem_of_nil.
    + exists [k]. split_and!; [done| |apply NoDup_singleton].
      intros ? ->%list_elem_of_singleton Hin. rewrite has_node_elem in Hk.
      by rewrite bool_decide_eq_true_2 in Hk.
  - exists []. rewrite app_nil_r. unfold merge_rel.
    destruct (has_node a g && has_node b g);
      (split_and!; [done| |constructor]; by intros ? ?%elem_of_nil).
Qed.

(** Merges create no duplicate: distinct keys stay distinct. *)
Lemma unique_apply_op o g :
  Spec.unique_nodes g → Spec.unique_rels g →
  Spec.unique_nodes (apply_op o g) ∧ Spec.unique_rels (apply_op o g).
Proof.
  unfold Spec.unique_nodes, Spec.unique_rels. intros Hn Hr.
  destruct (node_keys_apply_op o g) as (newn & -> & Hnn & Hdn).
  destruct (rel_keys_apply_op o g) as (newr & -> & Hnr & Hdr & _).
  split; apply NoDup_app; split_and!; try done.
  - intros k Hk Hk'. by apply (Hnn k).
  - intros e He He'. by apply (Hnr e).
Qed.

Lemma unique_run_ops O : ∀ g,
  Spec.unique_nodes g → Spec.unique_rels g →
  Spec.unique_nodes (run_ops O g) ∧ Spec.unique_rels (run_ops O g).
Proof.
  induction O as [|o O IH]; intros g Hn Hr; [done|]. simpl.
  destruct (unique_apply_op o g Hn Hr). by apply IH.
Qed.

Lemma has_rel_elem t a b g : has_rel t a b g = bool_decide ((t, a, b) ∈ map rkey (rels g)).
Proof. apply (existsb_matches rkey). Qed.

Lemma rel_props_is_Some t a b g :
  is_Some (rel_props t a b g) ↔ (t, a, b) ∈ map rkey (rels g).
Proof.
  pose proof (has_rel_props t a b g) as H1. rewrite has_rel_elem in H1.
  split; intros H.
  - assert (bool_decide ((t, a, b) ∈ map rkey (rels g)) = true) as Hb
      by (rewrite H1; by apply bool_decide_eq_true_2).
    by apply bool_decide_eq_true in Hb.
  - assert (bool_decide (is_Some (rel_props t a b g)) = true) as Hb
      by (rewrite <- H1; by apply bool_decide_eq_true_2).
    by apply bool_decide_eq_true in Hb.
Qed.

Lemma joined_keys g :
  Spec.joined g
  ↔ ∀ e, e ∈ map rkey (rels g) → has_node e.1.2 g = true ∧ has_node e.2 g = true.
Proof.
  unfold Spec.joined. split.
  - intros H e (r & -> & Hr)%list_elem_of_fmap. by apply H.
  - intros H r Hr. apply (H (rkey r)). by apply list_elem_of_fmap_2.
Qed.

Lemma joined_apply_op o g : Spec.joined g → Spec.joined (apply_op o g).
Proof.
  rewrite !joined_keys. intros Hj e He.
  destruct (rel_keys_apply_op o g) as (new & Hkeys & _ & _ & Hnew).
  rewrite Hkeys in He. apply elem_of_app in He as [He|He].
  - destruct (Hj e He). split; by apply has_node_apply_op.
  - destruct (Hnew e He). split; by apply has_node_apply_op.
Qed.

Lemma joined_run_ops O : ∀ g, Spec.joined g → Spec.joined (run_ops O g).
Proof.
  induction O as [|o O IH]; intros g Hj; [done|]. simpl. by apply IH, joined_apply_op.
Qed.

(** A relationship, once in the store, stays. *)
Lemma rel_keys_run_ops O : ∀ g,
  ∃ new, map rkey (rels (run_ops O g)) = map rkey (rels g) ++ new.
Proof.
  induction O as [|o O IH]; intros g; [exists []; by rewrite app_nil_r|]. simpl.
  destruct (IH (apply_op o g)) as (new2 & ->).
  destruct (rel_keys_apply_op o g) as (new1 & -> & _).
  exists (new1 ++ new2). by rewrite app_assoc.
Qed.

Lemma union_absorb (kvs kvs0 d : props) :
  dom kvs0 = dom kvs → kvs ∪ (kvs0 ∪ d) = kvs ∪ d.
Proof.
  intros Hdom. apply map_eq. intros i. rewrite !lookup_union.
  destruct (kvs !! i) as [v|] eqn:Hi.
  - by rewrite !union_Some_l.
  - assert (kvs0 !! i = None) as ->.
    { apply not_elem_of_dom. rewrite Hdom. by apply not_elem_of_dom. }
    by rewrite !(left_id_L None union).
Qed.

Lemma run_ops_snoc O o g : run_ops (O ++ [o]) g = apply_op o (run_ops O g).
Proof. unfold run_ops. by rewrite foldl_app. Qed.

Lemma last_node_kvs_snoc k O o :
  last_node_kvs k (O ++ [o])
  = match o with
    | MergeNode k' kvs => if decide (k' = k) then Some kvs else last_node_kvs k O
    | MergeRel _ _ _ _ => last_node_kvs k O
    end.
Proof. unfold last_node_kvs. by rewrite foldl_app. Qed.

Lemma last_rel_kvs_snoc e O o :
  last_rel_kvs e (O ++ [o])
  = match o with
    | MergeRel t a b kvs => if decide ((t, a, b) = e) then Some kvs else last_rel_kvs e O
    | MergeNode _ _ => last_rel_kvs e O
    end.
Proof. unfold last_rel_kvs. by rewrite foldl_app. Qed.

Lemma last_node_kvs_elem k O kvs : last_node_kvs k O = Some kvs → MergeNode k kvs ∈ O.
Proof.
  induction O as [|o O IH] using rev_ind; [done|]. rewrite last_node_kvs_snoc.
  destruct o as [k' kvs'|]; [destruct (decide (k' = k)) as [->|]|].
  - intros [= ->]. apply elem_of_app. right. by left.
  - intros H. apply elem_of_app. left. auto.
  - intros H. apply elem_of_app. left. auto.
Qed.

Lemma last_rel_kvs_elem t a b O kvs :
  last_rel_kvs (t, a, b) O = Some kvs → MergeRel t a b kvs ∈ O.
Proof.
  induction O as [|o O IH] using rev_ind; [done|]. rewrite last_rel_kvs_snoc.
  destruct o as [|t' a' b' kvs']; [|destruct (decide ((t', a', b') = (t, a, b))) as [[= -> -> ->]|]].
  - intros H. apply elem_of_app. left. auto.
  - intros [= ->]. apply elem_of_app. right. by left.
  - intros H. apply elem_of_app. left. auto.
Qed.

Lemma schema_node k kvs kvs' : schema (MergeNode k kvs) = schema (MergeNode k kvs').
Proof. by destruct k as [[] ?]. Qed.

Lemma schema_rel t a b kvs kvs' : schema (MergeRel t a b kvs) = schema (MergeRel t a b kvs').
Proof. by destruct t. Qed.

(** What a run leaves at a node: the last assignments over what the node
    held. *)
Lemma node_props_run_ops k O : ∀ g,
  Forall well_schemed O →
  node_props k (run_ops O g)
  = match last_node_kvs k O with
    | Some kvs => Some (kvs ∪ default ∅ (node_props k g))
    | None => node_props k g
    end.
Proof.
  induction O as [|o O IH] using rev_ind; intros g Hs; [done|].
  apply Forall_app in Hs as [HsO Ho]. apply Forall_cons in Ho as [Ho _].
  rewrite run_ops_snoc, last_node_kvs_snoc.
  destruct o as [k' kvs|t a b kvs]; simpl.
  - rewrite node_props_merge_node. destruct (decide (k' = k)) as [->|Hne]; [|by apply IH].
    rewrite (IH g HsO). unfold set_props.
    destruct (last_node_kvs k O) as [kvs0|] eqn:Hlast; [|done]. simpl.
    f_equal. apply union_absorb.
    apply last_node_kvs_elem in Hlast.
    rewrite Forall_forall in HsO. specialize (HsO _ Hlast).
    unfold well_schemed, op_kvs in HsO, Ho. rewrite HsO, Ho. apply schema_node.
  - unfold merge_rel. destruct (has_node a _ && has_node b _); by apply IH.
Qed.

(** What a run leaves at a relationship that is in the store at its end. *)
Lemma rel_props_run_ops t a b O : ∀ g ps,
  Spec.joined g → Forall well_schemed O →
  rel_props t a b (run_ops O g) = Some ps →
  ps = match last_rel_kvs (t, a, b) O with
       | Some kvs => kvs ∪ default ∅ (rel_props t a b g)
       | None => default ∅ (rel_props t a b g)
       end.
Proof.
  induction O as [|o O IH] using rev_ind; intros g ps Hj Hs Hps.
  - simpl in *. by rewrite Hps.
  - apply Forall_app in Hs as [HsO Ho]. apply Forall_cons in Ho as [Ho _].
    rewrite run_ops_snoc in Hps. rewrite last_rel_kvs_snoc.
    pose proof (rel_props_apply_op o (t, a, b) (run_ops O g)) as Hstep. simpl in Hstep.
    rewrite Hps in Hstep.
    destruct o as [k kvs|t' a' b' kvs]; [by apply IH|].
    destruct (decide ((t', a', b') = (t, a, b))) as [[= -> -> ->]|Hne].
    + case_decide as Hg.
      * injection Hstep as ->. unfold set_props.
        destruct (rel_props t a b (run_ops O g)) as [ps0|] eqn:Hps0; simpl.
        -- rewrite (IH g ps0 Hj HsO Hps0).
           destruct (last_rel_kvs (t, a, b) O) as [kvs0|] eqn:Hlast; [|done].
           apply union_absorb. apply last_rel_kvs_elem in Hlast.
           rewrite Forall_forall in HsO. specialize (HsO _ Hlast).
           unfold well_schemed, op_kvs in HsO, Ho. rewrite HsO, Ho. apply schema_rel.
        -- assert (rel_props t a b g = None) as ->.
           { destruct (rel_props t a b g) eqn:Hg0; [|done]. exfalso.
             assert (is_Some (rel_props t a b (run_ops O g))) as [? ?]; [|congruence].
             apply rel_props_is_Some. destruct (rel_keys_run_ops O g) as (new & ->).
             apply elem_of_app. left. apply rel_props_is_Some. eauto. }
           simpl. by destruct (last_rel_kvs (t, a, b) O).
      * exfalso. apply Hg. split; [done|].
        assert (is_Some (rel_props t a b (run_ops O g))) as Hsome by (rewrite <- Hstep; eauto).
        apply rel_props_is_Some in Hsome.
        pose proof (joined_run_ops O g Hj) as Hj'. rewrite joined_keys in Hj'.
        apply (Hj' (t, a, b) Hsome).
    + rewrite decide_False in Hstep by (by intros [? _]). by apply IH.
Qed.

Lemma props_sim_refl p : props_sim p p.
Proof. by split. Qed.

Lemma props_sim_union (kvs kvs' d : props) :
  props_sim kvs kvs' → props_sim (kvs ∪ d) (kvs' ∪ (kvs ∪ d)).
Proof.
  intros [Hdom Hval]. split.
  - rewrite !dom_union_L, Hdom. set_solver.
  - intros a Ha. rewrite !lookup_union, <- (Hval a Ha).
    destruct (kvs !! a) as [v|]; [by rewrite !union_Some_l|].
    by rewrite !(left_id_L None union).
Qed.

Lemma op_sim_well_schemed o o' : op_sim o o' → well_schemed o → well_schemed o'.
Proof.
  unfold well_schemed.
  destruct o as [k kvs|t a b kvs], o' as [k' kvs'|t' a' b' kvs']; simpl; try done.
  - intros [<- [Hdom _]] Hs. rewrite <- Hdom, Hs. by destruct k as [[] ?].
  - intros (<- & <- & <- & [Hdom _]) Hs. rewrite <- Hdom, Hs. by destruct t.
Qed.

Lemma Forall2_op_sim_well_schemed O O' :
  Forall2 op_sim O O' → Forall well_schemed O → Forall well_schemed O'.
Proof.
  induction 1 as [|o o' O O' Ho _ IH]; [done|]. intros [? ?]%Forall_cons.
  constructor; [by eapply op_sim_well_schemed|auto].
Qed.

Lemma last_node_kvs_sim k O O' :
  Forall2 op_sim O O' →
  option_Forall2 props_sim (last_node_kvs k O) (last_node_kvs k O').
Proof.
  unfold last_node_kvs. intros HO.
  assert (option_Forall2 props_sim None None) as Hacc by constructor.
  revert Hacc. generalize (@None props) at 1 3 as acc.
  generalize (@None props) as acc'.
  induction HO as [|o o' O O' Ho _ IH]; intros acc' acc Hacc; [done|]. simpl.
  apply IH. destruct o as [k1 kvs|], o' as [k1' kvs'|]; simpl in Ho; try done.
  destruct Ho as [<- Hsim]. case_decide; [by constructor|done].
Qed.

Lemma last_rel_kvs_sim e O O' :
  Forall2 op_sim O O' →
  option_Forall2 props_sim (last_rel_kvs e O) (last_rel_kvs e O').
Proof.
  unfold last_rel_kvs. intros HO.
  assert (option_Forall2 props_sim None None) as Hacc by constructor.
  revert Hacc. generalize (@None props) at 1 3 as acc.
  generalize (@None props) as acc'.
  induction HO as [|o o' O O' Ho _ IH]; intros acc' acc Hacc; [done|]. simpl.
  apply IH. destruct o as [|t a b kvs], o' as [|t' a' b' kvs']; simpl in Ho; try done.
  destruct Ho as (<- & <- & <- & Hsim). case_decide; [by constructor|done].
Qed.

Lemma has_node_run_ops_merged k kvs O : ∀ g,
  MergeNode k kvs ∈ O → has_node k (run_ops O g) = true.
Proof.
  induction O as [|o O IH]; intros g Hin; [by apply elem_of_nil in Hin|].
  apply elem_of_cons in Hin as [<-|Hin]; simpl; [|by apply IH].
  apply has_node_run_ops. rewrite has_node_merge_node.
  by rewrite bool_decide_eq_true_2.
Qed.

(** Merging nodes that are all in the store adds no node. *)
Lemma node_keys_run_ops_known O : ∀ g,
  (∀ k kvs, MergeNode k kvs ∈ O → has_node k g = true) →
  map nkey (nodes (run_ops O g)) = map nkey (nodes g).
Proof.
  induction O as [|o O IH]; intros g Hknown; [done|]. simpl. rewrite IH.
  - destruct o as [k kvs|t a b kvs]; unfold apply_op.
    + rewrite node_keys_merge_node. rewrite (Hknown k kvs); [done|by left].
    + unfold merge_rel. by destruct (has_node a g && has_node b g).
  - intros k kvs Hin. apply has_node_apply_op. apply (Hknown k kvs). by right.
Qed.

(** Running a second, similar sequence of merges on the result of the
    first: the same nodes, the same properties but for the timestamps, and
    every relationship of the first run kept with the same properties but
    for the timestamps. *)
Lemma run_ops_twice O O' g :
  Spec.joined g → Forall well_schemed O → Forall2 op_sim O O' →
  let g1 := run_ops O g in
  let g2 := run_ops O' g1 in
  map nkey (nodes g2) = map nkey (nodes g1)
  ∧ (∀ k, option_Forall2 props_sim (node_props k g1) (node_props k g2))
  ∧ (∃ new, map rkey (rels g2) = map rkey (rels g1) ++ new)
  ∧ (∀ t a b ps1, rel_props t a b g1 = Some ps1 →
       ∃ ps2, rel_props t a b g2 = Some ps2 ∧ props_sim ps1 ps2).
Proof.
  intros Hj Hs Hsim g1 g2.
  pose proof (Forall2_op_sim_well_schemed O O' Hsim Hs) as Hs'.
  split_and!.
  - apply node_keys_run_ops_known. intros k kvs' Hin.
    apply list_elem_of_lookup in Hin as [i Hi].
    destruct (Forall2_lookup_r _ _ _ _ _ Hsim Hi) as (o & Ho & Hoo).
    destruct o as [k0 kvs|]; [|done]. destruct Hoo as [-> _].
    apply (has_node_run_ops_merged k kvs). by eapply list_elem_of_lookup_2.
  - intros k. subst g2. rewrite (node_props_run_ops k O' g1 Hs').
    subst g1. rewrite (node_props_run_ops k O g Hs).
    destruct (last_node_kvs_sim k O O' Hsim) as [kvs kvs' Hkvs|]; simpl.
    + constructor. by apply props_sim_union.
    + destruct (node_props k g); constructor. apply props_sim_refl.
  - apply rel_keys_run_ops.
  - intros t a b ps1 Hps1. subst g2.
    assert (is_Some (rel_props t a b (run_ops O' g1))) as [ps2 Hps2].
    { apply rel_props_is_Some. destruct (rel_keys_run_ops O' g1) as (new & ->).
      apply elem_of_app. left. apply rel_props_is_Some. eauto. }
    exists ps2. split; [done|].
    pose proof (rel_props_run_ops t a b O' g1 ps2 (joined_run_ops O g Hj) Hs' Hps2) as E2.
    pose proof (rel_props_run_ops t a b O g ps1 Hj Hs Hps1) as E1.
    rewrite Hps1 in E2. simpl in E2.
    destruct (last_rel_kvs_sim (t, a, b) O O' Hsim) as [kvs kvs' Hkvs|].
    + subst ps1 ps2. by apply props_sim_union.
    + subst ps2. apply props_sim_refl.
Qed.

(** ** Helper lemmas: the ingestion as a sequence of merges *)

Lemma run_ops_app O1 O2 g : run_ops (O1 ++ O2) g = run_ops O2 (run_ops O1 g).
Proof. unfold run_ops. by rewrite foldl_app. Qed.

Lemma merge_nodes_ops L n : ∀ g,
  PhenotypeProcessor.merge_nodes L n g = run_ops (flat_map (node_ops n) L) g.
Proof.
  unfold PhenotypeProcessor.merge_nodes.
  induction L as [|it L IH]; intros g; [done|]. simpl. rewrite run_ops_app, IH.
  by destruct it.
Qed.

Lemma merge_rels_ops L n : ∀ g,
  PhenotypeProcessor.merge_rels L n g = run_ops (flat_map (rel_ops n) L) g.
Proof.
  unfold PhenotypeProcessor.merge_rels.
  induction L as [|it L IH]; intros g; [done|]. simpl. rewrite run_ops_app, IH.
  by destruct it.
Qed.

Lemma process_batch_ops now s batch :
  PhenotypeProcessor._process_batch now s batch
  = {| store := run_ops (batch_ops now (tick s) batch) (store s);
       tick := tick s + batch_ticks batch |}.
Proof.
  unfold PhenotypeProcessor._process_batch, batch_ops, batch_ticks, run.
  rewrite run_ops_app.
  destruct (filter PhenotypeProcessor.is_node_item batch) as [|x nodes] eqn:Hn;
    destruct (filter PhenotypeProcessor.is_relationship batch) as [|y rels] eqn:Hr;
    cbn [store tick]; rewrite ?merge_nodes_ops, ?merge_rels_ops;
    destruct s as [g t]; cbn [store tick]; f_equal; simpl; lia.
Qed.

Lemma foldl_process_batch now B : ∀ s,
  foldl (PhenotypeProcessor._process_batch now) s B
  = {| store := run_ops (batches_ops now (tick s) B) (store s);
       tick := tick s + sum_list (map batch_ticks B) |}.
Proof.
  induction B as [|b B IH]; intros s.
  - destruct s. simpl. f_equal. lia.
  - simpl. rewrite IH, process_batch_ops. cbn [store tick].
    rewrite run_ops_app. f_equal. lia.
Qed.

Lemma merge_annotations_ops L n : ∀ g,
  DiseaseProcessor.merge_annotations L n g = run_ops (flat_map (annotation_ops n) L) g.
Proof.
  unfold DiseaseProcessor.merge_annotations.
  induction L as [|a L IH]; intros g; [done|]. simpl. by rewrite IH.
Qed.

Lemma foldl_process_annotation_batch now B : ∀ s,
  foldl (DiseaseProcessor._process_annotation_batch now) s B
  = {| store := run_ops (annotation_batches_ops now (tick s) B) (store s);
       tick := tick s + length B |}.
Proof.
  induction B as [|b B IH]; intros s.
  - destruct s. simpl. f_equal. lia.
  - simpl. rewrite IH. unfold DiseaseProcessor._process_annotation_batch, run.
    cbn [store tick]. rewrite merge_annotations_ops, run_ops_app. f_equal. lia.
Qed.

Section TermLoop.
Context {S : Type} (pb : S → list PhenotypeProcessor.item → S) (bs : nat) (s0 : S).

Let record (sent : list (list PhenotypeProcessor.item)) (batch : list PhenotypeProcessor.item) :=
  sent ++ [batch].

Lemma step_rel st st' l :
  loop_rel pb s0 st st' →
  match PhenotypeProcessor.step pb bs st l, PhenotypeProcessor.step record bs st' l with
  | Ok a, Ok a' => loop_rel pb s0 a a'
  | Err e, Err e' => e = e'
  | _, _ => False
  end.
Proof.
  destruct st as [ct b s tp rc], st' as [ct' b' s' tp' rc'].
  intros (Hct & Hb & Htp & Hrc & Hs). simpl in *. subst ct' b' tp' rc' s.
  unfold PhenotypeProcessor.step. simpl.
  destruct (decide (PyStr.strip l = "[Term]")) as [_|_].
  - destruct (PhenotypeProcessor.term_records ct) as [recs|e]; simpl; [|done].
    unfold loop_rel. simpl. split_and!; try done.
    destruct (bs <=? length (b ++ recs))%nat; [|done].
    unfold record. by rewrite foldl_app.
  - destruct (PyStr.contains PyStr.colon (PyStr.strip l)); by unfold loop_rel.
Qed.

Lemma loop_rel_loop lines : ∀ st st',
  loop_rel pb s0 st st' →
  loop_rel pb s0 (PhenotypeProcessor.loop pb bs st lines).1
    (PhenotypeProcessor.loop record bs st' lines).1
  ∧ (PhenotypeProcessor.loop pb bs st lines).2
    = (PhenotypeProcessor.loop record bs st' lines).2.
Proof.
  induction lines as [|l lines IH]; intros st st' HR; [done|]. simpl.
  pose proof (step_rel st st' l HR) as Hstep.
  destruct (PhenotypeProcessor.step pb bs st l) as [a|e],
           (PhenotypeProcessor.step record bs st' l) as [a'|e']; try done.
  - by apply IH.
  - simpl. by subst e'.
Qed.

(** [process_obo_file] hands the session the batches the recorder sees, and
    returns the recorder's counters and exception. *)
Lemma process_obo_file_factor lines :
  PhenotypeProcessor.process_obo_file pb bs s0 lines
  = let r := PhenotypeProcessor.process_obo_file record bs [] lines in
    (foldl pb s0 r.1.1, r.1.2, r.2).
Proof.
  unfold PhenotypeProcessor.process_obo_file.
  set (init := {| PhenotypeProcessor.current_term := ∅; PhenotypeProcessor.batch := [];
                  PhenotypeProcessor.session := s0;
                  PhenotypeProcessor.terms_processed := 0;
                  PhenotypeProcessor.relationships_created := 0 |}).
  set (init' := {| PhenotypeProcessor.current_term := ∅; PhenotypeProcessor.batch := [];
                   PhenotypeProcessor.session := ([] : list (list PhenotypeProcessor.item));
                   PhenotypeProcessor.terms_processed := 0;
                   PhenotypeProcessor.relationships_created := 0 |}).
  destruct (loop_rel_loop lines init init') as [HR He]; [by unfold loop_rel|].
  destruct (PhenotypeProcessor.loop pb bs init lines) as [st e],
           (PhenotypeProcessor.loop record bs init' lines) as [st' e'].
  simpl in HR, He. subst e'. destruct HR as (_ & Hb & Htp & Hrc & Hs).
  rewrite Htp, Hrc, <- Hb, Hs.
  destruct e; simpl; [done|].
  destruct (PhenotypeProcessor.batch st); simpl; [done|].
  unfold record. by rewrite foldl_app.
Qed.

End TermLoop.

Section AnnotationLoop.
Context {S : Type} (pb : S → list DiseaseProcessor.annotation → S) (bs : nat) (s0 : S).

Let record (sent : list (list DiseaseProcessor.annotation))
    (batch : list DiseaseProcessor.annotation) := sent ++ [batch].

Lemma annotation_loop_rel rows : ∀ batch s sent n,
  s = foldl pb s0 sent →
  let r := foldl (DiseaseProcessor.step pb bs) (batch, s, n) rows in
  let r' := foldl (DiseaseProcessor.step record bs) (batch, sent, n) rows in
  r.1.1 = r'.1.1 ∧ r.2 = r'.2 ∧ r.1.2 = foldl pb s0 r'.1.2.
Proof.
  induction rows as [|l rows IH]; intros batch s sent n Hs; [done|]. simpl.
  destruct (DiseaseProcessor.parse_line l) as [a|]; [|by apply IH].
  destruct (bs <=? length (batch ++ [a]))%nat; apply IH; [|done].
  unfold record. by rewrite foldl_app, Hs.
Qed.

Lemma process_phenotype_annotations_factor lines :
  DiseaseProcessor.process_phenotype_annotations pb bs s0 lines
  = let r := DiseaseProcessor.process_phenotype_annotations record bs [] lines in
    (foldl pb s0 r.1.1, r.1.2, r.2).
Proof.
  unfold DiseaseProcessor.process_phenotype_annotations.
  destruct lines as [|header rows]; [done|].
  destruct (annotation_loop_rel rows [] s0 [] 0 eq_refl) as (Hb & Hn & Hs).
  destruct (foldl (DiseaseProcessor.step pb bs) ([], s0, 0) rows) as [[batch s] n],
           (foldl (DiseaseProcessor.step record bs) ([], [], 0) rows) as [[batch' sent] n'].
  simpl in *. subst batch' n' s.
  destruct batch; simpl; [done|]. unfold record. by rewrite foldl_app.
Qed.

End AnnotationLoop.

Lemma ingest_ops_spec now bs obo hpoa s :
  store (KnowledgeGraphBuilder.ingest now bs obo hpoa s).1
  = run_ops (ingest_ops now (tick s) bs obo hpoa) (store s)
  ∧ (KnowledgeGraphBuilder.ingest now bs obo hpoa s).2 = ingest_exn bs obo hpoa.
Proof.
  unfold KnowledgeGraphBuilder.ingest, ingest_ops, ingest_exn, term_batches,
    annotation_batches.
  rewrite process_obo_file_factor. cbn zeta.
  destruct (PhenotypeProcessor.process_obo_file _ bs [] obo) as [[B counts] e].
  cbn [fst snd]. rewrite foldl_process_batch.
  destruct e as [e|]; cbn [fst snd store tick].
  - by rewrite app_nil_r.
  - rewrite process_phenotype_annotations_factor. cbn zeta.
    destruct (DiseaseProcessor.process_phenotype_annotations _ bs [] hpoa) as [[B' n] e'].
    cbn [fst snd]. rewrite foldl_process_annotation_batch. cbn [fst snd store tick].
    by rewrite run_ops_app.
Qed.

Lemma props_sim_trans p q r : props_sim p q → props_sim q r → props_sim p r.
Proof.
  intros [D1 V1] [D2 V2]. split; [congruence|]. intros a Ha. by rewrite V1, V2.
Qed.

Lemma props_sim_insert (m : props) ts v :
  is_timestamp ts → is_Some (m !! ts) → props_sim m (<[ts := v]> m).
Proof.
  intros Hts Hm. split.
  - rewrite dom_insert_L. apply elem_of_dom in Hm. set_solver.
  - intros a Ha. rewrite lookup_insert_ne; [done|]. intros <-. by apply Ha.
Qed.

Lemma node_kvs_sim n n' it :
  props_sim (PhenotypeProcessor.node_kvs n it) (PhenotypeProcessor.node_kvs n' it).
Proof.
  destruct it as [id name definition synonyms category comment xrefs|]; [|apply props_sim_refl].
  assert (PhenotypeProcessor.node_kvs n'
            (PhenotypeProcessor.Node id name definition synonyms category comment xrefs)
          = <["created_at" := VTime n']>
              (<["modified_at" := VTime n']>
                 (PhenotypeProcessor.node_kvs n
                    (PhenotypeProcessor.Node id name definition synonyms category comment xrefs))))
    as -> by reflexivity.
  eapply props_sim_trans; apply props_sim_insert; try (by eexists); [by right|by left].
Qed.

Lemma rel_kvs_sim n n' :
  props_sim (PhenotypeProcessor.rel_kvs n) (PhenotypeProcessor.rel_kvs n').
Proof.
  assert (PhenotypeProcessor.rel_kvs n'
          = <["created_at" := VTime n']> (PhenotypeProcessor.rel_kvs n)) as -> by reflexivity.
  apply props_sim_insert; [by left|by eexists].
Qed.

Lemma disease_kvs_sim n n' a :
  props_sim (DiseaseProcessor.disease_kvs n a) (DiseaseProcessor.disease_kvs n' a).
Proof.
  assert (DiseaseProcessor.disease_kvs n' a
          = <["modified_at" := VTime n']> (DiseaseProcessor.disease_kvs n a)) as -> by reflexivity.
  apply props_sim_insert; [by right|by eexists].
Qed.

Lemma has_phenotype_kvs_sim n n' a :
  props_sim (DiseaseProcessor.has_phenotype_kvs n a) (DiseaseProcessor.has_phenotype_kvs n' a).
Proof.
  assert (DiseaseProcessor.has_phenotype_kvs n' a
          = <["created_at" := VTime n']> (DiseaseProcessor.has_phenotype_kvs n a))
    as -> by reflexivity.
  apply props_sim_insert; [by left|by eexists].
Qed.

Lemma Forall2_flat_map {A B} (R : B → B → Prop) (f f' : A → list B) (l : list A) :
  (∀ x, Forall2 R (f x) (f' x)) → Forall2 R (flat_map f l) (flat_map f' l).
Proof.
  intros Hf. induction l as [|x l IH]; [constructor|]. simpl. by apply Forall2_app.
Qed.

Lemma Forall_flat_map_all {A B} (P : B → Prop) (f : A → list B) (l : list A) :
  (∀ x, Forall P (f x)) → Forall P (flat_map f l).
Proof.
  intros Hf. induction l as [|x l IH]; [constructor|]. simpl. by apply Forall_app.
Qed.

Lemma batch_ops_sim now t now' t' b :
  Forall2 op_sim (batch_ops now t b) (batch_ops now' t' b).
Proof.
  unfold batch_ops. apply Forall2_app; apply Forall2_flat_map; intros it.
  - destruct it; repeat constructor. apply node_kvs_sim.
  - destruct it; repeat constructor. apply rel_kvs_sim.
Qed.

Lemma batches_ops_sim now now' B : ∀ t t',
  Forall2 op_sim (batches_ops now t B) (batches_ops now' t' B).
Proof.
  induction B as [|b B IH]; intros t t'; [constructor|]. simpl.
  apply Forall2_app; [apply batch_ops_sim|apply IH].
Qed.

Lemma annotation_batches_ops_sim now now' B : ∀ t t',
  Forall2 op_sim (annotation_batches_ops now t B) (annotation_batches_ops now' t' B).
Proof.
  induction B as [|b B IH]; intros t t'; [constructor|]. simpl.
  apply Forall2_app; [|apply IH]. apply Forall2_flat_map. intros a.
  repeat constructor; [apply disease_kvs_sim|apply has_phenotype_kvs_sim].
Qed.

(** Two ingestions of the same files issue the same merges, but for the
    values of the timestamps. *)
Lemma ingest_ops_sim now t now' t' bs obo hpoa :
  Forall2 op_sim (ingest_ops now t bs obo hpoa) (ingest_ops now' t' bs obo hpoa).
Proof.
  unfold ingest_ops. destruct (term_batches bs obo) as [B e].
  apply Forall2_app; [apply batches_ops_sim|].
  destruct e; [constructor|apply annotation_batches_ops_sim].
Qed.

Lemma batches_ops_schemed now B : ∀ t, Forall well_schemed (batches_ops now t B).
Proof.
  induction B as [|b B IH]; intros t; [constructor|]. simpl.
  apply Forall_app. split; [|apply IH]. unfold batch_ops.
  apply Forall_app. split; apply Forall_flat_map_all; intros it; destruct it;
    repeat constructor.
Qed.

Lemma annotation_batches_ops_schemed now B : ∀ t,
  Forall well_schemed (annotation_batches_ops now t B).
Proof.
  induction B as [|b B IH]; intros t; [constructor|]. simpl.
  apply Forall_app. split; [|apply IH].
  apply Forall_flat_map_all. intros a. repeat constructor.
Qed.

Lemma ingest_ops_schemed now t bs obo hpoa :
  Forall well_schemed (ingest_ops now t bs obo hpoa).
Proof.
  unfold ingest_ops. destruct (term_batches bs obo) as [B e].
  apply Forall_app. split; [apply batches_ops_schemed|].
  destruct e; [constructor|apply annotation_batches_ops_schemed].
Qed.

(** ** Helper lemmas: two runs from one store *)

Lemma props_sim_union2 (k k' p p' : props) :
  props_sim k k' → props_sim p p' → props_sim (k ∪ p) (k' ∪ p').
Proof.
  intros [Dk Vk] [Dp Vp]. split.
  - by rewrite !dom_union_L, Dk, Dp.
  - intros a Ha. by rewrite !lookup_union, (Vk a Ha), (Vp a Ha).
Qed.

Lemma upsert_Forall2 {A} (R : A → A → Prop) (m m' : A → bool) (u u' : A → A)
    (f f' : A) (l l' : list A) :
  Forall2 R l l' → (∀ x y, R x y → m x = m' y) → (∀ x y, R x y → R (u x) (u' y)) →
  R f f' → Forall2 R (upsert m u f l) (upsert m' u' f' l').
Proof.
  intros Hl Hm Hu Hf. unfold upsert.
  assert (existsb m l = existsb m' l') as ->.
  { induction Hl as [|x y l l' Hxy _ IH]; [done|]. simpl. by rewrite (Hm x y Hxy), IH. }
  destruct (existsb m' l').
  - induction Hl as [|x y l l' Hxy _ IH]; [constructor|]. simpl. constructor; [|done].
    rewrite (Hm x y Hxy). destruct (m' y); auto.
  - apply Forall2_app; [done|]. by repeat constructor.
Qed.

Lemma find_Forall2 {A} (R : A → A → Prop) (P P' : A → bool) (l l' : list A) :
  Forall2 R l l' → (∀ x y, R x y → P x = P' y) →
  option_Forall2 R (find P l) (find P' l').
Proof.
  intros Hl HP. induction Hl as [|x y l l' Hxy _ IH]; [constructor|]. simpl.
  rewrite (HP x y Hxy). destruct (P' y); [by constructor|done].
Qed.

Lemma node_sim_keys g h :
  Forall2 node_sim (nodes g) (nodes h) → map nkey (nodes g) = map nkey (nodes h).
Proof.
  induction 1 as [|n m l l' [Hk _] _ IH]; [done|]. simpl. by rewrite Hk, IH.
Qed.

Lemma rel_sim_keys g h :
  Forall2 rel_sim (rels g) (rels h) → map rkey (rels g) = map rkey (rels h).
Proof.
  induction 1 as [|n m l l' [Hk _] _ IH]; [done|]. simpl. by rewrite Hk, IH.
Qed.

Lemma graph_sim_refl g : graph_sim g g.
Proof.
  split; apply Forall_Forall2_diag, Forall_forall; intros x _; split;
    (done || apply props_sim_refl).
Qed.

Lemma apply_op_sim o o' g h :
  graph_sim g h → op_sim o o' → graph_sim (apply_op o g) (apply_op o' h).
Proof.
  intros [Hn Hr] Ho.
  destruct o as [k kvs|t a b kvs], o' as [k' kvs'|t' a' b' kvs']; simpl in Ho; try done.
  - destruct Ho as [<- Hkvs]. split; [|done]. simpl. apply upsert_Forall2; try done.
    + intros n m [Hk _]. unfold is_node. by rewrite Hk.
    + intros n m [Hk Hp]. split; [done|]. simpl. unfold set_props.
      by apply props_sim_union2.
    + split; [done|]. simpl. unfold set_props. apply props_sim_union2; [done|].
      apply props_sim_refl.
  - destruct Ho as (<- & <- & <- & Hkvs). simpl. unfold merge_rel.
    rewrite !has_node_elem, (node_sim_keys g h Hn).
    destruct (bool_decide _ && bool_decide _); [|done]. split; [done|]. simpl.
    apply upsert_Forall2; try done.
    + intros r q [Hk _]. unfold is_rel. by rewrite Hk.
    + intros r q [Hk Hp]. split; [done|]. simpl. unfold set_props.
      by apply props_sim_union2.
    + split; [done|]. simpl. unfold set_props. apply props_sim_union2; [done|].
      apply props_sim_refl.
Qed.

Lemma run_ops_sim O O' : ∀ g h,
  graph_sim g h → Forall2 op_sim O O' → graph_sim (run_ops O g) (run_ops O' h).
Proof.
  intros g h Hg HO. revert g h Hg.
  induction HO as [|o o' O O' Ho _ IH]; intros g h Hg; [done|]. simpl.
  apply IH. by apply apply_op_sim.
Qed.

Lemma graph_sim_same g h : graph_sim g h → Spec.same_up_to_timestamps g h.
Proof.
  intros [Hn Hr]. split_and!.
  - by apply node_sim_keys.
  - by apply rel_sim_keys.
  - intros k. unfold node_props.
    destruct (find_Forall2 node_sim (is_node k) (is_node k) _ _ Hn) as [n m [_ Hp]|].
    + intros n m [Hk _]. unfold is_node. by rewrite Hk.
    + by constructor.
    + constructor.
  - intros t a b. unfold rel_props.
    destruct (find_Forall2 rel_sim (is_rel t a b) (is_rel t a b) _ _ Hr) as [r q [_ Hp]|].
    + intros r q [Hk _]. unfold is_rel. by rewrite Hk.
    + by constructor.
    + constructor.
Qed.

(** ** The second run *)

(** C6, as stated, fails in both readings.  Run again on the store the
    first run left (batch size 2, a clock that always reads 0), the
    ingestion adds the [IS_A] relationship from [HP:0000003] to its parent
    [HP:0000001]: the first run dropped it, the parent being upserted in a
    later batch.  Run twice from the same empty store at different clock
    readings, it leaves different [created_at] values. *)
Lemma C6_second_run_differs :
  let ingest now s := KnowledgeGraphBuilder.ingest now 2 Inputs.forward_refs
                        Inputs.one_annotation s in
  let first := (ingest (λ _, 0) Inputs.fresh).1 in
  let second := (ingest (λ _, 0) first).1 in
  let later := (ingest (λ _, 1) Inputs.fresh).1 in
  (has_rel IS_A (Phenotype, "HP:0000003") (Phenotype, "HP:0000001") (store first) = false
   ∧ has_rel IS_A (Phenotype, "HP:0000003") (Phenotype, "HP:0000001") (store second) = true
   ∧ store second ≠ store first)
  ∧ (node_prop (Phenotype, "HP:0000003") "created_at" (store first) = Some (VTime 0)
     ∧ node_prop (Phenotype, "HP:0000003") "created_at" (store later) = Some (VTime 1)
     ∧ store later ≠ store first).
Proof.
  intros ingest first second later.
  assert (has_rel IS_A (Phenotype, "HP:0000003") (Phenotype, "HP:0000001") (store first)
          = false) as H1 by (vm_compute; reflexivity).
  assert (has_rel IS_A (Phenotype, "HP:0000003") (Phenotype, "HP:0000001") (store second)
          = true) as H2 by (vm_compute; reflexivity).
  assert (node_prop (Phenotype, "HP:0000003") "created_at" (store first) = Some (VTime 0))
    as H3 by (vm_compute; reflexivity).
  assert (node_prop (Phenotype, "HP:0000003") "created_at" (store later) = Some (VTime 1))
    as H4 by (vm_compute; reflexivity).
  split; (split_and!; [eassumption|eassumption|]).
  - intros Heq. rewrite Heq, H1 in H2. discriminate H2.
  - intros Heq. rewrite Heq, H3 in H4. discriminate H4.
Qed.

(** C6, amended.  On a store whose relationships join nodes of the store:
    - two ingestions of the same files end with the same exception or
      none, whatever the clock and the store;
    - run from the same store at different clock readings, they leave the
      same nodes and relationships with the same properties, but for the
      values of [created_at] and [modified_at];
    - run again on the store the first run left, the ingestion creates no
      node, changes no node property but the timestamps, keeps every
      relationship of the first run with its properties but the
      timestamps, and may add relationships after them;
    - neither run creates a second node with one label and [id] or a second
      relationship of one type between two nodes. *)
Theorem C6_ingestion_rerun now now' batch_size hp_obo phenotype_hpoa s :
  Spec.joined (store s) →
  let first := KnowledgeGraphBuilder.ingest now batch_size hp_obo phenotype_hpoa s in
  let other := KnowledgeGraphBuilder.ingest now' batch_size hp_obo phenotype_hpoa s in
  let second :=
    KnowledgeGraphBuilder.ingest now' batch_size hp_obo phenotype_hpoa first.1 in
  (other.2 = first.2 ∧ second.2 = first.2)
  ∧ Spec.same_up_to_timestamps (store first.1) (store other.1)
  ∧ (map nkey (nodes (store second.1)) = map nkey (nodes (store first.1))
     ∧ (∀ k, option_Forall2 props_sim (node_props k (store first.1))
               (node_props k (store second.1)))
     ∧ (∃ new, map rkey (rels (store second.1)) = map rkey (rels (store first.1)) ++ new)
     ∧ (∀ t a b ps1, rel_props t a b (store first.1) = Some ps1 →
          ∃ ps2, rel_props t a b (store second.1) = Some ps2 ∧ props_sim ps1 ps2))
  ∧ (Spec.unique_nodes (store s) → Spec.unique_rels (store s) →
     (Spec.unique_nodes (store first.1) ∧ Spec.unique_rels (store first.1))
     ∧ (Spec.unique_nodes (store second.1) ∧ Spec.unique_rels (store second.1))).
Proof.
  intros Hj first other second.
  destruct (ingest_ops_spec now batch_size hp_obo phenotype_hpoa s) as [S1 E1].
  destruct (ingest_ops_spec now' batch_size hp_obo phenotype_hpoa s) as [S1' E1'].
  destruct (ingest_ops_spec now' batch_size hp_obo phenotype_hpoa first.1) as [S2 E2].
  fold first in S1, E1. fold other in S1', E1'. fold second in S2, E2.
  pose proof (run_ops_twice _ _ (store s) Hj (ingest_ops_schemed _ _ _ _ _)
                (ingest_ops_sim now (tick s) now' (tick first.1)
                   batch_size hp_obo phenotype_hpoa)) as Htwice.
  cbn zeta in Htwice. rewrite <- S1, <- S2 in Htwice.
  split; [|split; [|split]].
  - split; [by rewrite E1, E1'|by rewrite E1, E2].
  - rewrite S1, S1'. apply graph_sim_same, run_ops_sim; [apply graph_sim_refl|].
    apply ingest_ops_sim.
  - exact Htwice.
  - intros Hn Hr.
    destruct (unique_run_ops (ingest_ops now (tick s) batch_size hp_obo phenotype_hpoa)
                (store s) Hn Hr) as [Hn1 Hr1].
    rewrite <- S1 in Hn1, Hr1. split; [done|].
    rewrite S2. by apply unique_run_ops.
Qed.

(** C6 amended, on the file with the later-listed parents: the second run
    adds no node and leaves distinct keys distinct. *)
Lemma C6_ingestion_rerun_witness :
  let first := KnowledgeGraphBuilder.ingest Inputs.clock 2 Inputs.forward_refs
                 Inputs.one_annotation Inputs.fresh in
  let second := KnowledgeGraphBuilder.ingest Inputs.clock 2 Inputs.forward_refs
                  Inputs.one_annotation first.1 in
  Spec.joined (store Inputs.fresh)
  ∧ map nkey (nodes (store second.1)) = map nkey (nodes (store first.1))
  ∧ Spec.unique_nodes (store second.1) ∧ Spec.unique_rels (store second.1).
Proof.
  intros first second.
  assert (Spec.joined (store Inputs.fresh)) as Hj by (by intros r ?%elem_of_nil).
  destruct (C6_ingestion_rerun Inputs.clock Inputs.clock 2 Inputs.forward_refs
              Inputs.one_annotation Inputs.fresh Hj) as (_ & _ & (Hkeys & _) & Huniq).
  split_and!; [exact Hj|exact Hkeys|apply Huniq; constructor..].
Defined.

(** ** The queries of the in-memory index *)

Lemma bfs_frontier next visited queue y m :
  bfs_closed next visited queue → rtc (bfs_step next) y m →
  y ∈ visited → m ∉ visited → ∃ q, q ∈ queue ∧ rtc (bfs_step next) q m.
Proof.
  intros Hc Hr. induction Hr as [y|y z m Hyz Hzm IH]; intros Hy Hm; [done|].
  destruct (decide (y ∈ queue)) as [Hq|Hq].
  - exists y. split; [done|]. by eapply rtc_l.
  - apply IH; [|done]. by apply (Hc y).
Qed.

Lemma bfs_unseen_app univ visited new :
  NoDup new → (∀ y, y ∈ new → y ∈ univ ∧ y ∉ visited) →
  bfs_unseen univ (visited ++ new) + length new = bfs_unseen univ visited.
Proof.
  intros Hnd Hnew. unfold bfs_unseen.
  rewrite list_to_set_app_L, <- (size_list_to_set (C := gset string) new Hnd).
  set (U := list_to_set univ : gset string). set (V := list_to_set visited : gset string).
  set (N := list_to_set new : gset string).
  assert (N ⊆ U ∖ V) as Hsub.
  { intros y Hy. apply elem_of_list_to_set in Hy. destruct (Hnew y Hy) as [Hu Hv].
    subst U V. apply elem_of_difference. by rewrite !elem_of_list_to_set. }
  replace (U ∖ (V ∪ N)) with ((U ∖ V) ∖ N) by set_solver.
  pose proof (size_union_alt N (U ∖ V)) as E.
  replace (N ∪ (U ∖ V)) with (U ∖ V) in E by set_solver. lia.
Qed.

Lemma elem_of_bfs_new (next : string → list string) (visited : list string) n y :
  y ∈ remove_dups (filter (λ m, bool_decide (m ∉ visited)) (next n))
  ↔ y ∈ next n ∧ y ∉ visited.
Proof.
  rewrite elem_of_remove_dups, list_elem_of_filter, bool_decide_spec. tauto.
Qed.

(** With enough fuel the search returns exactly the nodes not discovered
    before that the queue reaches. *)
Lemma bfs_spec next univ :
  (∀ x y, y ∈ next x → y ∈ univ) →
  ∀ fuel visited queue,
    queue ⊆ visited → bfs_closed next visited queue →
    (length queue + bfs_unseen univ visited ≤ fuel)%nat →
    ∀ m, m ∈ nx.bfs next fuel visited queue
         ↔ (m ∉ visited) ∧ ∃ q, q ∈ queue ∧ rtc (bfs_step next) q m.
Proof.
  intros Huniv. induction fuel as [|fuel IH]; intros visited queue Hsub Hc Hfuel m.
  { destruct queue; [|simpl in Hfuel; lia]. simpl. split.
    - by intros ?%elem_of_nil.
    - by intros (_ & q & ?%elem_of_nil & _). }
  destruct queue as [|n rest].
  { simpl. split.
    - by intros ?%elem_of_nil.
    - by intros (_ & q & ?%elem_of_nil & _). }
  cbn [nx.bfs].
  set (new := remove_dups (filter (λ m, bool_decide (m ∉ visited)) (next n))).
  assert (∀ y, y ∈ new ↔ y ∈ next n ∧ y ∉ visited) as Hnew
    by (intros y; apply elem_of_bfs_new).
  assert (NoDup new) as Hnd by apply NoDup_remove_dups.
  assert (n ∈ visited) as Hn by (apply Hsub; left).
  assert (rest ++ new ⊆ visited ++ new) as Hsub'.
  { intros x [Hx|Hx]%elem_of_app; apply elem_of_app; [left|by right].
    apply Hsub. by right. }
  assert (bfs_closed next (visited ++ new) (rest ++ new)) as Hc'.
  { intros x Hx Hxq y Hy. apply elem_of_app.
    destruct (decide (y ∈ visited)) as [|Hyv]; [by left|right].
    apply elem_of_app in Hx as [Hx|Hx]; [|destruct Hxq; apply elem_of_app; by right].
    destruct (decide (x = n)) as [->|Hxn]; [by apply Hnew|].
    destruct Hyv. apply (Hc x Hx); [|done].
    intros [->|Hr]%elem_of_cons; [done|]. apply Hxq, elem_of_app. by left. }
  assert (length (rest ++ new) + bfs_unseen univ (visited ++ new) ≤ fuel)%nat as Hfuel'.
  { pose proof (bfs_unseen_app univ visited new Hnd) as E.
    rewrite length_app. simpl in Hfuel.
    specialize (E (λ y Hy, conj (Huniv n y (proj1 (proj1 (Hnew y) Hy)))
                                 (proj2 (proj1 (Hnew y) Hy)))). lia. }
  rewrite elem_of_app, (IH _ _ Hsub' Hc' Hfuel' m). split.
  - intros [Hm|(Hm & q & Hq & Hqm)].
    + apply Hnew in Hm as [Hm Hv]. split; [done|]. exists n. split; [by left|].
      by apply rtc_once.
    + split; [intros ?; apply Hm, elem_of_app; by left|].
      apply elem_of_app in Hq as [Hq|Hq].
      * exists q. split; [by right|done].
      * exists n. split; [by left|]. eapply rtc_l; [|done]. by apply Hnew in Hq as [? _].
  - intros (Hm & q & Hq & Hqm).
    destruct (decide (m ∈ new)) as [|Hmn]; [by left|right].
    assert (m ∉ visited ++ new) as Hm' by (by intros [?|?]%elem_of_app).
    split; [done|]. apply (bfs_frontier next (visited ++ new) (rest ++ new) q m); try done.
    apply elem_of_app. left. by apply Hsub.
Qed.

(** Whatever the fuel, the search lists no node twice and none it had
    discovered before. *)
Lemma bfs_NoDup next : ∀ fuel visited queue,
  NoDup (nx.bfs next fuel visited queue)
  ∧ ∀ m, m ∈ nx.bfs next fuel visited queue → m ∉ visited.
Proof.
  induction fuel as [|fuel IH]; intros visited queue.
  { simpl. destruct queue; split; try constructor; by intros m ?%elem_of_nil. }
  destruct queue as [|n rest].
  { simpl. split; [constructor|by intros m ?%elem_of_nil]. }
  cbn [nx.bfs].
  set (new := remove_dups (filter (λ m, bool_decide (m ∉ visited)) (next n))).
  destruct (IH (visited ++ new) (rest ++ new)) as [Hnd Hfresh]. split.
  - apply NoDup_app. split_and!; [apply NoDup_remove_dups| |done].
    intros m Hm Hm'. apply (Hfresh m Hm'), elem_of_app. by right.
  - intros m [Hm|Hm]%elem_of_app.
    + by apply elem_of_bfs_new in Hm as [_ ?].
    + intros ?. apply (Hfresh m Hm), elem_of_app. by left.
Qed.

Lemma elem_of_successors G n m : m ∈ nx.successors G n ↔ edge G n m.
Proof.
  unfold nx.successors, edge. rewrite list_elem_of_fmap. split.
  - intros ([u v] & -> & [Hu Hin]%list_elem_of_filter). simpl in *.
    by apply bool_decide_spec in Hu as ->.
  - intros Hin. exists (n, m). split; [done|]. apply list_elem_of_filter.
    split; [by apply bool_decide_spec|done].
Qed.

Lemma elem_of_predecessors G n m : m ∈ nx.predecessors G n ↔ edge G m n.
Proof.
  unfold nx.predecessors, edge. rewrite list_elem_of_fmap. split.
  - intros ([u v] & -> & [Hv Hin]%list_elem_of_filter). simpl in *.
    by apply bool_decide_spec in Hv as ->.
  - intros Hin. exists (m, n). split; [done|]. apply list_elem_of_filter.
    split; [by apply bool_decide_spec|done].
Qed.

Lemma rtc_successors G a b : rtc (bfs_step (nx.successors G)) a b ↔ rtc (edge G) a b.
Proof.
  split; induction 1 as [|x y z Hxy _ IH]; try done;
    (eapply rtc_l; [|exact IH]); by apply elem_of_successors.
Qed.

Lemma rtc_predecessors G a b : rtc (bfs_step (nx.predecessors G)) a b ↔ rtc (edge G) b a.
Proof.
  split.
  - induction 1 as [|x y z Hxy _ IH]; [done|].
    eapply rtc_r; [exact IH|]. by apply elem_of_predecessors.
  - revert a. apply (rtc_ind_r (λ a, rtc (bfs_step (nx.predecessors G)) a b)); [done|].
    intros y z _ Hyz IH. eapply rtc_l; [|exact IH]. by apply elem_of_predecessors.
Qed.

Lemma size_list_to_set_le (l : list string) :
  (size (list_to_set l : gset string) ≤ length l)%nat.
Proof.
  induction l as [|x l IH]; [done|]. simpl.
  pose proof (size_union_alt ({[x]} : gset string) (list_to_set l)) as E.
  pose proof (subseteq_size (list_to_set l ∖ {[x]}) (list_to_set l : gset string)) as Hle.
  rewrite size_singleton in E. rewrite E.
  assert (list_to_set l ∖ {[x]} ⊆ (list_to_set l : gset string)) as Hs by set_solver.
  specialize (Hle Hs). lia.
Qed.

(** The search from [source] alone, with one more step than [univ] has
    nodes: the nodes other than [source] it reaches. *)
Lemma bfs_from_source next univ source fuel m :
  (∀ x y, y ∈ next x → y ∈ univ) → (length univ < fuel)%nat →
  m ∈ nx.bfs next fuel [source] [source] ↔ m ≠ source ∧ rtc (bfs_step next) source m.
Proof.
  intros Huniv Hfuel.
  rewrite (bfs_spec next univ Huniv fuel [source] [source]).
  - rewrite list_elem_of_singleton. split.
    + by intros (Hm & q & ->%list_elem_of_singleton & Hr).
    + intros [Hm Hr]. split; [done|]. exists source. by rewrite list_elem_of_singleton.
  - done.
  - intros x Hx Hxq. done.
  - unfold bfs_unseen. simpl.
    pose proof (size_list_to_set_le univ) as Hle.
    pose proof (subseteq_size ((list_to_set univ : gset string) ∖ list_to_set [source])
                  (list_to_set univ)) as Hd.
    assert ((list_to_set univ : gset string) ∖ list_to_set [source] ⊆ list_to_set univ)
      as Hs by set_solver.
    specialize (Hd Hs). simpl in Hd. lia.
Qed.

(** Extra (reachability of the index queries).  [get_ancestors] returns,
    without repetition, exactly the nodes other than [term_id] from which
    a path of edges leads to [term_id], and [get_descendants] exactly the
    nodes other than [term_id] that a path of edges from [term_id] leads
    to; both return the empty list for an identifier that is no node of
    the graph.  (The edges [parse_obo] adds lead from a term to its [is_a]
    parents.) *)
Theorem index_queries_reach self term_id :
  (NoDup (HPOParser.get_ancestors self term_id)
   ∧ ∀ m, m ∈ HPOParser.get_ancestors self term_id
          ↔ nx.has_node (HPOParser.graph self) term_id = true
            ∧ m ≠ term_id ∧ rtc (edge (HPOParser.graph self)) m term_id)
  ∧ (NoDup (HPOParser.get_descendants self term_id)
     ∧ ∀ m, m ∈ HPOParser.get_descendants self term_id
            ↔ nx.has_node (HPOParser.graph self) term_id = true
              ∧ m ≠ term_id ∧ rtc (edge (HPOParser.graph self)) term_id m).
Proof.
  unfold HPOParser.get_ancestors, HPOParser.get_descendants, nx.ancestors, nx.descendants.
  set (G := HPOParser.graph self).
  destruct (nx.has_node G term_id).
  - split; (split; [apply bfs_NoDup|intros m]).
    + rewrite (bfs_from_source _ (map fst (nx.gedges G))).
      * rewrite rtc_predecessors. tauto.
      * intros x y. unfold nx.predecessors. rewrite !list_elem_of_fmap.
        intros (e & -> & [_ He]%list_elem_of_filter). by exists e.
      * rewrite length_map. lia.
    + rewrite (bfs_from_source _ (map snd (nx.gedges G))).
      * rewrite rtc_successors. tauto.
      * intros x y. unfold nx.successors. rewrite !list_elem_of_fmap.
        intros (e & -> & [_ He]%list_elem_of_filter). by exists e.
      * rewrite length_map. lia.
  - split; (split; [constructor|intros m; split; [by intros ?%elem_of_nil|by intros [? _]]]).
Qed.

Lemma edge_add_edge u v G c q : edge (nx.add_edge u v G) c q ↔ edge G c q ∨ (c = u ∧ q = v).
Proof.
  unfold edge, nx.add_edge. cbn [nx.gedges].
  set (G' := (if nx.has_node (if nx.has_node G u then G else _) v then _ else _)).
  assert (nx.gedges G' = nx.gedges G) as ->.
  { subst G'. destruct (nx.has_node G u); by destruct (nx.has_node _ v). }
  case_bool_decide as Hin.
  - split; [by left|]. by intros [?|[-> ->]].
  - rewrite elem_of_app, list_elem_of_singleton. split.
    + intros [?|[= -> ->]]; [by left|by right].
    + intros [?|[-> ->]]; [by left|by right].
Qed.

Lemma edge_add_parents term_id (parents : list string) c q : ∀ G,
  edge (foldl (λ G parent, nx.add_edge term_id parent G) G parents) c q
  ↔ edge G c q ∨ (c = term_id ∧ q ∈ parents).
Proof.
  induction parents as [|parent parents IH]; intros G; simpl.
  - split; [by left|]. by intros [?|[_ ?%elem_of_nil]].
  - rewrite IH, edge_add_edge, elem_of_cons. naive_solver.
Qed.

(** Extra (the edges of the index).  The graph [parse_obo] builds has an
    edge from [c] to [q] exactly when it had one before or a stored term
    with identifier [c] lists [q] among its [is_a] parents: edges lead from
    the child to the parent. *)
Theorem build_graph_edges terms c q : ∀ G,
  edge (HPOParser.build_graph terms G) c q
  ↔ edge G c q ∨ ∃ t, (c, t) ∈ terms ∧ q ∈ default [] (HPOParser.t_is_a t).
Proof.
  unfold HPOParser.build_graph.
  induction terms as [|[term_id t] terms IH]; intros G; simpl.
  - split; [by left|]. by intros [?|(t & ?%elem_of_nil & _)].
  - rewrite IH, edge_add_parents. unfold edge at 2, nx.add_node. cbn [nx.gedges].
    fold (edge G c q). split.
    + intros [[?|[-> Hq]]|(t' & Hin & Hq)]; [by left| |].
      * right. exists t. split; [by left|done].
      * right. exists t'. split; [by right|done].
    + intros [?|(t' & [[= -> ->]|Hin]%elem_of_cons & Hq)]; [by left; left| |].
      * left. by right.
      * right. by exists t'.
Qed.

(** ** Nodes before relationships within a batch *)

Lemma has_rel_run_ops O t a b g :
  has_rel t a b g = true → has_rel t a b (run_ops O g) = true.
Proof.
  rewrite !has_rel_elem, !bool_decide_eq_true. intros Hin.
  destruct (rel_keys_run_ops O g) as (new & ->). apply elem_of_app. by left.
Qed.

Lemma has_rel_run_ops_merged t a b kvs O : ∀ g,
  MergeRel t a b kvs ∈ O → has_node a g = true → has_node b g = true →
  has_rel t a b (run_ops O g) = true.
Proof.
  induction O as [|o O IH]; intros g Hin Ha Hb; [by apply elem_of_nil in Hin|].
  apply elem_of_cons in Hin as [<-|Hin]; simpl.
  - apply has_rel_run_ops. unfold merge_rel. rewrite Ha, Hb. simpl.
    rewrite has_rel_elem, bool_decide_eq_true, rel_keys_merge_rel_bound.
    destruct (has_rel t a b g) eqn:Hr.
    + by rewrite has_rel_elem, bool_decide_eq_true in Hr.
    + apply elem_of_app. right. by left.
  - apply IH; [done|by apply has_node_apply_op..].
Qed.

Lemma elem_of_node_ops now batch id :
  Some id ∈ map node_id batch →
  ∃ kvs, MergeNode (Phenotype, id) kvs
         ∈ flat_map (node_ops now) (filter PhenotypeProcessor.is_node_item batch).
Proof.
  intros (it & Hid & Hin)%list_elem_of_fmap.
  destruct it as [id' name definition synonyms category comment xrefs|]; [|done].
  injection Hid as ->. eexists. apply list_elem_of_In, in_flat_map.
  eexists. split; [apply list_elem_of_In, list_elem_of_filter; split; [|exact Hin]; done|].
  by left.
Qed.

(** Extra (nodes before relationships).  [_process_batch] upserts the
    nodes of a batch before it merges the relationships of the batch: a
    relationship record whose two end points are upserted by node records
    of the same batch (or are in the store already) is in the store after
    the batch, wherever the records stand in the batch. *)
Theorem process_batch_nodes_first now s batch child_id parent_id :
  PhenotypeProcessor.Relationship child_id parent_id ∈ batch →
  Some child_id ∈ map node_id batch ∨ has_node (Phenotype, child_id) (store s) = true →
  Some parent_id ∈ map node_id batch ∨ has_node (Phenotype, parent_id) (store s) = true →
  has_rel IS_A (Phenotype, child_id) (Phenotype, parent_id)
    (store (PhenotypeProcessor._process_batch now s batch)) = true.
Proof.
  intros Hrel Hc Hp. rewrite process_batch_ops. cbn [store].
  unfold batch_ops. rewrite run_ops_app.
  assert (∀ id, Some id ∈ map node_id batch ∨ has_node (Phenotype, id) (store s) = true →
            has_node (Phenotype, id)
              (run_ops (flat_map (node_ops (now (tick s)))
                          (filter PhenotypeProcessor.is_node_item batch)) (store s)) = true)
    as Hnodes.
  { intros id [Hin|Hin].
    - destruct (elem_of_node_ops (now (tick s)) batch id Hin) as (kvs & Hop).
      by apply (has_node_run_ops_merged _ kvs).
    - by apply has_node_run_ops. }
  eapply has_rel_run_ops_merged; [|by apply Hnodes..].
  apply list_elem_of_In, in_flat_map.
  exists (PhenotypeProcessor.Relationship child_id parent_id).
  split; [|by left]. apply list_elem_of_In, list_elem_of_filter. by split.
Qed.

Lemma process_batch_nodes_first_witness :
  has_rel IS_A (Phenotype, "HP:0000002") (Phenotype, "HP:0000001")
    (store (PhenotypeProcessor._process_batch Inputs.clock Inputs.fresh
              [ PhenotypeProcessor.Relationship "HP:0000002" "HP:0000001";
                PhenotypeProcessor.Node "HP:0000002" (VS "Abnormality of body height") ""
                  (VL []) "Other" (VS "") (VL []);
                PhenotypeProcessor.Node "HP:0000001" (VS "All") "" (VL []) "Other"
                  (VS "") (VL []) ])) = true.
Proof.
  apply process_batch_nodes_first.
  - by left.
  - left. right. by left.
  - left. right. right. by left.
Defined.

(** ** The block after the last marker *)

Section LastBlock.
Context {S : Type} (process_batch : S → list PhenotypeProcessor.item → S) (batch_size : nat).

Lemma loop_app l1 l2 : ∀ st,
  PhenotypeProcessor.loop process_batch batch_size st (l1 ++ l2)
  = match PhenotypeProcessor.loop process_batch batch_size st l1 with
    | (st', None) => PhenotypeProcessor.loop process_batch batch_size st' l2
    | r => r
    end.
Proof.
  induction l1 as [|l l1 IH]; intros st; [done|]. simpl.
  by destruct (PhenotypeProcessor.step process_batch batch_size st l).
Qed.

(** Lines without marker change the block being read and nothing else. *)
Lemma loop_no_marker tail : ∀ st,
  Forall (λ l, PyStr.strip l ≠ "[Term]") tail →
  ∃ ct, PhenotypeProcessor.loop process_batch batch_size st tail
        = ({| PhenotypeProcessor.current_term := ct;
              PhenotypeProcessor.batch := PhenotypeProcessor.batch st;
              PhenotypeProcessor.session := PhenotypeProcessor.session st;
              PhenotypeProcessor.terms_processed := PhenotypeProcessor.terms_processed st;
              PhenotypeProcessor.relationships_created :=
                PhenotypeProcessor.relationships_created st |}, None).
Proof.
  induction tail as [|l tail IH]; intros st Hno.
  - exists (PhenotypeProcessor.current_term st). by destruct st.
  - apply Forall_cons in Hno as [Hl Hno]. simpl. unfold PhenotypeProcessor.step.
    destruct (decide (PyStr.strip l = "[Term]")) as [|_]; [done|].
    destruct (PyStr.contains PyStr.colon (PyStr.strip l)).
    + destruct (IH {| PhenotypeProcessor.current_term :=
                        PhenotypeProcessor.add_field (PhenotypeProcessor.current_term st)
                          (PyStr.strip l);
                      PhenotypeProcessor.batch := PhenotypeProcessor.batch st;
                      PhenotypeProcessor.session := PhenotypeProcessor.session st;
                      PhenotypeProcessor.terms_processed :=
                        PhenotypeProcessor.terms_processed st;
                      PhenotypeProcessor.relationships_created :=
                        PhenotypeProcessor.relationships_created st |} Hno) as (ct & ->).
      by exists ct.
    + apply (IH st Hno).
Qed.

End LastBlock.

(** Extra (the block after the last marker).  Whatever follows the last
    [[Term]] line of the file has no effect on what [process_obo_file]
    hands to the session, counts or raises: the term of the last block is
    never sent. *)
Theorem process_obo_file_drops_last_block {S}
    (process_batch : S → list PhenotypeProcessor.item → S) batch_size s lines tail :
  Forall (λ l, PyStr.strip l ≠ "[Term]") tail →
  PhenotypeProcessor.process_obo_file process_batch batch_size s (lines ++ tail)
  = PhenotypeProcessor.process_obo_file process_batch batch_size s lines.
Proof.
  intros Hno. unfold PhenotypeProcessor.process_obo_file. rewrite loop_app.
  destruct (PhenotypeProcessor.loop process_batch batch_size _ lines) as [st [e|]]; [done|].
  by destruct (loop_no_marker process_batch batch_size tail st Hno) as (ct & ->).
Qed.

Lemma process_obo_file_drops_last_block_witness :
  PhenotypeProcessor.process_obo_file Inputs.record_batch 1000 []
    (["format-version: 1.2"; ""; "[Term]"] ++ ["id: HP:0000001"; "name: All"])
  = PhenotypeProcessor.process_obo_file Inputs.record_batch 1000 []
      ["format-version: 1.2"; ""; "[Term]"].
Proof.
  apply process_obo_file_drops_last_block.
  repeat constructor; discriminate.
Defined.

(** ** The metrics statement when it is run *)

(** A pass that updates the properties of the listed nodes one by one,
    by a function that reads relationships only and may be applied
    twice. *)
Lemma foldl_update_props (F : graph → key → option (props → props))
    (inner : key → graph → graph) :
  (∀ p g, inner p g = match F g p with Some f => update_node p f g | None => g end) →
  (∀ g g' p, rels g = rels g' → F g p = F g' p) →
  (∀ g p f ps, F g p = Some f → f (f ps) = f ps) →
  ∀ L g q,
    rels (foldl (λ g p, inner p g) g L) = rels g
    ∧ node_props q (foldl (λ g p, inner p g) g L)
      = if decide (q ∈ L)
        then match F g q with Some f => f <$> node_props q g | None => node_props q g end
        else node_props q g.
Proof.
  intros Hinner Hext Hidem. induction L as [|p L IH]; intros g q.
  { split; [done|]. cbn [foldl]. rewrite decide_False; [done|]. by intros ?%elem_of_nil. }
  cbn [foldl]. destruct (IH (inner p g) q) as [Hr Hq].
  assert (rels (inner p g) = rels g) as Hrp.
  { rewrite Hinner. by destruct (F g p). }
  split; [by rewrite Hr|]. rewrite Hq, (Hext _ g q Hrp).
  assert (node_props q (inner p g)
          = if decide (p = q)
            then match F g q with Some f => f <$> node_props q g | None => node_props q g end
            else node_props q g) as ->.
  { rewrite Hinner. destruct (decide (p = q)) as [->|Hne].
    - destruct (F g q) as [f|]; [|done]. rewrite node_props_update_node.
      by rewrite decide_True.
    - destruct (F g p) as [f|]; [|done]. rewrite node_props_update_node.
      by rewrite decide_False. }
  destruct (decide (p = q)) as [->|Hne].
  - rewrite (decide_True (P := q ∈ q :: L)) by (by left).
    destruct (F g q) as [f|] eqn:HF; [|by case_decide].
    case_decide; [|done]. destruct (node_props q g) as [ps|]; [|done]. simpl.
    by rewrite (Hidem g q f ps HF).
  - destruct (decide (q ∈ L)) as [Hin|Hin].
    + rewrite (decide_True (P := q ∈ p :: L)) by (by right). done.
    + rewrite (decide_False (P := q ∈ p :: L)); [done|].
      intros [->|?]%elem_of_cons; done.
Qed.

Lemma und_steps_ext t g g' used a : rels g = rels g' → und_steps t g used a = und_steps t g' used a.
Proof. unfold und_steps, irels. by intros ->. Qed.








(** ** The labels the classifier of [phenotype.py] returns *)

Lemma string_compare_trans : ∀ a b c,
  String.compare a b ≠ Gt → String.compare b c ≠ Gt → String.compare a c ≠ Gt.
Proof.
  induction a as [|x a IH]; intros [|y b] [|z c]; simpl; try done.
  unfold Ascii.compare.
  destruct (N.compare_spec (N_of_ascii x) (N_of_ascii y)) as [Exy|Lxy|Gxy];
    destruct (N.compare_spec (N_of_ascii y) (N_of_ascii z)) as [Eyz|Lyz|Gyz];
    try done; intros Hab Hbc.
  - rewrite Exy, Eyz, N.compare_refl. by apply (IH b c).
  - rewrite Exy. by apply N.compare_lt_iff in Lyz as ->.
  - rewrite <- Eyz. by apply N.compare_lt_iff in Lxy as ->.
  - assert (N_of_ascii x < N_of_ascii z)%N as Hlt by lia.
    by apply N.compare_lt_iff in Hlt as ->.
Qed.

Lemma string_leb_trans a b c :
  String.leb a b = true → String.leb b c = true → String.leb a c = true.
Proof.
  unfold String.leb. intros Hab Hbc.
  pose proof (string_compare_trans a b c) as H.
  destruct (String.compare a b), (String.compare b c), (String.compare a c); try done;
    exfalso; by apply H.
Qed.

(** A range inside another. *)
Lemma in_range_sub a' b' a b s :
  String.leb a' a = true → String.leb b b' = true →
  PhenotypeProcessor.in_range a b s = true → PhenotypeProcessor.in_range a' b' s = true.
Proof.
  unfold PhenotypeProcessor.in_range. intros Ha Hb [H1 H2]%andb_true_iff.
  apply andb_true_iff. split; eapply string_leb_trans; eauto.
Qed.

(** An identifier from the start of a range on and not in it lies beyond
    its end. *)
Lemma in_range_beyond a b s :
  PhenotypeProcessor.in_range a b s = false → String.leb a s = true → String.leb b s = true.
Proof.
  unfold PhenotypeProcessor.in_range. intros Hr Ha. rewrite Ha in Hr. simpl in Hr.
  destruct (String.leb_total b s) as [|Hs]; [done|]. by rewrite Hs in Hr.
Qed.

Ltac live_rule R :=
  match goal with
  | |- (if PhenotypeProcessor.in_range ?a ?b ?s then _ else _) ∈ _ =>
      destruct (PhenotypeProcessor.in_range a b s) eqn:R; [compute_done|]
  end.

Ltac dead_rule R :=
  match type of R with
  | PhenotypeProcessor.in_range ?a' ?b' ?s = false =>
      match goal with
      | |- (if PhenotypeProcessor.in_range ?a ?b s then _ else _) ∈ _ =>
          let H := fresh "H" in
          destruct (PhenotypeProcessor.in_range a b s) eqn:H;
          [exfalso; rewrite (in_range_sub a' b' a b s eq_refl eq_refl H) in R; discriminate
          |clear H]
      end
  end.

Lemma first_match_live s :
  PhenotypeProcessor.first_match PhenotypeProcessor.categories s
  ∈ ["Inheritance"; "Limbs"; "Musculature"; "Blood"; "Immunology";
     "Multisystem Disorder"; "Other"].
Proof.
  unfold PhenotypeProcessor.categories. cbn [PhenotypeProcessor.first_match].
  live_rule R1. repeat dead_rule R1.
  live_rule R11. live_rule R12. repeat dead_rule R1.
  live_rule R16. repeat dead_rule R12. repeat dead_rule R1.
  destruct (PhenotypeProcessor.in_range "HP:0001871" "HP:0002597" s) eqn:R21.
  { exfalso. apply andb_true_iff in R21 as [Hlo Hhi].
    pose proof (in_range_beyond _ _ s R1
                  (string_leb_trans "HP:0000005" "HP:0001871" s eq_refl Hlo)) as H1.
    pose proof (in_range_beyond _ _ s R16 Hlo) as H16.
    unfold PhenotypeProcessor.in_range in R12.
    rewrite (string_leb_trans "HP:0002061" "HP:0002087" s eq_refl H16) in R12.
    by rewrite (string_leb_trans s "HP:0002597" "HP:0003128" Hhi eq_refl) in R12. }
  live_rule R22. dead_rule R22. live_rule R24. compute_done.
Qed.

(** Extra (the labels of [phenotype.py]).  The classifier of
    [phenotype.py] returns one of seven labels and no other: eighteen of
    its twenty-four rules can never win, since every identifier in their
    range is in the range of an earlier rule. *)
Theorem classifier_image c :
  (∃ hpo_id, PhenotypeProcessor._determine_category hpo_id = Ok c)
  ↔ c ∈ ["Inheritance"; "Limbs"; "Musculature"; "Blood"; "Immunology";
         "Multisystem Disorder"; "Other"].
Proof.
  split.
  - intros ([s|[|x l]] & Hc); simpl in Hc.
    + destruct (decide (s = "")); injection Hc as <-; [compute_done|apply first_match_live].
    + injection Hc as <-. compute_done.
    + done.
  - intros Hc. repeat (apply elem_of_cons in Hc as [->|Hc]).
    + by exists (VS "HP:0000005").
    + by exists (VS "HP:0002000").
    + by exists (VS "HP:0002061").
    + by exists (VS "HP:00020600").
    + by exists (VS "HP:0004000").
    + by exists (VS "HP:0032223").
    + by exists (VS "").
    + by apply elem_of_nil in Hc.
Qed.

(** ** The ranges of [graph.py] *)

Lemma graph_categories_sorted :
  StronglySorted (λ r r' : Z * Z * string, (r.1.2 < r'.1.1)%Z) GraphPy.categories.
Proof. repeat constructor. Qed.

(** In a table of ranges that follow each other without overlap, the rule
    whose range holds the number wins. *)
Lemma graph_first_match_disjoint rules :
  StronglySorted (λ r r' : Z * Z * string, (r.1.2 < r'.1.1)%Z) rules →
  ∀ start end_ category n,
    (start, end_, category) ∈ rules → (start ≤ n ≤ end_)%Z →
    GraphPy.first_match rules n = category.
Proof.
  induction 1 as [|[[s0 e0] c0] rules Hs IH Hall];
    intros start end_ category n Hin Hr.
  - by apply elem_of_nil in Hin.
  - simpl. apply elem_of_cons in Hin as [[= -> -> ->]|Hin].
    + by rewrite (proj2 (Z.leb_le _ _)), (proj2 (Z.leb_le _ _)) by lia.
    + rewrite Forall_forall in Hall. specialize (Hall _ Hin). simpl in Hall.
      replace ((s0 <=? n) && (n <=? e0))%Z with false; [by eapply IH|].
      symmetry. apply andb_false_iff. right. apply Z.leb_gt. lia.
Qed.

(** One rule of the table of [graph.py], for a number known to lie below 0
    or above the end of the rule before. *)
Ltac range_step n :=
  match goal with
  | Hacc : (n < 0 ∨ _ < n)%Z
    |- context [if ((?s <=? n) && (n <=? ?e))%Z then _ else _] =>
      let H := fresh "H" in
      destruct ((s <=? n) && (n <=? e))%Z eqn:H;
      [apply andb_true_iff in H as [?%Z.leb_le ?%Z.leb_le]; split; [done|lia]
      |apply andb_false_iff in H; rewrite !Z.leb_gt in H;
       assert (n < 0 ∨ e < n)%Z by lia; clear H Hacc]
  end.

(** Extra (the ranges of [graph.py]).  When the number after the colon
    can be read, the classifier of [graph.py] returns the category of the
    rule whose range holds the number, whichever place the rule has in the
    table, and the fallback exactly when the number is below 0 or above
    12999. *)
Theorem graph_py_category_by_range hpo_id n :
  GraphPy.id_num hpo_id = Ok n →
  (∀ start end_ category,
     (start, end_, category) ∈ GraphPy.categories → (start ≤ n ≤ end_)%Z →
     GraphPy._determine_category hpo_id = Ok category)
  ∧ (GraphPy._determine_category hpo_id = Ok "Other" ↔ (n < 0 ∨ 12999 < n)%Z).
Proof.
  intros Hn. unfold GraphPy._determine_category. rewrite Hn. split.
  - intros start end_ category Hin Hrange. f_equal.
    by apply (graph_first_match_disjoint _ graph_categories_sorted start end_).
  - unfold GraphPy.categories. cbn [GraphPy.first_match].
    assert (n < 0 ∨ -1 < n)%Z as Hacc by lia.
    repeat range_step n. by split.
Qed.

Lemma graph_py_category_by_range_witness :
  GraphPy._determine_category (VS "HP:0002500") = Ok "Neurological".
Proof.
  refine (proj1 (graph_py_category_by_range (VS "HP:0002500") 2500 _)
            2000%Z 2999%Z "Neurological" _ _).
  - reflexivity.
  - right. by left.
  - lia.
Defined.

(** ** The batches of the term loop *)

Lemma step_batches_inv bs st l st' :
  PhenotypeProcessor.step Inputs.record_batch bs st l = Ok st' →
  batches_inv bs st → batches_inv bs st'.
Proof.
  unfold PhenotypeProcessor.step, batches_inv. intros Hstep (Ht & Hr & Hb).
  destruct (decide (PyStr.strip l = "[Term]")) as [_|_].
  - destruct (PhenotypeProcessor.term_records (PhenotypeProcessor.current_term st))
      as [recs|e]; [|done].
    simpl in Hstep. injection Hstep as <-. cbn.
    destruct (bs <=? length (PhenotypeProcessor.batch st ++ recs))%nat eqn:Hflush.
    + unfold Inputs.record_batch.
      rewrite concat_app. simpl. rewrite !app_nil_r.
      rewrite Ht, Hr, !app_assoc, !(filter_app _ (_ ++ _) recs), !length_app.
      split_and!; [done..|]. intros Hbs. destruct (Hb Hbs) as [Hall Hlt].
      split; [|simpl; lia]. apply Forall_app. split; [done|].
      apply Forall_cons. split; [|constructor]. by apply Nat.leb_le.
    + rewrite Ht, Hr, !app_assoc, !(filter_app _ (_ ++ _) recs), !length_app.
      split_and!; [done..|]. intros Hbs. destruct (Hb Hbs) as [Hall Hlt].
      split; [done|]. apply Nat.leb_gt in Hflush. by rewrite length_app in Hflush.
  - destruct (PyStr.contains PyStr.colon (PyStr.strip l)); injection Hstep as <-; done.
Qed.

Lemma loop_batches_inv bs lines : ∀ st,
  batches_inv bs st →
  batches_inv bs (PhenotypeProcessor.loop Inputs.record_batch bs st lines).1.
Proof.
  induction lines as [|l lines IH]; intros st Hinv; [done|]. simpl.
  destruct (PhenotypeProcessor.step Inputs.record_batch bs st l) as [st'|e] eqn:Hstep;
    [|done].
  apply IH. by eapply step_batches_inv.
Qed.

Lemma step_same_records bs bs' st1 st2 l :
  same_records st1 st2 →
  match PhenotypeProcessor.step Inputs.record_batch bs st1 l,
        PhenotypeProcessor.step Inputs.record_batch bs' st2 l with
  | Ok st1', Ok st2' => same_records st1' st2'
  | Err e1, Err e2 => e1 = e2
  | _, _ => False
  end.
Proof.
  unfold PhenotypeProcessor.step, same_records. intros (Hc & Ht & Hr & Hq).
  destruct (decide (PyStr.strip l = "[Term]")) as [_|_].
  - rewrite <- Hc.
    destruct (PhenotypeProcessor.term_records (PhenotypeProcessor.current_term st1))
      as [recs|e]; [|done].
    cbn. split_and!; [done|congruence..|].
    assert (∀ (b : bool) B (x : list PhenotypeProcessor.item),
              concat (if b then Inputs.record_batch B x else B) ++ (if b then [] else x)
              = concat B ++ x) as Hflush.
    { intros [] B x; [|done]. unfold Inputs.record_batch.
      rewrite concat_app. simpl. by rewrite !app_nil_r. }
    by rewrite !Hflush, !app_assoc, Hq.
  - destruct (PyStr.contains PyStr.colon (PyStr.strip l)); cbn; [|done].
    split_and!; [congruence|done..].
Qed.

Lemma loop_same_records bs bs' lines : ∀ st1 st2,
  same_records st1 st2 →
  same_records (PhenotypeProcessor.loop Inputs.record_batch bs st1 lines).1
    (PhenotypeProcessor.loop Inputs.record_batch bs' st2 lines).1
  ∧ (PhenotypeProcessor.loop Inputs.record_batch bs st1 lines).2
    = (PhenotypeProcessor.loop Inputs.record_batch bs' st2 lines).2.
Proof.
  induction lines as [|l lines IH]; intros st1 st2 Hsame; [done|]. simpl.
  pose proof (step_same_records bs bs' st1 st2 l Hsame) as Hstep.
  destruct (PhenotypeProcessor.step Inputs.record_batch bs st1 l) as [st1'|e1],
           (PhenotypeProcessor.step Inputs.record_batch bs' st2 l) as [st2'|e2];
    try done.
  - by apply IH.
  - simpl. by subst.
Qed.

Lemma concat_final_flush (B : list (list PhenotypeProcessor.item)) batch :
  concat (match batch with [] => B | _ :: _ => Inputs.record_batch B batch end)
  = concat B ++ batch.
Proof.
  destruct batch as [|x batch]; [by rewrite app_nil_r|].
  unfold Inputs.record_batch. rewrite concat_app. simpl. by rewrite app_nil_r.
Qed.

Lemma batches_inv_init bs :
  batches_inv bs
    {| PhenotypeProcessor.current_term := ∅; PhenotypeProcessor.batch := [];
       PhenotypeProcessor.session := []; PhenotypeProcessor.terms_processed := 0;
       PhenotypeProcessor.relationships_created := 0 |}.
Proof. split_and!; [done..|]. intros Hbs. split; [constructor|simpl; lia]. Qed.

(** Extra (the batch size only groups).  Whatever the batch size, the
    term loop of [process_obo_file] raises the same exception or none and
    ends with the same two counters; when it raises none, the batches it
    hands over hold the same records in the same order, and the counters
    are the numbers of node records and of relationship records handed
    over (whether or not the sink then creates the relationship). *)
Theorem term_batches_any_size (bs bs' : nat) lines :
  let r := PhenotypeProcessor.process_obo_file Inputs.record_batch bs [] lines in
  let r' := PhenotypeProcessor.process_obo_file Inputs.record_batch bs' [] lines in
  r'.2 = r.2 ∧ r'.1.2 = r.1.2
  ∧ (r.2 = None →
     concat r'.1.1 = concat r.1.1
     ∧ r.1.2 = (length (filter PhenotypeProcessor.is_node_item (concat r.1.1)),
                length (filter PhenotypeProcessor.is_relationship (concat r.1.1)))).
Proof.
  unfold PhenotypeProcessor.process_obo_file.
  set (init := {| PhenotypeProcessor.current_term := ∅; PhenotypeProcessor.batch := [];
                  PhenotypeProcessor.session := []; PhenotypeProcessor.terms_processed := 0;
                  PhenotypeProcessor.relationships_created := 0 |}).
  assert (same_records init init) as Hinit by done.
  destruct (loop_same_records bs bs' lines init init Hinit) as [(_ & Ht & Hr & Hq) He].
  pose proof (loop_batches_inv bs lines init (batches_inv_init bs)) as (Hnt & Hnr & _).
  destruct (PhenotypeProcessor.loop Inputs.record_batch bs init lines) as [st e].
  destruct (PhenotypeProcessor.loop Inputs.record_batch bs' init lines) as [st' e'].
  simpl in *. subst e'. destruct e as [e|]; simpl.
  - split_and!; [done|by rewrite Ht, Hr|done].
  - split_and!; [done|by rewrite Ht, Hr|]. intros _.
    rewrite !concat_final_flush. split; [done|]. by rewrite Hnt, Hnr.
Qed.

Lemma term_batches_any_size_witness :
  concat (PhenotypeProcessor.process_obo_file Inputs.record_batch 1000 []
            Inputs.two_terms_closed).1.1
  = concat (PhenotypeProcessor.process_obo_file Inputs.record_batch 1 []
              Inputs.two_terms_closed).1.1.
Proof.
  refine (proj1 (proj2 (proj2 (term_batches_any_size 1 1000 Inputs.two_terms_closed)) _)).
  reflexivity.
Defined.

(** Extra (full batches).  With a batch size of at least 1 the term loop
    never hands over an empty batch, and every batch but the last holds at
    least [batch_size] records. *)
Theorem term_batches_full bs lines :
  (1 ≤ bs)%nat →
  let B := (PhenotypeProcessor.process_obo_file Inputs.record_batch bs [] lines).1.1 in
  Forall (λ b, (bs ≤ length b)%nat) (removelast B) ∧ Forall (λ b, b ≠ []) B.
Proof.
  intros Hbs. unfold PhenotypeProcessor.process_obo_file.
  set (init := {| PhenotypeProcessor.current_term := ∅; PhenotypeProcessor.batch := [];
                  PhenotypeProcessor.session := []; PhenotypeProcessor.terms_processed := 0;
                  PhenotypeProcessor.relationships_created := 0 |}).
  pose proof (loop_batches_inv bs lines init (batches_inv_init bs)) as (_ & _ & Hfull).
  destruct (PhenotypeProcessor.loop Inputs.record_batch bs init lines) as [st e].
  simpl in *. destruct (Hfull Hbs) as [Hall _].
  assert (Forall (λ b : list PhenotypeProcessor.item, b ≠ [])
            (PhenotypeProcessor.session st)) as Hne.
  { eapply Forall_impl; [exact Hall|]. intros b Hb ->. simpl in Hb. lia. }
  assert (∀ B' : list (list PhenotypeProcessor.item),
            Forall (λ b, (bs ≤ length b)%nat) B' →
            Forall (λ b, (bs ≤ length b)%nat) (removelast B')) as Hlast.
  { intros B' HB'. induction HB' as [|b B' Hb HB' IH]; [constructor|].
    simpl. destruct B'; [constructor|]. by constructor. }
  destruct e as [e|]; simpl; [by split; [apply Hlast|]|].
  destruct (PhenotypeProcessor.batch st) as [|x batch] eqn:Hbatch; [by split; [apply Hlast|]|].
  unfold Inputs.record_batch. split.
  - by rewrite removelast_last.
  - apply Forall_app. split; [done|]. by repeat constructor.
Qed.

Lemma term_batches_full_witness :
  map length (PhenotypeProcessor.process_obo_file Inputs.record_batch 1 []
                Inputs.two_terms_closed).1.1 = [1; 17]%nat
  ∧ Forall (λ b : list PhenotypeProcessor.item, (1 ≤ length b)%nat)
      (removelast (PhenotypeProcessor.process_obo_file Inputs.record_batch 1 []
                     Inputs.two_terms_closed).1.1)
  ∧ Forall (λ b, b ≠ [])
      (PhenotypeProcessor.process_obo_file Inputs.record_batch 1 []
         Inputs.two_terms_closed).1.1.
Proof.
  split; [reflexivity|].
  refine (term_batches_full 1 Inputs.two_terms_closed _). lia.
Defined.

(** ** The batches of the annotation loop *)

Lemma annotation_loop_batches bs rows :
  ∀ batch (B : list (list DiseaseProcessor.annotation)) n batch' B' n',
  foldl (DiseaseProcessor.step Inputs.record_batch bs) (batch, B, n) rows = (batch', B', n') →
  Forall (λ b, length b = max 1 bs) B → (length batch < max 1 bs)%nat →
  concat B' ++ batch' = concat B ++ batch ++ omap DiseaseProcessor.parse_line rows
  ∧ n' = (n + length (omap DiseaseProcessor.parse_line rows))%nat
  ∧ Forall (λ b, length b = max 1 bs) B'
  ∧ (length batch' < max 1 bs)%nat.
Proof.
  induction rows as [|l rows IH]; intros batch B n batch' B' n' Hfold HB Hlt.
  { simpl in Hfold. injection Hfold as <- <- <-. simpl. rewrite app_nil_r.
    split_and!; [done|lia|done..]. }
  cbn [foldl] in Hfold. unfold DiseaseProcessor.step at 2 in Hfold.
  cbn [omap list_omap].
  destruct (DiseaseProcessor.parse_line l) as [a|]; [|by eapply IH].
  destruct (bs <=? length (batch ++ [a]))%nat eqn:Hflush.
  - apply Nat.leb_le in Hflush. rewrite length_app in Hflush. simpl in Hflush.
    destruct (IH _ _ _ _ _ _ Hfold) as (Hc & Hn & HB' & Hlt').
    + unfold Inputs.record_batch. apply Forall_app. split; [done|].
      apply Forall_cons. split; [|constructor]. rewrite length_app. simpl. lia.
    + simpl. lia.
    + split_and!; [|simpl; lia|done..]. rewrite Hc. unfold Inputs.record_batch.
      rewrite concat_app. simpl. by rewrite !app_nil_r, <- !app_assoc.
  - apply Nat.leb_gt in Hflush. rewrite length_app in Hflush. simpl in Hflush.
    destruct (IH _ _ _ _ _ _ Hfold) as (Hc & Hn & HB' & Hlt'); [done| |].
    + rewrite length_app. simpl. lia.
    + split_and!; [|simpl; lia|done..]. rewrite Hc. by rewrite <- !app_assoc.
Qed.

(** Extra (the batches of the annotation loop).  On a file with a header
    line [process_phenotype_annotations] raises nothing; the batches it
    hands over hold, in order, exactly the rows after the header that are
    no comment and have at least four fields; the counter is their number;
    every batch but the last holds exactly [batch_size] rows (one row for a
    batch size of 0) and no batch is empty or larger. *)
Theorem annotation_batches_spec bs header rows :
  let r := DiseaseProcessor.process_phenotype_annotations Inputs.record_batch bs []
             (header :: rows) in
  let annotations := omap DiseaseProcessor.parse_line rows in
  r.2 = None ∧ concat r.1.1 = annotations ∧ r.1.2 = length annotations
  ∧ Forall (λ b, length b = max 1 bs) (removelast r.1.1)
  ∧ Forall (λ b, (1 ≤ length b ≤ max 1 bs)%nat) r.1.1.
Proof.
  unfold DiseaseProcessor.process_phenotype_annotations.
  destruct (foldl (DiseaseProcessor.step Inputs.record_batch bs) ([], [], 0) rows)
    as [[batch B] n] eqn:Hfold.
  destruct (annotation_loop_batches bs rows [] [] 0 batch B n Hfold) as (Hc & Hn & HB & Hlt);
    [constructor|simpl; lia|].
  simpl in *.
  assert (Forall (λ b : list DiseaseProcessor.annotation, (1 ≤ length b ≤ max 1 bs)%nat) B)
    as Hsize.
  { eapply Forall_impl; [exact HB|]. intros b Hb. simpl in Hb. lia. }
  assert (∀ B' : list (list DiseaseProcessor.annotation),
            Forall (λ b, length b = max 1 bs) B' →
            Forall (λ b, length b = max 1 bs) (removelast B')) as Hlast.
  { intros B' HB'. induction HB' as [|b B' Hb HB' IH]; [constructor|].
    simpl. destruct B'; [constructor|]. by constructor. }
  destruct batch as [|a batch].
  - rewrite app_nil_r in Hc. split_and!; [done..| |done]. by apply Hlast.
  - unfold Inputs.record_batch. split_and!; [done| |done| |].
    + rewrite concat_app. simpl. by rewrite app_nil_r.
    + by rewrite removelast_last.
    + apply Forall_app. split; [done|]. apply Forall_cons. split; [|constructor].
      simpl in *. lia.
Qed.

(** ** What a batch of annotations writes *)

Lemma has_node_merge_rel t a b kvs q g : has_node q (merge_rel t a b kvs g) = has_node q g.
Proof. unfold merge_rel. by destruct (has_node a g && has_node b g). Qed.

Lemma has_rel_merge_node k kvs t a b g : has_rel t a b (merge_node k kvs g) = has_rel t a b g.
Proof. done. Qed.

Lemma has_rel_merge_rel t a b kvs t' a' b' g :
  has_rel t' a' b' (merge_rel t a b kvs g) = true
  ↔ has_rel t' a' b' g = true
    ∨ ((t, a, b) = (t', a', b') ∧ has_node a g = true ∧ has_node b g = true).
Proof.
  unfold merge_rel. destruct (has_node a g) eqn:Ha, (has_node b g) eqn:Hb; simpl;
    try (split; [by left|by intros [?|(_ & ? & ?)]]).
  rewrite !has_rel_props, !bool_decide_eq_true, rel_props_merge_rel_bound.
  case_decide as Heq.
  - split; [by right|intros _; by eexists].
  - split; [by left|by intros [?|(? & _)]].
Qed.

Lemma merge_annotations_spec L n : ∀ g,
  let g' := DiseaseProcessor.merge_annotations L n g in
  (∀ q, has_node q g' = true
        ↔ has_node q g = true
          ∨ ∃ x, x ∈ L ∧ q = (Disease, DiseaseProcessor.disease_id x))
  ∧ (∀ t a b, has_rel t a b g' = true
              ↔ has_rel t a b g = true
                ∨ (t = HAS_PHENOTYPE
                   ∧ ∃ x, x ∈ L ∧ a = (Disease, DiseaseProcessor.disease_id x)
                          ∧ b = (Phenotype, DiseaseProcessor.phenotype_id x)
                          ∧ has_node b g = true)).
Proof.
  unfold DiseaseProcessor.merge_annotations.
  induction L as [|x L IH]; intros g.
  { simpl. split.
    - intros q. split; [by left|]. by intros [?|(x & ?%elem_of_nil & _)].
    - intros t a b. split; [by left|]. by intros [?|(_ & x & ?%elem_of_nil & _)]. }
  cbn [foldl].
  set (d := (Disease, DiseaseProcessor.disease_id x)).
  set (p := (Phenotype, DiseaseProcessor.phenotype_id x)).
  set (g1 := merge_rel HAS_PHENOTYPE d p _ (merge_node d _ g)).
  assert (∀ q, has_node q g1 = true ↔ has_node q g = true ∨ q = d) as Hnode.
  { intros q. subst g1. rewrite has_node_merge_rel, has_node_merge_node.
    rewrite orb_true_iff, bool_decide_eq_true. naive_solver. }
  assert (∀ t a b, has_rel t a b g1 = true
                   ↔ has_rel t a b g = true
                     ∨ ((HAS_PHENOTYPE, d, p) = (t, a, b) ∧ has_node p g = true)) as Hrel.
  { intros t a b. subst g1. rewrite has_rel_merge_rel, has_rel_merge_node.
    rewrite !has_node_merge_node, (bool_decide_eq_true_2 (d = d)) by done.
    rewrite (bool_decide_eq_false_2 (d = p)) by done. simpl. naive_solver. }
  destruct (IH g1) as [IHn IHr]. split.
  - intros q. rewrite IHn, Hnode. split.
    + intros [[?| ->]|(y & Hy & ->)]; [by left| |].
      * right. exists x. split; [by left|done].
      * right. exists y. split; [by right|done].
    + intros [?|(y & [-> |Hy]%elem_of_cons & ->)]; [by left; left|by left; right|].
      right. by exists y.
  - intros t a b. rewrite IHr, Hrel. split.
    + intros [[?|([= <- <- <-] & Hp)]|(-> & y & Hy & -> & -> & Hb)]; [by left| |].
      * right. split; [done|]. exists x. split; [by left|done].
      * right. split; [done|]. exists y. split; [by right|]. split_and!; [done..|].
        apply Hnode in Hb as [?|[=]]. done.
    + intros [?|(-> & y & [-> |Hy]%elem_of_cons & -> & -> & Hb)]; [by left; left| |].
      * left. right. done.
      * right. split; [done|]. exists y. split_and!; [done..|]. apply Hnode. by left.
Qed.

(** Extra (what a batch of annotations writes).  [_process_annotation_batch]
    adds a [Disease] node for every row of the batch and no other node, in
    particular never a [Phenotype] node; it adds the [HAS_PHENOTYPE]
    relationship of a row exactly when the phenotype of the row is in the
    store already, so a row about an unknown phenotype leaves a disease
    without that relationship; it adds no relationship of another type
    and removes nothing. *)
Theorem annotation_batch_spec now s batch :
  let g := store s in
  let g' := store (DiseaseProcessor._process_annotation_batch now s batch) in
  (∀ q, has_node q g' = true
        ↔ has_node q g = true
          ∨ ∃ x, x ∈ batch ∧ q = (Disease, DiseaseProcessor.disease_id x))
  ∧ (∀ t a b, has_rel t a b g' = true
              ↔ has_rel t a b g = true
                ∨ (t = HAS_PHENOTYPE
                   ∧ ∃ x, x ∈ batch ∧ a = (Disease, DiseaseProcessor.disease_id x)
                          ∧ b = (Phenotype, DiseaseProcessor.phenotype_id x)
                          ∧ has_node b g = true)).
Proof.
  unfold DiseaseProcessor._process_annotation_batch, run. cbn [store].
  apply merge_annotations_spec.
Qed.

(** ** The annotation index of [conn.py] *)

Lemma occurrences_app x l1 l2 : occurrences x (l1 ++ l2) = occurrences x l1 + occurrences x l2.
Proof. unfold occurrences. by rewrite filter_app, length_app. Qed.

Lemma occurrences_singleton x y : occurrences x [y] = if decide (y = x) then 1 else 0.
Proof.
  unfold occurrences. rewrite filter_cons, filter_nil.
  destruct (decide (y = x)) as [->|Hne].
  - by rewrite decide_True by (by apply bool_decide_pack).
  - rewrite decide_False; [done|]. by intros ?%bool_decide_unpack.
Qed.

Lemma occurrences_pos x l : (0 < occurrences x l)%nat ↔ x ∈ l.
Proof.
  unfold occurrences. induction l as [|y l IH]; [simpl; split; [lia|by intros ?%elem_of_nil]|].
  rewrite filter_cons, elem_of_cons. destruct (decide (y = x)) as [->|Hne].
  - rewrite decide_True by (by apply bool_decide_pack). simpl. split; [by left|lia].
  - rewrite decide_False by (by intros ?%bool_decide_unpack). rewrite IH. naive_solver.
Qed.

Lemma get_append k v d k' :
  default [] (HPOAnnotations.append k v d !! k')
  = default [] (d !! k') ++ (if decide (k = k') then [v] else []).
Proof.
  unfold HPOAnnotations.append. destruct (decide (k = k')) as [->|Hne].
  - by rewrite lookup_insert_eq.
  - by rewrite lookup_insert_ne, app_nil_r.
Qed.

(** What a row does to the two queries. *)
Lemma add_line_queries idx line :
  HPOAnnotations.add_line idx line = idx
  ∨ ∃ d0 h0,
      (∀ d, HPOAnnotations.get_symptoms_for_disease (HPOAnnotations.add_line idx line) d
            = HPOAnnotations.get_symptoms_for_disease idx d
              ++ (if decide (d0 = d) then [h0] else []))
      ∧ (∀ h, HPOAnnotations.get_diseases_for_symptom (HPOAnnotations.add_line idx line) h
              = HPOAnnotations.get_diseases_for_symptom idx h
                ++ (if decide (h0 = h) then [d0] else [])).
Proof.
  unfold HPOAnnotations.add_line. destruct (PyStr.startswith "#" line); [by left|].
  destruct (4 <=? _)%nat; [|by left]. right. eexists _, _. split.
  - intros d. apply get_append.
  - intros h. apply get_append.
Qed.

Lemma add_line_consistent idx line :
  index_consistent idx → index_consistent (HPOAnnotations.add_line idx line).
Proof.
  intros Hc. destruct (add_line_queries idx line) as [->|(d0 & h0 & HS & HD)]; [done|].
  intros d h. rewrite HS, HD, !occurrences_app, (Hc d h). f_equal.
  destruct (decide (d0 = d)) as [->|Hd], (decide (h0 = h)) as [->|Hh];
    rewrite ?occurrences_singleton; repeat case_decide; done.
Qed.

Lemma foldl_add_line_consistent rows : ∀ idx,
  index_consistent idx → index_consistent (foldl HPOAnnotations.add_line idx rows).
Proof.
  induction rows as [|l rows IH]; intros idx Hc; [done|]. simpl.
  by apply IH, add_line_consistent.
Qed.

(** Extra (the two dicts agree).  After [parse_phenotype_annotations] on
    a file with a header line, a symptom is listed for a disease as often
    as the disease is listed for the symptom; in particular
    [get_symptoms_for_disease] and [get_diseases_for_symptom] are inverse
    to each other. *)
Theorem annotation_index_inverse header rows :
  ∃ idx, HPOAnnotations.parse_phenotype_annotations HPOAnnotations.init (header :: rows)
         = Ok idx
         ∧ ∀ d h,
             occurrences h (HPOAnnotations.get_symptoms_for_disease idx d)
             = occurrences d (HPOAnnotations.get_diseases_for_symptom idx h)
             ∧ (h ∈ HPOAnnotations.get_symptoms_for_disease idx d
                ↔ d ∈ HPOAnnotations.get_diseases_for_symptom idx h).
Proof.
  eexists. split; [done|]. intros d h.
  assert (index_consistent (foldl HPOAnnotations.add_line HPOAnnotations.init rows)) as Hc.
  { apply foldl_add_line_consistent. by intros d' h'. }
  split; [apply Hc|]. by rewrite <- !occurrences_pos, (Hc d h).
Qed.

Lemma bump_bump n k o : bump n (bump k o) = bump (k + n) o.
Proof. destruct k, n; simpl; try done; f_equal; lia. Qed.

Lemma lookup_incr k related b :
  HPOAnnotations.incr k related !! b
  = bump (if decide (k = b) then 1 else 0) (related !! b).
Proof.
  unfold HPOAnnotations.incr. destruct (decide (k = b)) as [->|Hne].
  - rewrite lookup_insert_eq. simpl. f_equal. lia.
  - by rewrite lookup_insert_ne.
Qed.

Lemma occurrences_cons x y l :
  occurrences x (y :: l) = (if decide (y = x) then 1 else 0) + occurrences x l.
Proof.
  change (y :: l) with ([y] ++ l). by rewrite occurrences_app, occurrences_singleton.
Qed.

(** The inner loop of [get_related_symptoms]. *)
Lemma related_inner a b L : ∀ related : gmap string nat,
  foldl (λ related symptom,
           if decide (symptom ≠ a) then HPOAnnotations.incr symptom related else related)
    related L !! b
  = if decide (b = a) then related !! b else bump (occurrences b L) (related !! b).
Proof.
  induction L as [|x L IH]; intros related; [simpl; by case_decide|].
  cbn [foldl]. rewrite IH, occurrences_cons.
  destruct (decide (b = a)) as [->|Hb].
  - destruct (decide (x ≠ a)) as [Hx|_]; [|done].
    rewrite lookup_incr. by rewrite decide_False.
  - destruct (decide (x ≠ a)) as [Hx|Hx].
    + by rewrite lookup_incr, bump_bump.
    + apply dec_stable in Hx as ->. by rewrite decide_False by done.
Qed.

Lemma related_outer (idx : HPOAnnotations.index) a b D : ∀ related : gmap string nat,
  foldl (λ related disease,
           foldl (λ related symptom,
                    if decide (symptom ≠ a) then HPOAnnotations.incr symptom related
                    else related)
             related (HPOAnnotations.get_symptoms_for_disease idx disease))
    related D !! b
  = if decide (b = a) then related !! b
    else bump (sum_list (map (λ d, occurrences b
                                      (HPOAnnotations.get_symptoms_for_disease idx d)) D))
           (related !! b).
Proof.
  induction D as [|d D IH]; intros related; [simpl; by case_decide|].
  cbn [foldl map sum_list]. rewrite IH, related_inner.
  case_decide; [done|]. by rewrite bump_bump.
Qed.

Lemma lookup_related idx a b :
  HPOAnnotations.get_related_symptoms idx a !! b
  = if decide (b = a) then None else bump (co_listed idx a b) None.
Proof.
  unfold HPOAnnotations.get_related_symptoms. rewrite related_outer, lookup_empty. done.
Qed.

Lemma sum_list_extra {A} `{EqDecision A} (f : A → nat) (d0 : A) (c : nat) (L : list A) :
  sum_list (map (λ d, f d + (if decide (d0 = d) then c else 0)) L)
  = (sum_list (map f L) + length (filter (λ d, bool_decide (d = d0)) L) * c)%nat.
Proof.
  induction L as [|d L IH]; [done|]. cbn [map sum_list]. rewrite IH, filter_cons.
  destruct (decide (d0 = d)) as [->|Hne].
  - rewrite decide_True by (by apply bool_decide_pack). simpl. lia.
  - rewrite decide_False; [simpl; lia|]. intros ?%bool_decide_unpack. congruence.
Qed.

Lemma sum_list_pos {A} (f : A → nat) (L : list A) :
  (0 < sum_list (map f L))%nat ↔ ∃ d, d ∈ L ∧ (0 < f d)%nat.
Proof.
  induction L as [|d L IH]; simpl.
  - split; [lia|]. by intros (d & ?%elem_of_nil & _).
  - split.
    + intros Hpos. destruct (decide (0 < f d)%nat) as [Hd|Hd].
      * exists d. split; [by left|done].
      * destruct (proj1 IH ltac:(lia)) as (d' & Hin & Hd'). exists d'. split; [by right|done].
    + intros (d' & [->|Hin]%elem_of_cons & Hd'); [lia|].
      assert (0 < sum_list (map f L))%nat by (apply IH; eauto). lia.
Qed.

(** What a row adds to the co-occurrence count of two symptoms. *)
Lemma co_listed_add idx line d0 h0 a b :
  (∀ d, HPOAnnotations.get_symptoms_for_disease (HPOAnnotations.add_line idx line) d
        = HPOAnnotations.get_symptoms_for_disease idx d
          ++ (if decide (d0 = d) then [h0] else [])) →
  (∀ h, HPOAnnotations.get_diseases_for_symptom (HPOAnnotations.add_line idx line) h
        = HPOAnnotations.get_diseases_for_symptom idx h
          ++ (if decide (h0 = h) then [d0] else [])) →
  co_listed (HPOAnnotations.add_line idx line) a b
  = (co_listed idx a b
     + occurrences d0 (HPOAnnotations.get_diseases_for_symptom idx a)
       * (if decide (h0 = b) then 1 else 0)
     + (if decide (h0 = a)
        then occurrences b (HPOAnnotations.get_symptoms_for_disease idx d0)
             + (if decide (h0 = b) then 1 else 0)
        else 0))%nat.
Proof.
  intros HS HD. unfold co_listed. rewrite HD, map_app, sum_list_with_app.
  rewrite (map_ext _ (λ d, occurrences b (HPOAnnotations.get_symptoms_for_disease idx d)
                            + (if decide (d0 = d) then occurrences b [h0] else 0))).
  - rewrite sum_list_extra, occurrences_singleton. fold (occurrences d0
      (HPOAnnotations.get_diseases_for_symptom idx a)).
    destruct (decide (h0 = a)) as [->|Ha]; simpl; [|lia].
    rewrite HS, (decide_True (P := d0 = d0)) by done.
    rewrite occurrences_app, occurrences_singleton. lia.
  - intros d. rewrite HS, occurrences_app. by case_decide.
Qed.

Lemma add_line_symmetric idx line :
  index_consistent idx → (∀ a b, co_listed idx a b = co_listed idx b a) →
  ∀ a b, co_listed (HPOAnnotations.add_line idx line) a b
         = co_listed (HPOAnnotations.add_line idx line) b a.
Proof.
  intros Hc Hsym a b.
  destruct (add_line_queries idx line) as [->|(d0 & h0 & HS & HD)]; [done|].
  rewrite !(co_listed_add idx line d0 h0) by done.
  rewrite (Hsym a b), <- !(Hc d0).
  destruct (decide (h0 = a)), (decide (h0 = b)); lia.
Qed.

Lemma foldl_add_line_symmetric rows : ∀ idx,
  index_consistent idx → (∀ a b, co_listed idx a b = co_listed idx b a) →
  ∀ a b, co_listed (foldl HPOAnnotations.add_line idx rows) a b
         = co_listed (foldl HPOAnnotations.add_line idx rows) b a.
Proof.
  induction rows as [|l rows IH]; intros idx Hc Hsym; [done|]. simpl.
  apply IH; [by apply add_line_consistent|by apply add_line_symmetric].
Qed.

(** Extra (related symptoms).  After [parse_phenotype_annotations] on a
    file with a header line, [get_related_symptoms] of a symptom [a] never
    lists [a] itself; it lists [b] exactly when some disease listed for [a]
    lists [b]; and the count it gives for [b] is the count
    [get_related_symptoms] of [b] gives for [a]. *)
Theorem related_symptoms_symmetric header rows :
  ∃ idx, HPOAnnotations.parse_phenotype_annotations HPOAnnotations.init (header :: rows)
         = Ok idx
         ∧ ∀ a b,
             HPOAnnotations.get_related_symptoms idx a !! a = None
             ∧ HPOAnnotations.get_related_symptoms idx a !! b
               = HPOAnnotations.get_related_symptoms idx b !! a
             ∧ (is_Some (HPOAnnotations.get_related_symptoms idx a !! b)
                ↔ b ≠ a ∧ ∃ d, d ∈ HPOAnnotations.get_diseases_for_symptom idx a
                               ∧ b ∈ HPOAnnotations.get_symptoms_for_disease idx d).
Proof.
  eexists. split; [done|]. intros a b.
  set (idx := foldl HPOAnnotations.add_line HPOAnnotations.init rows).
  assert (co_listed idx a b = co_listed idx b a) as Hsym.
  { apply foldl_add_line_symmetric; by intros. }
  rewrite !lookup_related. split_and!.
  - by rewrite decide_True.
  - destruct (decide (b = a)) as [->|Hne]; [by rewrite decide_True|].
    rewrite (decide_False (P := a = b)) by done. by rewrite Hsym.
  - destruct (decide (b = a)) as [->|Hne].
    + split; [by intros [? ?]|by intros [? _]].
    + assert (is_Some (bump (co_listed idx a b) None) ↔ (0 < co_listed idx a b)%nat) as ->.
      { destruct (co_listed idx a b); simpl; split; try lia; try by intros [? ?].
        intros _. by eexists. }
      unfold co_listed. rewrite sum_list_pos. split.
      * intros (d & Hd & Hb). split; [done|]. exists d. split; [done|].
        by apply occurrences_pos.
      * intros (_ & d & Hd & Hb). exists d. split; [done|]. by apply occurrences_pos.
Qed.

(** ** The nodes of the index graph *)

Lemma has_node_add_node n attrs G x :
  nx.has_node (nx.add_node n attrs G) x = true ↔ nx.has_node G x = true ∨ x = n.
Proof.
  unfold nx.add_node, nx.has_node at 1. cbn [nx.gnodes]. rewrite bool_decide_eq_true.
  destruct (nx.has_node G n) eqn:Hn.
  - rewrite map_map.
    rewrite (map_ext _ fst); [|intros [y a]; simpl; by case_bool_decide].
    unfold nx.has_node in *. rewrite bool_decide_eq_true in *.
    split; [by left|]. by intros [?| ->].
  - rewrite map_app, elem_of_app. simpl. rewrite list_elem_of_singleton.
    unfold nx.has_node. by rewrite bool_decide_eq_true.
Qed.

Lemma has_node_add_edge u v G x :
  nx.has_node (nx.add_edge u v G) x = true ↔ nx.has_node G x = true ∨ x = u ∨ x = v.
Proof.
  unfold nx.add_edge. cbv zeta beta.
  destruct (nx.has_node G u) eqn:Hu;
    match goal with
    | |- context [nx.has_node ?G' v] => destruct (nx.has_node G' v) eqn:Hv
    end;
    unfold nx.has_node in *; cbn [nx.gnodes] in *;
    rewrite ?bool_decide_eq_true, ?bool_decide_eq_false in *;
    rewrite ?map_app, ?elem_of_app in *; simpl in *;
    rewrite ?list_elem_of_singleton in *; naive_solver.
Qed.

Lemma has_node_add_parents term_id (parents : list string) x : ∀ G,
  nx.has_node (foldl (λ G parent, nx.add_edge term_id parent G) G parents) x = true
  ↔ nx.has_node G x = true ∨ (parents ≠ [] ∧ x = term_id) ∨ x ∈ parents.
Proof.
  induction parents as [|parent parents IH]; intros G; simpl.
  - split; [by left|]. by intros [?|[[? _]|?%elem_of_nil]].
  - rewrite IH, has_node_add_edge, elem_of_cons. naive_solver.
Qed.

(** Extra (the nodes of the index).  The graph [parse_obo] builds holds,
    besides the nodes it had, a node for every stored term and one for
    every [is_a] parent a stored term names, whether or not a block of the
    file defines that parent. *)
Theorem build_graph_nodes terms x : ∀ G,
  nx.has_node (HPOParser.build_graph terms G) x = true
  ↔ nx.has_node G x = true ∨ x ∈ map fst terms
    ∨ ∃ c t, (c, t) ∈ terms ∧ x ∈ default [] (HPOParser.t_is_a t).
Proof.
  unfold HPOParser.build_graph.
  induction terms as [|[term_id t] terms IH]; intros G; simpl.
  - split; [by left|]. by intros [?|[?%elem_of_nil|(c & t & ?%elem_of_nil & _)]].
  - rewrite IH, has_node_add_parents, has_node_add_node, elem_of_cons. split.
    + intros [[[?| ->]|[[_ ->]|Hp]]|[?|(c & t' & Hin & Hp)]]; auto.
      * right. right. exists term_id, t. split; [by left|done].
      * right. right. exists c, t'. split; [by right|done].
    + intros [?|[[->|?]|(c & t' & [[= -> ->]|Hin]%elem_of_cons & Hp)]].
      * by left; left; left.
      * by left; left; right.
      * by right; left.
      * by left; right; right.
      * right. right. by exists c, t'.
Qed.

(** ** What the analytics passes write *)

(** Extra (the analytics passes write four properties).
    [apply_graph_algorithms] changes no relationship, adds and removes no
    node, and leaves every node property other than [degree_centrality],
    [betweenness_score], [is_hub] and [cluster_coefficient] as it was. *)
Theorem graph_algorithms_frame now s :
  let g := store s in
  let g' := store (GraphEnhancer.apply_graph_algorithms now s) in
  rels g' = rels g
  ∧ map nkey (nodes g') = map nkey (nodes g)
  ∧ ∀ q b,
      b ∉ ["degree_centrality"; "betweenness_score"; "is_hub"; "cluster_coefficient"] →
      node_prop q b g' = node_prop q b g.
Proof.
  unfold GraphEnhancer.apply_graph_algorithms. simpl.
  set (g1 := GraphEnhancer.iterate GraphEnhancer.degree_centrality _ (store s)).
  set (g2 := GraphEnhancer.iterate GraphEnhancer.betweenness_score _ g1).
  set (g3 := GraphEnhancer.iterate GraphEnhancer.identify_hub _ g2).
  set (g4 := GraphEnhancer.iterate GraphEnhancer.cluster_coefficient _ g3).
  destruct (writes_only_iterate _ _ (now (tick s)) writes_only_degree_centrality (store s))
    as (R1 & _ & N1 & E1). fold g1 in R1, N1, E1.
  destruct (writes_only_iterate _ _ (now (S (tick s))) writes_only_betweenness_score g1)
    as (R2 & _ & N2 & E2). fold g2 in R2, N2, E2.
  destruct (writes_only_iterate _ _ (now (S (S (tick s)))) writes_only_identify_hub g2)
    as (R3 & _ & N3 & E3). fold g3 in R3, N3, E3.
  destruct (writes_only_iterate _ _ (now (S (S (S (tick s))))) writes_only_cluster_coefficient g3)
    as (R4 & _ & N4 & E4). fold g4 in R4, N4, E4.
  split_and!; [congruence..|]. intros q b Hb.
  rewrite E4, E3, E2, E1; [done|intros ->; apply Hb..].
  - by left.
  - right. by left.
  - right. right. by left.
  - right. right. right. by left.
Qed.

Lemma graph_algorithms_frame_witness :
  node_prop (Phenotype, "P") "cluster_size"
    (store (GraphEnhancer.create_symptom_clusters Inputs.clock
              {| store := Inputs.triangle; tick := 0 |}))
  = Some (VInt 3)
  ∧ node_prop (Phenotype, "P") "cluster_size"
      (store (GraphEnhancer.apply_graph_algorithms Inputs.clock
                (GraphEnhancer.create_symptom_clusters Inputs.clock
                   {| store := Inputs.triangle; tick := 0 |})))
    = Some (VInt 3).
Proof.
  split; [reflexivity|].
  etrans; [|reflexivity].
  refine (proj2 (proj2 (graph_algorithms_frame Inputs.clock
                          (GraphEnhancer.create_symptom_clusters Inputs.clock
                             {| store := Inputs.triangle; tick := 0 |}))) _ _ _).
  compute_done.
Defined.

(** A pass of [apoc.periodic.iterate] that assigns one property, from a
    value that reads relationships only. *)
Lemma iterate_assign a (V : graph → key → option value) inner n g q :
  (∀ p g, inner p g
          = match V g p with
            | Some v => update_node p (assign a (Some v)) g
            | None => g
            end) →
  (∀ g g' p, rels g = rels g' → V g p = V g' p) →
  node_prop q a (GraphEnhancer.iterate inner n g)
  = if decide (q ∈ phenotypes g)
    then match V g q with Some v => Some v | None => node_prop q a g end
    else node_prop q a g.
Proof.
  intros Hinner Hext. unfold GraphEnhancer.iterate, node_prop.
  destruct (foldl_update_props (λ g p, (λ v, assign a (Some v)) <$> V g p) inner) with
    (L := phenotypes g) (g := g) (q := q) as [_ ->].
  - intros p g0. rewrite Hinner. by destruct (V g0 p).
  - intros g0 g' p Hr. by rewrite (Hext g0 g' p Hr).
  - intros g0 p f ps Hf. destruct (V g0 p) as [v|]; [|done]. injection Hf as <-.
    unfold assign. apply insert_insert_eq.
  - case_decide as Hq; [|done]. destruct (V g q) as [v|]; [|done]. simpl.
    destruct (elem_of_phenotypes q g Hq) as [ps ->]. simpl.
    unfold assign. by rewrite lookup_insert_eq.
Qed.

Lemma path_ends_ext g g' : rels g = rels g' →
  ∀ n used a, GraphEnhancer.path_ends n g used a = GraphEnhancer.path_ends n g' used a.
Proof.
  intros Hr. induction n as [|n IH]; intros used a; [done|]. simpl.
  rewrite (und_steps_ext ASSOCIATED_WITH g g' used a Hr).
  induction (und_steps ASSOCIATED_WITH g' used a) as [|[i other] L IHL]; [done|].
  simpl. by rewrite IH, IHL.
Qed.

(** Extra (which analytics a term gets).  After [apply_graph_algorithms],
    a phenotype term has [degree_centrality] equal to the number of its
    incoming [HAS_PHENOTYPE] relationships when there is one, and its old
    value (none, on a fresh store) when there is none; it always has a
    [betweenness_score], which is 0 when the term has no [ASSOCIATED_WITH]
    relationship; and for a term without [ASSOCIATED_WITH] relationship
    [is_hub] and [cluster_coefficient] are not written. *)
Theorem analytics_values now s p :
  p ∈ phenotypes (store s) →
  let g := store s in
  let g' := store (GraphEnhancer.apply_graph_algorithms now s) in
  let degree := length (incoming HAS_PHENOTYPE g p) in
  node_prop p "degree_centrality" g'
  = (if decide (degree = 0) then node_prop p "degree_centrality" g
     else Some (VInt (Z.of_nat degree)))
  ∧ (∃ reach : nat,
       node_prop p "betweenness_score" g' = Some (VInt (Z.of_nat reach))
       ∧ (und_steps ASSOCIATED_WITH g [] p = [] → reach = 0))
  ∧ (und_steps ASSOCIATED_WITH g [] p = [] →
     node_prop p "is_hub" g' = node_prop p "is_hub" g
     ∧ node_prop p "cluster_coefficient" g' = node_prop p "cluster_coefficient" g).
Proof.
  intros Hp g g' degree. subst g g' degree.
  unfold GraphEnhancer.apply_graph_algorithms. simpl. set (g := store s) in *.
  set (g1 := GraphEnhancer.iterate GraphEnhancer.degree_centrality _ g).
  set (g2 := GraphEnhancer.iterate GraphEnhancer.betweenness_score _ g1).
  set (g3 := GraphEnhancer.iterate GraphEnhancer.identify_hub _ g2).
  set (g4 := GraphEnhancer.iterate GraphEnhancer.cluster_coefficient _ g3).
  destruct (writes_only_iterate _ _ (now (tick s)) writes_only_degree_centrality g)
    as (R1 & P1 & _ & E1). fold g1 in R1, P1, E1.
  destruct (writes_only_iterate _ _ (now (S (tick s))) writes_only_betweenness_score g1)
    as (R2 & P2 & _ & E2). fold g2 in R2, P2, E2.
  destruct (writes_only_iterate _ _ (now (S (S (tick s)))) writes_only_identify_hub g2)
    as (R3 & P3 & _ & E3). fold g3 in R3, P3, E3.
  destruct (writes_only_iterate _ _ (now (S (S (S (tick s))))) writes_only_cluster_coefficient g3)
    as (R4 & P4 & _ & E4). fold g4 in R4, P4, E4.
  split_and!.
  - rewrite E4, E3, E2 by done. subst g1.
    rewrite (iterate_assign "degree_centrality"
               (λ g p, match incoming HAS_PHENOTYPE g p with
                       | [] => None
                       | rs => Some (VInt (Z.of_nat (length rs)))
                       end)).
    + rewrite decide_True by done.
      by destruct (incoming HAS_PHENOTYPE g p).
    + intros q g0. unfold GraphEnhancer.degree_centrality.
      by destruct (incoming HAS_PHENOTYPE g0 q).
    + intros g0 g0' q Hr. unfold incoming. by rewrite Hr.
  - eexists. rewrite E4, E3 by done. subst g2.
    rewrite (iterate_assign "betweenness_score"
               (λ g p, Some (VInt (Z.of_nat (length (remove_dups
                  (filter (λ k : key, bool_decide (k.1 = Phenotype))
                     (GraphEnhancer.path_ends 3 g [] p)))))))).
    + rewrite decide_True by (by rewrite P1). split; [done|].
      intros Hnone. rewrite (path_ends_ext g1 g R1). simpl. by rewrite Hnone.
    + done.
    + intros g0 g0' q Hr. by rewrite (path_ends_ext g0 g0' Hr).
  - intros Hnone. split.
    + rewrite E4 by done. subst g3.
      rewrite (iterate_assign "is_hub"
                 (λ g p, match GraphEnhancer.connections p g with
                         | O => None
                         | S _ as n => Some (VBool (GraphEnhancer.HUB_THRESHOLD <? n)%nat)
                         end)).
      * rewrite (connections_ext p g2 g) by congruence.
        unfold GraphEnhancer.connections. rewrite Hnone. simpl.
        rewrite E2, E1 by done. by case_decide.
      * intros q g0. unfold GraphEnhancer.identify_hub.
        by destruct (GraphEnhancer.connections q g0).
      * intros g0 g0' q Hr. by rewrite (connections_ext q g0 g0' Hr).
    + subst g4.
      rewrite (iterate_assign "cluster_coefficient"
                 (λ g p, match GraphEnhancer.neighbors p g, GraphEnhancer.triangles p g with
                         | [], _ | _, O => None
                         | (_ :: _) as ns, S _ as t =>
                             Some (if (length ns <=? 1)%nat then VInt 0
                                   else ratio (2 * Z.of_nat t)
                                          (Pos.of_nat (length ns * (length ns - 1))))
                         end)).
      * unfold GraphEnhancer.neighbors.
        rewrite (und_steps_ext ASSOCIATED_WITH g3 g [] p) by congruence.
        rewrite Hnone. simpl. rewrite E3, E2, E1 by done. by case_decide.
      * intros q g0. unfold GraphEnhancer.cluster_coefficient.
        destruct (GraphEnhancer.neighbors q g0); [done|].
        by destruct (GraphEnhancer.triangles q g0).
      * intros g0 g0' q Hr. unfold GraphEnhancer.neighbors, GraphEnhancer.triangles,
          GraphEnhancer.neighbors, GraphEnhancer.und_rows.
        by rewrite (und_steps_ext ASSOCIATED_WITH g0 g0' [] q Hr), Hr.
Qed.

Lemma analytics_values_witness :
  node_prop (Phenotype, "A") "degree_centrality"
    (store (GraphEnhancer.apply_graph_algorithms Inputs.clock
              {| store := Inputs.annotated_pair; tick := 0 |})) = Some (VInt 1).
Proof.
  refine (proj1 (analytics_values Inputs.clock
                   {| store := Inputs.annotated_pair; tick := 0 |} (Phenotype, "A") _)).
  by left.
Defined.

(** ** The miner run again, and in both directions *)

Lemma foldl_merge_association_frame (R : list (key * key * props)) t : ∀ g,
  t ≠ ASSOCIATED_WITH →
  filter (λ r, bool_decide (rty r = t))
    (rels (foldl (λ g '(a, b, kvs), merge_rel_bound ASSOCIATED_WITH a b kvs g) g R))
  = filter (λ r, bool_decide (rty r = t)) (rels g).
Proof.
  induction R as [|[[a b] kvs] R IH]; intros g Ht; [done|]. simpl.
  rewrite IH by done. by apply filter_type_merge_rel_bound.
Qed.

Lemma has_rel_foldl_merge t a b (R : list (key * key * props)) : ∀ g,
  has_rel t a b (foldl (λ g '(a', b', kvs), merge_rel_bound t a' b' kvs g) g R) = true
  ↔ has_rel t a b g = true ∨ (a, b) ∈ map fst R.
Proof.
  induction R as [|[[a0 b0] kvs] R IH]; intros g; simpl.
  - split; [by left|]. by intros [?|?%elem_of_nil].
  - rewrite IH, elem_of_cons.
    rewrite (has_rel_props t a b (merge_rel_bound _ _ _ _ _)), bool_decide_eq_true.
    rewrite rel_props_merge_rel_bound, (has_rel_props t a b g), bool_decide_eq_true.
    case_decide as Heq.
    + injection Heq as -> ->. split; [by right; left|intros _; left; by eexists].
    + split; [intros [?|?]; [by left|by right; right]|].
      intros [?|[[= -> ->]|?]]; [by left|done|by right].
Qed.

Lemma keys_foldl_merge_known t (R : list (key * key * props)) : ∀ g,
  (∀ a b, (a, b) ∈ map fst R → has_rel t a b g = true) →
  map rkey (rels (foldl (λ g '(a, b, kvs), merge_rel_bound t a b kvs g) g R))
  = map rkey (rels g).
Proof.
  induction R as [|[[a b] kvs] R IH]; intros g Hknown; [done|]. simpl.
  rewrite IH.
  - rewrite rel_keys_merge_rel_bound, (Hknown a b); [done|by left].
  - intros a' b' Hin. rewrite (has_rel_foldl_merge t a' b' [(a, b, kvs)] g). left.
    apply Hknown. by right.
Qed.

Lemma miner_count now g0 P : ∀ s c,
  nodes (store s) = nodes g0 → hp_rels (store s) = hp_rels g0 →
  (foldl (λ '(s, created) page,
            (run now (GraphEnhancer.mine_page page) s,
             created + length (GraphEnhancer.page_rows page (store s))))
     (s, c) P).2
  = (c + length (GraphEnhancer.page_rows (concat P) g0))%nat.
Proof.
  induction P as [|page P IH]; intros s c Hn Hr; [simpl; lia|]. cbn [foldl concat].
  rewrite IH; simpl.
  - rewrite page_rows_app, length_app, (page_rows_ext page (store s) g0 Hn Hr). lia.
  - rewrite mine_page_fold.
    destruct (foldl_merge_association_inv
                (map (merged_row (now (tick s)))
                   (GraphEnhancer.page_rows page (store s))) (store s)) as [-> _]. done.
  - rewrite mine_page_fold.
    destruct (foldl_merge_association_inv
                (map (merged_row (now (tick s)))
                   (GraphEnhancer.page_rows page (store s))) (store s)) as [_ ->]. done.
Qed.

Lemma miner_frame now s :
  nodes (store (GraphEnhancer.create_symptom_relationships now s).1) = nodes (store s)
  ∧ ∀ t, t ≠ ASSOCIATED_WITH →
         filter (λ r, bool_decide (rty r = t))
           (rels (store (GraphEnhancer.create_symptom_relationships now s).1))
         = filter (λ r, bool_decide (rty r = t)) (rels (store s)).
Proof.
  rewrite miner_store. split.
  - apply foldl_merge_association_inv.
  - intros t Ht. by apply foldl_merge_association_frame.
Qed.

Lemma miner_created now s :
  (GraphEnhancer.create_symptom_relationships now s).2
  = length (GraphEnhancer.page_rows (GraphEnhancer.sorted_phenotype_ids (store s)) (store s)).
Proof.
  unfold GraphEnhancer.create_symptom_relationships.
  rewrite (miner_count now (store s)) by done.
  rewrite pages_concat; [done|unfold GraphEnhancer.PAGE_SIZE; lia|done].
Qed.

Lemma miner_keys now s :
  map fst (all_rows now (S (tick s))
             (GraphEnhancer.pages (length (GraphEnhancer.sorted_phenotype_ids (store s)))
                GraphEnhancer.PAGE_SIZE (GraphEnhancer.sorted_phenotype_ids (store s)))
             (store s))
  = map (λ row : key * (key * nat * nat), (row.1, row.2.1.1))
      (GraphEnhancer.page_rows (GraphEnhancer.sorted_phenotype_ids (store s)) (store s)).
Proof.
  rewrite all_rows_keys, pages_concat; [done|unfold GraphEnhancer.PAGE_SIZE; lia|done].
Qed.

(** Extra (the miner run again).  [create_symptom_relationships] adds and
    removes no node and changes no relationship of another type than
    [ASSOCIATED_WITH].  Run a second time it reports the same number and
    creates nothing: what it reports as created is the number of
    associations found, not the number of relationships added. *)
Theorem miner_rerun now now' s :
  let r1 := GraphEnhancer.create_symptom_relationships now s in
  let r2 := GraphEnhancer.create_symptom_relationships now' r1.1 in
  nodes (store r1.1) = nodes (store s)
  ∧ (∀ t, t ≠ ASSOCIATED_WITH →
          filter (λ r, bool_decide (rty r = t)) (rels (store r1.1))
          = filter (λ r, bool_decide (rty r = t)) (rels (store s)))
  ∧ r2.2 = r1.2
  ∧ map rkey (rels (store r2.1)) = map rkey (rels (store r1.1)).
Proof.
  intros r1 r2. destruct (miner_frame now s) as [Hn Hf]. fold r1 in Hn, Hf.
  assert (hp_rels (store r1.1) = hp_rels (store s)) as Hhp by (by apply Hf).
  assert (GraphEnhancer.sorted_phenotype_ids (store r1.1)
          = GraphEnhancer.sorted_phenotype_ids (store s)) as Hids.
  { unfold GraphEnhancer.sorted_phenotype_ids, phenotypes. by rewrite Hn. }
  split_and!; [done..| |].
  - subst r2. rewrite (miner_created now' r1.1), Hids.
    rewrite (page_rows_ext _ (store r1.1) (store s) Hn Hhp).
    subst r1. by rewrite miner_created.
  - subst r2. rewrite miner_store. apply keys_foldl_merge_known.
    intros a b Hin. rewrite miner_keys, Hids in Hin.
    rewrite (page_rows_ext _ (store r1.1) (store s) Hn Hhp) in Hin.
    subst r1. rewrite miner_store. apply has_rel_foldl_merge. right.
    by rewrite miner_keys.
Qed.

Lemma partners_rdst a b g :
  b ∈ GraphEnhancer.partners a g → ∃ r, r ∈ rels g ∧ rdst r = b.
Proof.
  unfold GraphEnhancer.partners. intros Hb. apply list_elem_of_In, in_flat_map in Hb.
  destruct Hb as (d & _ & Hb%list_elem_of_In).
  unfold GraphEnhancer.phenotypes_of in Hb.
  apply list_elem_of_fmap in Hb as (r & -> & Hr). apply list_elem_of_filter in Hr as [_ Hr].
  by exists r.
Qed.

Lemma miner_co_occurrence now s a b :
  let g := store s in
  let g' := store (GraphEnhancer.create_symptom_relationships now s).1 in
  let K := map (λ row : key * (key * nat * nat), (row.1, row.2.1.1))
             (GraphEnhancer.page_rows (GraphEnhancer.sorted_phenotype_ids g) g) in
  (has_rel ASSOCIATED_WITH a b g' = true ↔ has_rel ASSOCIATED_WITH a b g = true ∨ (a, b) ∈ K)
  ∧ rel_prop ASSOCIATED_WITH a b "co_occurrence_count" g'
    = if decide ((a, b) ∈ K)
      then Some (VInt (Z.of_nat (GraphEnhancer.count_of b (GraphEnhancer.partners a g))))
      else rel_prop ASSOCIATED_WITH a b "co_occurrence_count" g.
Proof.
  intros g g' K. subst g g' K. rewrite miner_store, <- (miner_keys now s). split.
  - apply has_rel_foldl_merge.
  - apply rel_prop_foldl_merge. intros a' b' kvs Hin -> ->.
    apply elem_of_all_rows in Hin as (now' & co & total & -> & Hrow).
    apply elem_of_page_rows in Hrow as (_ & _ & _ & Hrow).
    apply elem_of_mined_rows in Hrow as (-> & -> & _).
    by rewrite association_kvs_count.
Qed.

(** A pair the miner has a row for is one it has a row for in the other
    direction, with the same count. *)
Lemma miner_pair_swap g a b :
  Spec.unique_rels g → Spec.joined g →
  let K := map (λ row : key * (key * nat * nat), (row.1, row.2.1.1))
             (GraphEnhancer.page_rows (GraphEnhancer.sorted_phenotype_ids g) g) in
  (a, b) ∈ K →
  (b, a) ∈ K
  ∧ GraphEnhancer.count_of a (GraphEnhancer.partners b g)
    = GraphEnhancer.count_of b (GraphEnhancer.partners a g).
Proof.
  intros Hu Hj K Hab. subst K. apply miner_row_iff in Hab as (Ha & _ & Hna & Hco).
  assert (b ∈ GraphEnhancer.partners a g) as Hb.
  { apply count_of_pos. unfold GraphEnhancer.COOCCURRENCE_THRESHOLD in Hco. lia. }
  destruct (elem_of_partners a b g Hb) as [Hlb Hne].
  destruct (partners_rdst a b g Hb) as (r & Hr & <-).
  destruct (Hj r Hr) as [_ Hnb].
  assert (GraphEnhancer.count_of a (GraphEnhancer.partners (rdst r) g)
          = GraphEnhancer.count_of (rdst r) (GraphEnhancer.partners a g)) as Hsym.
  { rewrite (count_partners_shared (rdst r) a g Hu Ha) by done.
    rewrite (count_partners_shared a (rdst r) g Hu Hlb Hne).
    unfold Spec.shared_diseases. f_equal. apply intersection_comm_L. }
  split; [|done]. apply miner_row_iff. split_and!; [done| |done|by rewrite Hsym].
  apply has_node_sorted_ids. destruct (rdst r) as [l i]. simpl in Hlb. by subst l.
Qed.

(** Extra (associations come in pairs).  On a store without duplicate
    relationships whose relationships join nodes of the store, and that
    has no association between [a] and [b] yet, the miner writes the
    association from [a] to [b] exactly when it writes the one from [b] to
    [a], and both carry the same [co_occurrence_count]. *)
Theorem miner_symmetric now s a b :
  Spec.unique_rels (store s) → Spec.joined (store s) →
  rel_props ASSOCIATED_WITH a b (store s) = None →
  rel_props ASSOCIATED_WITH b a (store s) = None →
  let g' := store (GraphEnhancer.create_symptom_relationships now s).1 in
  has_rel ASSOCIATED_WITH a b g' = has_rel ASSOCIATED_WITH b a g'
  ∧ rel_prop ASSOCIATED_WITH a b "co_occurrence_count" g'
    = rel_prop ASSOCIATED_WITH b a "co_occurrence_count" g'.
Proof.
  intros Hu Hj Hab Hba g'. subst g'.
  destruct (miner_co_occurrence now s a b) as [Hr1 Hc1].
  destruct (miner_co_occurrence now s b a) as [Hr2 Hc2].
  cbv zeta in *. rewrite Hc1, Hc2. unfold rel_prop. rewrite Hab, Hba. simpl.
  assert (has_rel ASSOCIATED_WITH a b (store s) = false) as Hfab.
  { rewrite has_rel_props, Hab. apply bool_decide_eq_false. by intros [? ?]. }
  assert (has_rel ASSOCIATED_WITH b a (store s) = false) as Hfba.
  { rewrite has_rel_props, Hba. apply bool_decide_eq_false. by intros [? ?]. }
  rewrite Hfab in Hr1. rewrite Hfba in Hr2.
  pose proof (miner_pair_swap (store s) a b Hu Hj) as S1.
  pose proof (miner_pair_swap (store s) b a Hu Hj) as S2. cbv zeta in *.
  split.
  - destruct (has_rel ASSOCIATED_WITH a b _) eqn:E1, (has_rel ASSOCIATED_WITH b a _) eqn:E2;
      try done.
    + destruct (proj1 Hr1 eq_refl) as [?|Hin]; [done|].
      destruct (S1 Hin) as [Hin' _]. assert (false = true) by (apply Hr2; by right). done.
    + destruct (proj1 Hr2 eq_refl) as [?|Hin]; [done|].
      destruct (S2 Hin) as [Hin' _]. assert (false = true) by (apply Hr1; by right). done.
  - destruct (decide ((a, b) ∈ _)) as [Hin|Hnin].
    + destruct (S1 Hin) as [Hin' Hco]. rewrite decide_True by done. by rewrite Hco.
    + rewrite decide_False; [done|]. intros Hin'. by destruct (S2 Hin') as [? _].
Qed.

Lemma miner_symmetric_witness :
  let s := {| store := Inputs.seven_diseases; tick := 0 |} in
  let g' := store (GraphEnhancer.create_symptom_relationships Inputs.clock s).1 in
  has_rel ASSOCIATED_WITH (Phenotype, "A") (Phenotype, "B") g'
  = has_rel ASSOCIATED_WITH (Phenotype, "B") (Phenotype, "A") g'.
Proof.
  intros s g'.
  refine (proj1 (miner_symmetric Inputs.clock s (Phenotype, "A") (Phenotype, "B") _ _ _ _)).
  - unfold Spec.unique_rels. compute_done.
  - intros r Hr. revert r Hr. apply Forall_forall. compute_done.
  - reflexivity.
  - reflexivity.
Defined.

(** ** The clusters *)

Lemma assign_idem a v ps : assign a v (assign a v ps) = assign a v ps.
Proof.
  unfold assign. destruct v; [apply insert_insert_eq|apply delete_delete_eq].
Qed.

Lemma lookup_assign a v ps b :
  assign a v ps !! b = if decide (a = b) then v else ps !! b.
Proof.
  unfold assign. destruct (decide (a = b)) as [->|Hne], v.
  - apply lookup_insert_eq.
  - apply lookup_delete_eq.
  - by apply lookup_insert_ne.
  - by apply lookup_delete_ne.
Qed.

Lemma assign_clusters_props n g q :
  rels (GraphEnhancer.assign_clusters n g) = rels g
  ∧ node_props q (GraphEnhancer.assign_clusters n g)
    = if decide (q ∈ phenotypes g)
      then (λ ps, assign "cluster_size" (Some (VInt (Z.of_nat (category_size g q))))
                    (assign "cluster_id" (node_prop q "category" g) ps))
           <$> node_props q g
      else node_props q g.
Proof.
  unfold GraphEnhancer.assign_clusters.
  pose proof (foldl_update_props
                (λ _ p, Some (λ ps, assign "cluster_size"
                                      (Some (VInt (Z.of_nat (category_size g p))))
                                      (assign "cluster_id" (node_prop p "category" g) ps)))
                (λ p g', update_node p
                           (λ ps, assign "cluster_size"
                                    (Some (VInt (Z.of_nat (category_size g p))))
                                    (assign "cluster_id" (node_prop p "category" g) ps)) g'))
    as H.
  apply H; clear H; [done..|].
  intros _ p f ps [= <-]. cbv beta. apply map_eq. intros b.
  destruct (decide ("cluster_size" = b)) as [<-|H1]; [by rewrite !lookup_insert_eq|].
  rewrite !lookup_insert_ne by done. rewrite !lookup_assign.
  case_decide as H2; [done|]. rewrite lookup_insert_ne by done.
  rewrite lookup_assign. by rewrite decide_False.
Qed.

Lemma node_keys_foldl_update (f : key → props → props) (L : list key) : ∀ g,
  map nkey (nodes (foldl (λ g' p, update_node p (f p) g') g L)) = map nkey (nodes g).
Proof.
  induction L as [|p L IH]; intros g; [done|]. simpl.
  by rewrite IH, nodes_keys_update_node.
Qed.

(** Extra (the clusters).  After [create_symptom_clusters] every
    phenotype term has its category as [cluster_id] (none, when it has no
    category) and, as [cluster_size], the number of phenotype terms of its
    category; the statement adds and removes no node and no
    relationship. *)
Theorem clusters_spec now s p :
  p ∈ phenotypes (store s) →
  let g := store s in
  let g' := store (GraphEnhancer.create_symptom_clusters now s) in
  node_prop p "cluster_id" g' = node_prop p "category" g
  ∧ node_prop p "cluster_size" g' = Some (VInt (Z.of_nat (category_size g p)))
  ∧ (1 ≤ category_size g p)%nat
  ∧ map nkey (nodes g') = map nkey (nodes g)
  ∧ map rkey (rels g') = map rkey (rels g).
Proof.
  intros Hp g g'. subst g g'. unfold GraphEnhancer.create_symptom_clusters, run.
  cbn [store tick]. set (g := store s) in *.
  set (g1 := GraphEnhancer.assign_clusters (now (tick s)) g).
  destruct (assign_clusters_props (now (tick s)) g p) as [Hr Hprops]. fold g1 in Hr, Hprops.
  rewrite decide_True in Hprops by done.
  destruct (elem_of_phenotypes p g Hp) as [ps Hps].
  assert (∀ a, node_prop p a (GraphEnhancer.cross_cluster_strength (now (S (tick s))) g1)
               = node_prop p a g1) as Hnode by done.
  split_and!.
  - rewrite Hnode. unfold node_prop at 1. rewrite Hprops, Hps.
    cbn [fmap option_fmap option_map mbind option_bind]. by rewrite !lookup_assign.
  - rewrite Hnode. unfold node_prop at 1. rewrite Hprops, Hps.
    cbn [fmap option_fmap option_map mbind option_bind]. by rewrite lookup_assign.
  - unfold category_size.
    assert (p ∈ filter (λ q, bool_decide (node_prop q "category" g = node_prop p "category" g))
                  (phenotypes g)) as Hin.
    { apply list_elem_of_filter. split; [by apply bool_decide_pack|done]. }
    destruct (filter _ (phenotypes g)); [by apply elem_of_nil in Hin|simpl; lia].
  - cbn [GraphEnhancer.cross_cluster_strength nodes]. subst g1.
    unfold GraphEnhancer.assign_clusters.
    apply (node_keys_foldl_update
             (λ p ps, assign "cluster_size"
                        (Some (VInt (Z.of_nat
                           (length (filter (λ q, bool_decide (node_prop q "category" g
                                                              = node_prop p "category" g))
                                      (phenotypes g))))))
                        (assign "cluster_id" (node_prop p "category" g) ps))).
  - cbn [GraphEnhancer.cross_cluster_strength rels]. rewrite map_map, <- Hr.
    apply map_ext. intros r. by case_bool_decide.
Qed.

Lemma clusters_spec_witness :
  node_prop (Phenotype, "A") "cluster_size"
    (store (GraphEnhancer.create_symptom_clusters Inputs.clock
              {| store := Inputs.annotated_pair; tick := 0 |})) = Some (VInt 2).
Proof.
  refine (proj1 (proj2 (clusters_spec Inputs.clock
                          {| store := Inputs.annotated_pair; tick := 0 |}
                          (Phenotype, "A") _))).
  by left.
Defined.

Lemma phenotypes_elem k g : k.1 = Phenotype → is_Some (node_props k g) → k ∈ phenotypes g.
Proof.
  intros Hl [ps Hps]. unfold node_props in Hps.
  destruct (find (is_node k) (nodes g)) as [n|] eqn:Hf; [|done].
  apply find_some in Hf as [Hin Hk]. apply bool_decide_eq_true in Hk.
  unfold phenotypes. apply list_elem_of_fmap. exists n. split; [done|].
  apply list_elem_of_filter. split; [|by apply list_elem_of_In].
  apply bool_decide_pack. rewrite <- Hk in Hl. done.
Qed.

(** After the first statement the [cluster_id] of a [Phenotype] key is the
    category it had, node of the store or not. *)
Lemma cluster_id_assigned n g a :
  a.1 = Phenotype →
  node_prop a "cluster_id" (GraphEnhancer.assign_clusters n g) = node_prop a "category" g.
Proof.
  intros Hl. unfold node_prop at 1.
  destruct (assign_clusters_props n g a) as [_ ->].
  destruct (decide (a ∈ phenotypes g)) as [Hin|Hnin].
  - destruct (elem_of_phenotypes a g Hin) as [ps Hps]. rewrite Hps.
    cbn [fmap option_fmap option_map mbind option_bind]. rewrite !lookup_assign.
    unfold node_prop. by rewrite Hps.
  - unfold node_prop. destruct (node_props a g) as [ps|] eqn:Hps; [|done].
    destruct Hnin. apply phenotypes_elem; [done|]. by rewrite Hps.
Qed.

(** Extra (cross-cluster associations).  After [create_symptom_clusters]
    an association between two phenotype terms is marked [cross_cluster]
    exactly when both terms have a category and the categories differ; an
    association inside one category, or with a term without category,
    keeps the mark it had (none, on a fresh store). *)
Theorem cross_cluster_spec now s a b :
  let g := store s in
  let g' := store (GraphEnhancer.create_symptom_clusters now s) in
  rel_prop ASSOCIATED_WITH a b "cross_cluster" g'
  = if decide (has_rel ASSOCIATED_WITH a b g = true
               ∧ a.1 = Phenotype ∧ b.1 = Phenotype
               ∧ is_Some (node_prop a "category" g) ∧ is_Some (node_prop b "category" g)
               ∧ node_prop a "category" g ≠ node_prop b "category" g)
    then Some (VBool true)
    else rel_prop ASSOCIATED_WITH a b "cross_cluster" g.
Proof.
  intros g g'. subst g g'. unfold GraphEnhancer.create_symptom_clusters, run.
  cbn [store tick]. set (g := store s).
  set (g1 := GraphEnhancer.assign_clusters (now (tick s)) g).
  destruct (assign_clusters_props (now (tick s)) g a) as [Hr _]. fold g1 in Hr.
  unfold rel_prop, rel_props. rewrite has_rel_props. unfold rel_props.
  cbn [GraphEnhancer.cross_cluster_strength rels].
  rewrite find_map_keep
    by (intros r; match goal with |- context [if ?c then _ else _] => by destruct c end).
  rewrite Hr. clear Hr. subst g1.
  destruct (find (is_rel ASSOCIATED_WITH a b) (rels g)) as [r|] eqn:Hf.
  - apply find_some in Hf as [_ Hk]. apply bool_decide_eq_true in Hk.
    unfold rkey in Hk. injection Hk as Ht Ha Hb.
    cbn [fmap option_fmap option_map mbind option_bind]. rewrite Ht, Ha, Hb.
    case_bool_decide as Hc.
    + destruct Hc as (_ & Hla & Hlb & Hca & Hcb & Hne).
      pose proof (cluster_id_assigned (now (tick s)) g a Hla) as Ea.
      pose proof (cluster_id_assigned (now (tick s)) g b Hlb) as Eb.
      rewrite Ea in Hca, Hne. rewrite Eb in Hcb, Hne.
      rewrite decide_True; [|split_and!; [by apply bool_decide_eq_true; eexists|done..]].
      cbn [rprops]. rewrite !lookup_assign. done.
    + rewrite decide_False; [done|]. intros (_ & Hla & Hlb & Hca & Hcb & Hne).
      apply Hc.
      pose proof (cluster_id_assigned (now (tick s)) g a Hla) as Ea.
      pose proof (cluster_id_assigned (now (tick s)) g b Hlb) as Eb.
      by rewrite Ea, Eb.
  - rewrite decide_False; [done|]. intros (Hhas & _).
    apply bool_decide_eq_true in Hhas as [? ?]. done.
Qed.

(** ** The whole of [main] *)

Lemma unique_foldl_merge t (R : list (key * key * props)) : ∀ g,
  Spec.unique_rels g →
  Spec.unique_rels (foldl (λ g '(a, b, kvs), merge_rel_bound t a b kvs g) g R).
Proof.
  unfold Spec.unique_rels.
  induction R as [|[[a b] kvs] R IH]; intros g Hu; [done|]. simpl. apply IH.
  rewrite rel_keys_merge_rel_bound. destruct (has_rel t a b g) eqn:Hr; [done|].
  apply NoDup_app. split_and!; [done| |apply NoDup_singleton].
  intros e He ->%list_elem_of_singleton.
  rewrite has_rel_elem in Hr. by apply bool_decide_eq_false in Hr.
Qed.

Lemma clusters_keys now s :
  map nkey (nodes (store (GraphEnhancer.create_symptom_clusters now s)))
  = map nkey (nodes (store s))
  ∧ map rkey (rels (store (GraphEnhancer.create_symptom_clusters now s)))
    = map rkey (rels (store s)).
Proof.
  unfold GraphEnhancer.create_symptom_clusters, run. cbn [store tick]. split.
  - cbn [GraphEnhancer.cross_cluster_strength nodes].
    unfold GraphEnhancer.assign_clusters.
    apply (node_keys_foldl_update
             (λ p ps, assign "cluster_size"
                        (Some (VInt (Z.of_nat
                           (length (filter (λ q, bool_decide
                                                   (node_prop q "category" (store s)
                                                    = node_prop p "category" (store s)))
                                      (phenotypes (store s)))))))
                        (assign "cluster_id" (node_prop p "category" (store s)) ps))).
  - cbn [GraphEnhancer.cross_cluster_strength rels]. rewrite map_map.
    destruct (assign_clusters_props (now (tick s)) (store s) (Phenotype, "")) as [<- _].
    apply map_ext. intros r. by case_bool_decide.
Qed.

Lemma algorithms_keys now s :
  rels (store (GraphEnhancer.apply_graph_algorithms now s)) = rels (store s)
  ∧ map nkey (nodes (store (GraphEnhancer.apply_graph_algorithms now s)))
    = map nkey (nodes (store s)).
Proof.
  unfold GraphEnhancer.apply_graph_algorithms. simpl.
  set (g1 := GraphEnhancer.iterate GraphEnhancer.degree_centrality _ (store s)).
  set (g2 := GraphEnhancer.iterate GraphEnhancer.betweenness_score _ g1).
  set (g3 := GraphEnhancer.iterate GraphEnhancer.identify_hub _ g2).
  set (g4 := GraphEnhancer.iterate GraphEnhancer.cluster_coefficient _ g3).
  destruct (writes_only_iterate _ _ (now (tick s)) writes_only_degree_centrality (store s))
    as (R1 & _ & N1 & _). fold g1 in R1, N1.
  destruct (writes_only_iterate _ _ (now (S (tick s))) writes_only_betweenness_score g1)
    as (R2 & _ & N2 & _). fold g2 in R2, N2.
  destruct (writes_only_iterate _ _ (now (S (S (tick s)))) writes_only_identify_hub g2)
    as (R3 & _ & N3 & _). fold g3 in R3, N3.
  destruct (writes_only_iterate _ _ (now (S (S (S (tick s))))) writes_only_cluster_coefficient g3)
    as (R4 & _ & N4 & _). fold g4 in R4, N4.
  split; congruence.
Qed.

(** [main], stage by stage: the enhancement runs only after an ingestion
    without exception and always ends in the [AttributeError] of the
    missing method. *)
Lemma main_stages now bs obo hpoa s :
  KnowledgeGraphBuilder.main now bs obo hpoa s
  = let s0 := KnowledgeGraphBuilder.create_schema now
                (KnowledgeGraphBuilder.clear_database now s) in
    let r := KnowledgeGraphBuilder.ingest now bs obo hpoa s0 in
    match r.2 with
    | Some e => (r.1, Some e)
    | None =>
        (GraphEnhancer.apply_graph_algorithms now
           (GraphEnhancer.create_symptom_clusters now
              (GraphEnhancer.create_symptom_relationships now r.1).1),
         Some AttributeError)
    end.
Proof.
  unfold KnowledgeGraphBuilder.main. cbv zeta.
  destruct (KnowledgeGraphBuilder.ingest now bs obo hpoa _) as [s1 [e|]]; [done|].
  reflexivity.
Qed.

(** Extra (what [main] leaves).  [main] starts from an emptied store, so
    what it leaves does not depend on what the store held before; whatever
    the two files hold and wherever it stops, the store it leaves has no
    two nodes with one label and [id] and no two relationships of one type
    between the same two nodes. *)
Theorem main_store_unique now bs obo hpoa s :
  KnowledgeGraphBuilder.main now bs obo hpoa s
  = KnowledgeGraphBuilder.main now bs obo hpoa {| store := Sink.empty; tick := tick s |}
  ∧ Spec.unique_nodes (store (KnowledgeGraphBuilder.main now bs obo hpoa s).1)
  ∧ Spec.unique_rels (store (KnowledgeGraphBuilder.main now bs obo hpoa s).1).
Proof.
  split; [by rewrite !main_stages|].
  rewrite main_stages. cbv zeta.
  set (s0 := KnowledgeGraphBuilder.create_schema now
               (KnowledgeGraphBuilder.clear_database now s)).
  assert (store s0 = Sink.empty) as Hs0 by done.
  destruct (ingest_ops_spec now bs obo hpoa s0) as [Hstore _].
  destruct (unique_run_ops (ingest_ops now (tick s0) bs obo hpoa) (store s0)) as [Hn Hr].
  { rewrite Hs0. constructor. }
  { rewrite Hs0. constructor. }
  rewrite <- Hstore in Hn, Hr.
  destruct (KnowledgeGraphBuilder.ingest now bs obo hpoa s0) as [s1 [e|]]; [done|].
  cbn [fst snd] in *.
  destruct (algorithms_keys now
              (GraphEnhancer.create_symptom_clusters now
                 (GraphEnhancer.create_symptom_relationships now s1).1)) as [Ra Na].
  destruct (clusters_keys now (GraphEnhancer.create_symptom_relationships now s1).1)
    as [Nc Rc].
  destruct (miner_frame now s1) as [Nm _].
  unfold Spec.unique_nodes, Spec.unique_rels. rewrite Na, Ra, Nc, Rc, Nm. split; [done|].
  rewrite miner_store. by apply unique_foldl_merge.
Qed.

(** ** What an upsert overwrites *)

Lemma last_node_kvs_is_Some k O kvs : MergeNode k kvs ∈ O → is_Some (last_node_kvs k O).
Proof.
  induction O as [|o O IH] using rev_ind; [by intros ?%elem_of_nil|].
  rewrite last_node_kvs_snoc.
  intros [Hin|Hin%list_elem_of_singleton]%elem_of_app.
  - destruct o as [k' kvs'|]; [destruct (decide (k' = k))|]; eauto.
  - subst o. rewrite decide_True by done. eauto.
Qed.

Lemma elem_of_batch_ops_node now t batch k kvs :
  MergeNode k kvs ∈ batch_ops now t batch →
  ∃ it id, it ∈ batch ∧ node_id it = Some id ∧ k = (Phenotype, id)
           ∧ kvs = PhenotypeProcessor.node_kvs (now t) it.
Proof.
  unfold batch_ops. intros [Hin|Hin]%elem_of_app.
  - apply list_elem_of_In, in_flat_map in Hin as (it & Hit%list_elem_of_In & Hop).
    apply list_elem_of_filter in Hit as [_ Hit].
    destruct it as [id name definition synonyms category comment xrefs|]; [|done].
    simpl in Hop. destruct Hop as [[= <- <-]|[]]. by eexists _, id.
  - apply list_elem_of_In, in_flat_map in Hin as (it & _ & Hop).
    destruct it; [done|]. simpl in Hop. by destruct Hop as [?|[]].
Qed.

(** Extra (what an upsert overwrites).  After [_process_batch] the node
    of an identifier that has a node record in the batch carries the
    eight properties of one of its records of the batch, whatever it
    carried before; in particular its [created_at] is the time of this
    statement, like its [modified_at], also when the node existed before.
    Properties the statement does not set are kept. *)
Theorem process_batch_overwrites now s batch id :
  Some id ∈ map node_id batch →
  let g' := store (PhenotypeProcessor._process_batch now s batch) in
  (∃ it, it ∈ batch ∧ node_id it = Some id
         ∧ node_props (Phenotype, id) g'
           = Some (PhenotypeProcessor.node_kvs (now (tick s)) it
                   ∪ default ∅ (node_props (Phenotype, id) (store s))))
  ∧ node_prop (Phenotype, id) "created_at" g' = Some (VTime (now (tick s)))
  ∧ node_prop (Phenotype, id) "modified_at" g' = Some (VTime (now (tick s))).
Proof.
  intros Hid g'. subst g'. rewrite process_batch_ops. cbn [store].
  assert (Forall well_schemed (batch_ops now (tick s) batch)) as Hs.
  { pose proof (batches_ops_schemed now [batch] (tick s)) as H. simpl in H.
    by rewrite app_nil_r in H. }
  destruct (elem_of_node_ops (now (tick s)) batch id Hid) as (kvs0 & Hop).
  assert (MergeNode (Phenotype, id) kvs0 ∈ batch_ops now (tick s) batch) as Hop'.
  { unfold batch_ops. apply elem_of_app. by left. }
  destruct (last_node_kvs_is_Some _ _ _ Hop') as [kvs Hlast].
  pose proof (last_node_kvs_elem _ _ _ Hlast) as Hin.
  apply elem_of_batch_ops_node in Hin as (it & id' & Hit & Hid' & [= <-] & ->).
  unfold node_prop. rewrite (node_props_run_ops _ _ _ Hs), Hlast.
  split; [by exists it|].
  destruct it as [id0 name definition synonyms category comment xrefs|]; [|done].
  cbn [mbind option_bind]. split; by apply lookup_union_Some_l.
Qed.

Lemma process_batch_overwrites_witness :
  node_prop (Phenotype, "HP:0000001") "created_at"
    (store (PhenotypeProcessor._process_batch Inputs.clock
              {| store := Inputs.pendant; tick := 5 |}
              [PhenotypeProcessor.Node "HP:0000001" (VS "All") "" (VL []) "Other"
                 (VS "") (VL [])]))
  = Some (VTime 5)
  ∧ node_prop (Phenotype, "HP:0000001") "created_at"
      (store (PhenotypeProcessor._process_batch Inputs.clock
                (PhenotypeProcessor._process_batch Inputs.clock
                   {| store := Inputs.pendant; tick := 5 |}
                   [PhenotypeProcessor.Node "HP:0000001" (VS "All") "" (VL []) "Other"
                      (VS "") (VL [])])
                [PhenotypeProcessor.Node "HP:0000001" (VS "All") "" (VL []) "Other"
                   (VS "") (VL [])]))
    = Some (VTime 6).
Proof.
  split.
  - refine (proj1 (proj2 (process_batch_overwrites Inputs.clock
                            {| store := Inputs.pendant; tick := 5 |} _ "HP:0000001" _))).
    by left.
  - refine (proj1 (proj2 (process_batch_overwrites Inputs.clock
                            (PhenotypeProcessor._process_batch Inputs.clock
                               {| store := Inputs.pendant; tick := 5 |}
                               [PhenotypeProcessor.Node "HP:0000001" (VS "All") ""
                                  (VL []) "Other" (VS "") (VL [])])
                            _ "HP:0000001" _))).
    by left.
Defined.

(** ** The records of a block *)

Lemma length_chars s : length (PyStr.chars s) = String.length s.
Proof. induction s as [|c s IH]; [done|]. simpl. by rewrite IH. Qed.

Lemma chars_one s x : x ∈ PyStr.chars s → ∃ c, x = String c EmptyString.
Proof.
  induction s as [|c s IH]; [by intros ?%elem_of_nil|]. simpl.
  intros [->|Hin]%elem_of_cons; [by eexists|auto].
Qed.

Lemma definition_errors (ct : gmap string pyval) e :
  match ct !! "def" with
  | None => Ok ""
  | Some (VS d) => PyStr.index (PyStr.split PyStr.dquote d) 1
  | Some (VL _) => Err AttributeError
  end = Err e
  ↔ (∃ l, ct !! "def" = Some (VL l)) ∧ e = AttributeError
    ∨ (∃ d, ct !! "def" = Some (VS d) ∧ PyStr.contains PyStr.dquote d = false)
      ∧ e = IndexError.
Proof.
  destruct (ct !! "def") as [[d|l]|].
  - unfold PyStr.index.
    destruct (PyStr.split PyStr.dquote d !! 1) as [x|] eqn:Hx.
    + split; [done|]. intros [[(l & [=]) _]|[(d' & [= <-] & Hc) _]].
      apply not_true_iff_false in Hc. destruct Hc. apply split_second. by rewrite Hx.
    + split.
      * intros [= <-]. right. split; [|done]. exists d. split; [done|].
        apply not_true_iff_false. intros Hc%split_second. rewrite Hx in Hc.
        by destruct Hc.
      * by intros [[(l & [=]) _]|[_ ->]].
  - split.
    + intros [= <-]. left. split; [by eexists|done].
    + by intros [[_ ->]|[(d & [=] & _) _]].
  - split; [done|]. by intros [[(l & [=]) _]|[(d & [=] & _) _]].
Qed.

(** Extra (the exceptions of a block).  When a [[Term]] line closes a
    block, the records of the block are built without exception unless
    the block has an [id] and (i) repeats its [id:] line: [TypeError];
    or (ii) repeats its [def:] line: [AttributeError]; or (iii) has a
    [def:] line without double quote: [IndexError].  (Stated for the
    blocks the loop builds, where no key holds an empty list.) *)
Theorem term_records_errors ct e :
  ct !! "id" ≠ Some (VL []) →
  PhenotypeProcessor.term_records ct = Err e
  ↔ ∃ idv, ct !! "id" = Some idv
           ∧ ((∃ x l, idv = VL (x :: l)) ∧ e = TypeError
              ∨ (∃ id, idv = VS id)
                ∧ ((∃ l, ct !! "def" = Some (VL l)) ∧ e = AttributeError
                   ∨ (∃ d, ct !! "def" = Some (VS d)
                           ∧ PyStr.contains PyStr.dquote d = false)
                     ∧ e = IndexError)).
Proof.
  intros Hid. unfold PhenotypeProcessor.term_records.
  destruct (ct !! "id") as [idv|] eqn:Hidv.
  - assert (bool_decide (ct ≠ ∅) && bool_decide (is_Some (Some idv)) = true) as ->.
    { apply andb_true_iff. split; apply bool_decide_eq_true; [|by eexists].
      intros ->. by rewrite lookup_empty in Hidv. }
    cbn [default]. unfold Datatypes.id. destruct idv as [id|[|x l]]; [|done|].
    + pose proof (definition_errors ct e) as Hdef.
      assert (∃ c, PhenotypeProcessor._determine_category (VS id) = Ok c) as [c ->].
      { simpl. destruct (decide (id = "")); by eexists. }
      cbn [mbind res_bind] in *.
      destruct (match ct !! "def" with
                | None => Ok ""
                | Some (VS d) => PyStr.index (PyStr.split PyStr.dquote d) 1
                | Some (VL _) => Err AttributeError
                end) as [definition|e'].
      * split; [done|]. intros (idv & [= <-] & [[(x & l & [=]) _]|[_ H]]).
        by apply Hdef in H.
      * split.
        -- intros He. simpl in He. injection He as <-.
           exists (VS id). split; [done|]. right.
           split; [by eexists|]. by apply Hdef.
        -- intros (idv & [= <-] & [[(x & l & [=]) _]|[_ H]]).
           apply Hdef in H. by injection H as ->.
    + cbn [PhenotypeProcessor._determine_category PhenotypeProcessor.categories
           mbind res_bind]. split.
      * intros [= <-]. exists (VL (x :: l)). split; [done|]. left.
        split; [by eexists _, _|done].
      * intros (idv & [= <-] & [[_ ->]|[(id & [=]) _]]). done.
  - rewrite andb_false_intro2 by (apply bool_decide_eq_false; by intros [? ?]).
    split; [done|]. by intros (idv & [=] & _).
Qed.

Lemma term_records_errors_witness :
  PhenotypeProcessor.term_records
    (<["def" := VS "no quotes"]> (<["id" := VS "HP:0000001"]> ∅)) = Err IndexError.
Proof.
  refine (proj2 (term_records_errors _ IndexError _) _).
  - done.
  - exists (VS "HP:0000001"). split; [done|]. right. split; [by eexists|]. right.
    split; [|done]. by exists "no quotes".
Defined.

Lemma first_field_char c :
  (String.length (PhenotypeProcessor.first_field PyStr.space (String c EmptyString)) ≤ 1)%nat.
Proof.
  unfold PhenotypeProcessor.first_field. simpl.
  destruct (decide (PyStr.space = c)); simpl; lia.
Qed.

(** Extra (the relationship records of a block).  A block with an [id]
    whose records are built yields one node record followed by its
    relationship records, all from its [id]: none without [is_a:] line;
    for two or more [is_a:] lines one per line, to the text before the
    first space; but for a single [is_a:] line one per character of the
    value, each to a parent of at most one character. *)
Theorem is_a_records ct id recs :
  ct !! "id" = Some (VS id) → PhenotypeProcessor.term_records ct = Ok recs →
  ∃ node rels,
    recs = node :: rels ∧ node_id node = Some id
    ∧ match ct !! "is_a" with
      | None => rels = []
      | Some (VL l) =>
          rels = map (λ parent, PhenotypeProcessor.Relationship id
                                  (PhenotypeProcessor.first_field PyStr.space parent)) l
      | Some (VS parent) =>
          length rels = String.length parent
          ∧ ∀ c p, PhenotypeProcessor.Relationship c p ∈ rels →
                   c = id ∧ (String.length p ≤ 1)%nat
      end.
Proof.
  intros Hid. unfold PhenotypeProcessor.term_records. rewrite Hid.
  assert (bool_decide (ct ≠ ∅) && bool_decide (is_Some (Some (VS id))) = true) as ->.
  { apply andb_true_iff. split; apply bool_decide_eq_true; [|by eexists].
    intros ->. by rewrite lookup_empty in Hid. }
  cbn [default]. unfold Datatypes.id.
  assert (∃ c, PhenotypeProcessor._determine_category (VS id) = Ok c) as [c ->].
  { simpl. destruct (decide (id = "")); by eexists. }
  cbn [mbind res_bind].
  destruct (match ct !! "def" with
            | None => Ok ""
            | Some (VS d) => PyStr.index (PyStr.split PyStr.dquote d) 1
            | Some (VL _) => Err AttributeError
            end) as [definition|e]; [|done].
  cbn [mbind res_bind]. intros [= <-]. eexists _, _. split; [done|]. split; [done|].
  destruct (ct !! "is_a") as [[parent|l]|]; [|done..].
  split; [by rewrite length_map, length_chars|].
  intros c' p (x & [= -> ->] & Hx)%list_elem_of_fmap. split; [done|].
  apply chars_one in Hx as [ch ->]. apply first_field_char.
Qed.

Lemma is_a_records_witness :
  ∃ node rels,
    [ PhenotypeProcessor.Node "HP:0000002" (VS "") "" (VL []) "Other" (VS "") (VL []);
      PhenotypeProcessor.Relationship "HP:0000002" "H";
      PhenotypeProcessor.Relationship "HP:0000002" "P" ] = node :: rels
    ∧ node_id node = Some "HP:0000002"
    ∧ (length rels = 2
       ∧ ∀ c p, PhenotypeProcessor.Relationship c p ∈ rels →
                c = "HP:0000002" ∧ (String.length p ≤ 1)%nat).
Proof.
  exact (is_a_records (<["is_a" := VS "HP"]> (<["id" := VS "HP:0000002"]> ∅))
           "HP:0000002" _ eq_refl eq_refl).
Defined.

(** ** The dict of terms of the index *)

Lemma store_term_inv id t terms :
  HPOParser.t_id t = Some id → terms_inv terms → terms_inv (HPOParser.store_term id t terms).
Proof.
  intros Hid [Hnd Hall]. unfold HPOParser.store_term. case_bool_decide as Hin.
  - split.
    + rewrite map_map. rewrite (map_ext _ fst); [done|].
      intros [k t']. simpl. by case_bool_decide.
    + apply Forall_fmap. eapply Forall_impl; [exact Hall|].
      intros [k t'] Hk. simpl. by case_bool_decide.
  - split.
    + rewrite map_app. simpl. apply NoDup_app. split_and!; [done| |apply NoDup_singleton].
      by intros k Hk ->%list_elem_of_singleton.
    + apply Forall_app. split; [done|]. by apply Forall_singleton.
Qed.

Lemma flush_inv current_term terms terms' :
  HPOParser.flush current_term terms = Ok terms' → terms_inv terms → terms_inv terms'.
Proof.
  unfold HPOParser.flush. destruct current_term as [t|]; [|by intros [= <-]].
  destruct (HPOParser.nonempty t); [|by intros [= <-]].
  destruct (HPOParser.t_id t) as [id|] eqn:Hid; [|done].
  intros [= <-]. by apply store_term_inv.
Qed.

Lemma step_terms_inv st l st' :
  HPOParser.step st l = Ok st' → terms_inv st.2 → terms_inv st'.2.
Proof.
  destruct st as [current_term terms]. unfold HPOParser.step.
  destruct (decide (PyStr.strip l = "[Term]")).
  { destruct (HPOParser.flush current_term terms) as [terms'|] eqn:Hf; [|done].
    intros [= <-]. simpl. by eapply flush_inv. }
  repeat match goal with
         | |- context [if PyStr.startswith ?p ?x then _ else _] =>
             destruct (PyStr.startswith p x)
         end;
    try (intros [= <-]; done);
    try (destruct (PyStr.index _ 1); [|done]);
    destruct current_term as [t|]; try done; simpl;
    by intros [= <-].
Qed.

Lemma loop_terms_inv lines : ∀ st st',
  HPOParser.loop st lines = Ok st' → terms_inv st.2 → terms_inv st'.2.
Proof.
  induction lines as [|l lines IH]; intros st st'; [by intros [= <-]|]. simpl.
  destruct (HPOParser.step st l) as [st1|] eqn:Hstep; [|done]. simpl.
  intros Hloop Hinv. eapply IH; [done|]. by eapply step_terms_inv.
Qed.

(** Extra (the dict of terms).  When [parse_obo] ends without exception,
    every term it stored is stored under its own [id] and no key twice:
    [get_term_info] of an identifier returns the empty dict or a term
    whose [id] is that identifier. *)
Theorem get_term_info_id lines p term_id :
  HPOParser.parse_obo HPOParser.init lines = Ok p →
  HPOTerms.get_term_info p term_id = HPOParser.new_term
  ∨ HPOParser.t_id (HPOTerms.get_term_info p term_id) = Some term_id.
Proof.
  unfold HPOParser.parse_obo.
  destruct (HPOParser.loop (None, HPOParser.terms HPOParser.init) lines)
    as [[current_term terms1]|] eqn:Hloop; [|done]. simpl.
  destruct (HPOParser.flush current_term terms1) as [terms2|] eqn:Hflush; [|done]. simpl.
  intros [= <-]. unfold HPOTerms.get_term_info. cbn [HPOParser.terms].
  assert (terms_inv terms2) as [_ Hall].
  { eapply flush_inv; [done|]. apply (loop_terms_inv lines _ _ Hloop).
    split; [constructor|constructor]. }
  destruct (find _ terms2) as [[k t]|] eqn:Hfind; [|by left].
  right. apply find_some in Hfind as [Hin Hk]. apply bool_decide_eq_true in Hk.
  simpl in Hk. subst k. apply list_elem_of_In in Hin.
  by apply (proj1 (Forall_forall _ _) Hall (term_id, t)).
Qed.

Lemma get_term_info_id_witness :
  ∃ p, HPOParser.parse_obo HPOParser.init Inputs.one_term = Ok p
       ∧ (HPOTerms.get_term_info p "HP:0000001" = HPOParser.new_term
          ∨ HPOParser.t_id (HPOTerms.get_term_info p "HP:0000001") = Some "HP:0000001").
Proof.
  eexists. split; [reflexivity|].
  exact (get_term_info_id Inputs.one_term _ "HP:0000001" eq_refl).
Defined.
